(** * bachkov: the voice synchronizer and expander of [bach.py]

    A shallow embedding of [bach.py] (a Markov-chain generator for Bach
    chorales) and the properties of its four-voice synchronization.

    - [gen_states] merges four voice streams into joint states, advancing
      at every step the voices whose cumulative duration is minimal;
    - [make_model] turns every chorale of the corpus into a list of
      tokens ([str] of a joint state) and hands them to markovify;
    - [make_music] reads tokens back ([ast.literal_eval]) and replays the
      same rule to rebuild four parts.

    Python values are modelled as follows.  A [float] is a binary
    floating-point number [fman * 2^fexp]; a [fractions.Fraction] is a
    pair of integers; a [decimal.Decimal] is a coefficient and a decimal
    exponent, added under the default context (28 significant digits,
    round-half-even).  Exceptions are values of [exn], and a computation
    that may raise returns a [result]. *)

From Stdlib Require Import ZArith QArith Qpower List Sorted String Ascii Bool
  Lia Lqa.
Import ListNotations.

Set Implicit Arguments.
Open Scope Z_scope.

(** ** Exceptions *)

(** The exceptions of Python that occur here, and [Unmodelled].  That one
    is no exception of Python: it is the answer of the model of a library
    function ([ast.literal_eval], [duration.Duration], [note.Note],
    [Decimal]) on an argument outside the cases that the model describes.
    Where a result is [Ok] or raises another exception, the program does
    the same; where it is [Raise Unmodelled], nothing is said about the
    program. *)

Inductive exn : Set :=
| StopIteration
| RuntimeError
| TypeError
| ValueError
| KeyError
| AttributeError
| Unmodelled.

Inductive result (A : Type) : Type :=
| Ok (a : A)
| Raise (e : exn).

Arguments Ok {A} a.
Arguments Raise {A} e.

Definition bind {A B : Type} (r : result A) (k : A -> result B) : result B :=
  match r with
  | Ok a => k a
  | Raise e => Raise e
  end.

Notation "x <- r ;; k" := (bind r (fun x => k))
  (at level 61, r at next level, right associativity).
Notation "' p <- r ;; k" := (bind r (fun x => match x with p => k end))
  (at level 61, p pattern, r at next level, right associativity).

(** ** class Voice *)

Inductive Voice : Set := Soprano | Alto | Tenor | Bass.

Module VoiceOrder.
Definition order (voice : Voice) : Z :=
  match voice with
  | Soprano => 1
  | Alto => 2
  | Tenor => 3
  | Bass => 4
  end.
End VoiceOrder.

Definition Voice_eqb (a b : Voice) : bool :=
  match a, b with
  | Soprano, Soprano | Alto, Alto | Tenor, Tenor | Bass, Bass => true
  | _, _ => false
  end.

Definition Voice_name (voice : Voice) : string :=
  match voice with
  | Soprano => "Soprano"
  | Alto => "Alto"
  | Tenor => "Tenor"
  | Bass => "Bass"
  end.

(** The dictionaries of [gen_states] and [make_music] all have the four
    voices as keys, inserted in the order Soprano, Alto, Tenor, Bass; a
    record of four fields holds their values, and [keys] is the order in
    which Python iterates over them. *)

Record dict (A : Type) : Type := mkdict {
  at_soprano : A;
  at_alto : A;
  at_tenor : A;
  at_bass : A
}.

Definition getitem {A} (d : dict A) (voice : Voice) : A :=
  match voice with
  | Soprano => at_soprano d
  | Alto => at_alto d
  | Tenor => at_tenor d
  | Bass => at_bass d
  end.

Definition setitem {A} (d : dict A) (voice : Voice) (a : A) : dict A :=
  match voice with
  | Soprano => mkdict a (at_alto d) (at_tenor d) (at_bass d)
  | Alto => mkdict (at_soprano d) a (at_tenor d) (at_bass d)
  | Tenor => mkdict (at_soprano d) (at_alto d) a (at_bass d)
  | Bass => mkdict (at_soprano d) (at_alto d) (at_tenor d) a
  end.

Definition keys : list Voice := [Soprano; Alto; Tenor; Bass].

Definition values {A} (d : dict A) : list A := map (getitem d) keys.

Definition dict_all {A} (a : A) : dict A := mkdict a a a a.

(** ** Python numbers *)

(** A finite [float]: the value is [fman * 2^fexp].  The exponent is not
    bounded here: overflow and subnormal numbers are out of the model. *)
Record float : Set := mkfloat { fman : Z; fexp : Z }.

(** Python keeps one representation per value: an odd significand below
    [2^53] (zero has exponent 0). *)
Definition float_ok (f : float) : bool :=
  if fman f =? 0 then fexp f =? 0
  else Z.odd (fman f) && (Z.abs (fman f) <? 2 ^ 53).

(** [float.as_integer_ratio]: numerator and log2 of the denominator. *)
Definition as_integer_ratio (f : float) : Z * Z :=
  if 0 <=? fexp f then (fman f * 2 ^ fexp f, 0) else (fman f, - fexp f).

(** [quarterLength] of a music21 duration: a float, or a Fraction when
    the length is no binary fraction (a triplet is [Fraction(1, 3)]). *)
Inductive qlen : Set :=
| QFloat (f : float)
| QFraction (num : Z) (den : positive).

Record Duration : Set := mkDuration { quarterLength : qlen }.

Definition float_Q (f : float) : Q :=
  inject_Z (fman f) * Qpower 2 (fexp f).

Definition qlen_Q (q : qlen) : Q :=
  match q with
  | QFloat f => float_Q f
  | QFraction n d => n # d
  end.

Fixpoint odd_part (p : positive) : positive * Z :=
  match p with
  | xO p' => let '(m, e) := odd_part p' in (m, e + 1)
  | _ => (p, 0)
  end.

(** The float of value [m * 2^e], with an odd significand. *)
Definition normalize (m e : Z) : float :=
  match m with
  | Z0 => mkfloat 0 0
  | Zpos p => let '(m', s) := odd_part p in mkfloat (Zpos m') (e + s)
  | Zneg p => let '(m', s) := odd_part p in mkfloat (Zneg m') (e + s)
  end.

(** The float nearest to [n / d] for [0 <= n] and [0 < d], ties to the
    even significand: 53 significant bits (the exponent range of the
    machine format is not modelled). *)
Definition round53 (n d : Z) : float :=
  if n =? 0 then mkfloat 0 0
  else
    let scaled e := (n * 2 ^ Z.max 0 (- e), d * 2 ^ Z.max 0 e) in
    let e1 := Z.log2 n - Z.log2 d - 53 in
    let e := if fst (scaled e1) / snd (scaled e1) <? 2 ^ 53 then e1 else e1 + 1 in
    let num := fst (scaled e) in
    let den := snd (scaled e) in
    let q := num / den in
    let r := num mod den in
    let m := if (den <? 2 * r) || ((den =? 2 * r) && Z.odd q) then q + 1 else q in
    normalize m e.

Definition float_neg (f : float) : float := mkfloat (- fman f) (fexp f).

(** The float nearest to a non-negative rational. *)
Definition float_of_Q (q : Q) : float :=
  let r := Qred q in round53 (Qnum r) (Zpos (Qden r)).

(** The rational [D * 10^x]. *)
Definition decimal_Q (D x : Z) : Q := inject_Z D * Qpower 10 x.

(** ** decimal.Decimal *)

(** The value of a Decimal is [dcoef * 10^dexp]. *)
Record Decimal : Set := mkDecimal { dcoef : Z; dexp : Z }.

Definition prec : Z := 28.

Definition Decimal_Q (d : Decimal) : Q :=
  inject_Z (dcoef d) * Qpower 10 (dexp d).

(** Number of decimal digits of a non-negative integer (0 for 0). *)
Fixpoint ndigits_aux (fuel : nat) (c : Z) : Z :=
  match fuel with
  | O => 0
  | S fuel' => if c <=? 0 then 0 else 1 + ndigits_aux fuel' (c / 10)
  end.

Definition ndigits (c : Z) : Z :=
  ndigits_aux (S (Z.to_nat (Z.log2 (Z.abs c)))) (Z.abs c).

(** Round-half-even of [c / 10^sh] for [0 <= c]. *)
Definition round_half_even (c sh : Z) : Z :=
  let q := c / 10 ^ sh in
  let r := c mod 10 ^ sh in
  if (10 ^ sh <? 2 * r) || ((10 ^ sh =? 2 * r) && Z.odd q) then q + 1 else q.

(** [Decimal._fix] under the default context: a coefficient of more than
    [prec] digits is rounded to [prec] digits, half to even. *)
Definition fix_ (d : Decimal) : Decimal :=
  let c := Z.abs (dcoef d) in
  let n := ndigits c in
  if n <=? prec then d
  else
    let sh := n - prec in
    let q := round_half_even c sh in
    if q <? 10 ^ prec
    then mkDecimal (Z.sgn (dcoef d) * q) (dexp d + sh)
    else mkDecimal (Z.sgn (dcoef d) * (q / 10)) (dexp d + sh + 1).

(** [Decimal.__add__]: the exact sum at the smaller exponent, rounded to
    the context precision. *)
Definition dec_add (a b : Decimal) : Decimal :=
  let e := Z.min (dexp a) (dexp b) in
  fix_ (mkDecimal (dcoef a * 10 ^ (dexp a - e) + dcoef b * 10 ^ (dexp b - e)) e).

Definition dec_compare (a b : Decimal) : comparison :=
  let e := Z.min (dexp a) (dexp b) in
  (dcoef a * 10 ^ (dexp a - e)) ?= (dcoef b * 10 ^ (dexp b - e)).

Definition dec_eqb (a b : Decimal) : bool :=
  match dec_compare a b with Eq => true | _ => false end.

Definition dec_ltb (a b : Decimal) : bool :=
  match dec_compare a b with Lt => true | _ => false end.

(** [Decimal(x)] for a float is exact ([Decimal.from_float]); for a
    Fraction it raises TypeError. *)
Definition Decimal_of_float (f : float) : Decimal :=
  let '(n, k) := as_integer_ratio f in
  mkDecimal (n * 5 ^ k) (- k).

Definition Decimal_of_qlen (q : qlen) : result Decimal :=
  match q with
  | QFloat f => Ok (Decimal_of_float f)
  | QFraction _ _ => Raise TypeError
  end.

(** [Decimal(0.)] *)
Definition Decimal_zero : Decimal := mkDecimal 0 0.

(** [min] over a non-empty sequence keeps the first smallest item. *)
Definition py_min (x : Decimal) (xs : list Decimal) : Decimal :=
  fold_left (fun best y => if dec_ltb y best then y else best) xs x.

Definition min_value (counter : dict Decimal) : Decimal :=
  py_min (at_soprano counter)
         [at_alto counter; at_tenor counter; at_bass counter].

(** [[k for k in counter if counter[k] == min_value]] *)
Definition min_voices (counter : dict Decimal) : list Voice :=
  filter (fun k => dec_eqb (getitem counter k) (min_value counter)) keys.

(** ** notes_and_durations *)

(** What [part.recurse(skipSelf=True).notesAndRests] iterates over: notes,
    rests and chords.  A note has [nameWithOctave]; a rest has the name
    "rest"; a chord has neither [name] nor an empty list of notes. *)
Inductive element : Set :=
| ENote (nameWithOctave : string) (duration : Duration)
| ERest (duration : Duration)
| EChord (first : string) (others : list string) (duration : Duration).

Definition element_duration (elem : element) : Duration :=
  match elem with
  | ENote _ d => d
  | ERest d => d
  | EChord _ _ d => d
  end.

Definition Event : Set := (string * Duration)%type.

(** The [try] block: [elem.nameWithOctave if elem.isNote else elem.name]. *)
Definition try_name (elem : element) : result string :=
  match elem with
  | ENote name _ => Ok name
  | ERest _ => Ok "rest"%string
  | EChord _ _ _ => Raise AttributeError
  end.

(** One turn of the [for] loop: what it yields for [elem].  The [except]
    branch rebinds [elem] and [name] and yields nothing; the [yield] is in
    the [else] branch. *)
Definition notes_and_durations_elem (elem : element) : list Event :=
  match try_name elem with
  | Raise _ =>
      let elem' := match elem with EChord first _ _ => first | _ => EmptyString end in
      let name := elem' in
      []
  | Ok name => [(name, element_duration elem)]
  end.

Definition notes_and_durations_part (part : list element) : list Event :=
  flat_map notes_and_durations_elem part.

(** ** gen_states *)

(** A joint state: the tuple that [gen_states] yields.  An entry is [None]
    until the voice has been advanced once. *)
Definition JointState : Set := dict (option (string * qlen)).

(** The local variables of [gen_states]. *)
Record gen_locals : Set := mkgen {
  counter : dict Decimal;
  streams : dict (list Event);
  state : JointState
}.

Definition gen_init (S A T B : list Event) : gen_locals :=
  mkgen (dict_all Decimal_zero) (mkdict S A T B) (dict_all None).

(** The inner [for voice in min_voices] loop.  [next] on an exhausted
    stream raises StopIteration; [Decimal] of a Fraction raises
    TypeError, after [state[voice]] has been assigned. *)
Fixpoint advance (voices : list Voice) (l : gen_locals) : result gen_locals :=
  match voices with
  | [] => Ok l
  | voice :: voices' =>
      match getitem (streams l) voice with
      | [] => Raise StopIteration
      | (elem, dur) :: rest =>
          let streams' := setitem (streams l) voice rest in
          let state' := setitem (state l) voice (Some (elem, quarterLength dur)) in
          d <- Decimal_of_qlen (quarterLength dur) ;;
          advance voices'
            (mkgen (setitem (counter l) voice (dec_add (getitem (counter l) voice) d))
                   streams' state')
      end
  end.

(** The body of [while True] up to the [yield]. *)
Definition gen_body (l : gen_locals) : result gen_locals :=
  advance (min_voices (counter l)) l.

(** A generator run to its end: the locals at every [yield], and the
    exception that ended it. *)
Record generated : Set := mkgenerated {
  yields : list gen_locals;
  raised : exn
}.

(** [fuel] turns of the [while True] loop; [None] when the loop is still
    running after them. *)
Fixpoint gen_loop (fuel : nat) (l : gen_locals) : option generated :=
  match fuel with
  | O => None
  | S fuel' =>
      match gen_body l with
      | Raise e => Some (mkgenerated [] e)
      | Ok l' =>
          match gen_loop fuel' l' with
          | Some g => Some (mkgenerated (l' :: yields g) (raised g))
          | None => None
          end
      end
  end.

Definition remaining (s : dict (list Event)) : nat :=
  (List.length (at_soprano s) + List.length (at_alto s)
   + List.length (at_tenor s) + List.length (at_bass s))%nat.

(** Every turn that yields has consumed an event, so one turn more than
    there are events ends the generator ([gen_states_total]). *)
Definition gen_states (S A T B : list Event) : option generated :=
  let l := gen_init S A T B in
  gen_loop (Datatypes.S (remaining (streams l))) l.

Definition joint_states (g : generated) : list JointState :=
  map state (yields g).

(** ** Python values and their [repr] *)

(** The values that occur in tokens: what a joint state is made of and
    what [ast.literal_eval] can return.  (A Fraction is printed, never
    read: its [repr] is a call, which [literal_eval] refuses.) *)
#[warnings="-register-all"]
Inductive pyval : Set :=
| PNone
| PInt (z : Z)
| PFloat (f : float)
| PFraction (num : Z) (den : positive)
| PStr (s : string)
| PTuple (items : list pyval)
| PList (items : list pyval).

Definition pyval_of_qlen (q : qlen) : pyval :=
  match q with
  | QFloat f => PFloat f
  | QFraction n d => PFraction n d
  end.

Definition pyval_of_entry (e : option (string * qlen)) : pyval :=
  match e with
  | None => PNone
  | Some (elem, q) => PTuple [PStr elem; pyval_of_qlen q]
  end.

(** The 4-tuple yielded by [gen_states]. *)
Definition pyval_of_state (j : JointState) : pyval :=
  PTuple (map pyval_of_entry (values j)).

Local Open Scope string_scope.

Definition digit_char (d : Z) : ascii := ascii_of_nat (48 + Z.to_nat d).

(** The [k] low decimal digits of [n], most significant first. *)
Fixpoint digits_fixed (k : nat) (n : Z) : string :=
  match k with
  | O => ""
  | S k' => digits_fixed k' (n / 10) ++ String (digit_char (n mod 10)) ""
  end.

(** [str] of a non-negative int. *)
Definition digits_of (n : Z) : string :=
  if (n <=? 0)%Z then "0" else digits_fixed (Z.to_nat (ndigits n)) n.

Definition repr_int (z : Z) : string :=
  if (z <? 0)%Z then "-" ++ digits_of (- z) else digits_of z.

Definition float_eqb (a b : float) : bool :=
  (fman a =? fman b)%Z && (fexp a =? fexp b)%Z.

(** [floor (log10 (n / d))] for positive [n] and [d]. *)
Definition log10_floor (n d : Z) : Z :=
  let e0 := (ndigits n - ndigits d)%Z in
  if (n * 10 ^ Z.max 0 (- e0) <? d * 10 ^ Z.max 0 e0)%Z then (e0 - 1)%Z else e0.

(** The decimals of [p] digits on either side of [n / d], the nearer one
    first: the first of them that reads back as [f], as digits and
    exponent. *)
Definition candidate (f : float) (n d p : Z) : option (Z * Z) :=
  let x := (log10_floor n d - p + 1)%Z in
  let num := (n * 10 ^ Z.max 0 (- x))%Z in
  let den := (d * 10 ^ Z.max 0 x)%Z in
  let lo := (num / den)%Z in
  let r := (num mod den)%Z in
  let up := (den <? 2 * r)%Z || ((den =? 2 * r)%Z && Z.odd lo) in
  let near := if up then (lo + 1)%Z else lo in
  let far := if up then lo else (lo + 1)%Z in
  if float_eqb (float_of_Q (decimal_Q near x)) f then Some (near, x)
  else if float_eqb (float_of_Q (decimal_Q far x)) f then Some (far, x)
  else None.

Fixpoint shortest (f : float) (n d p : Z) (count : nat) : option (Z * Z) :=
  match count with
  | O => None
  | S count' =>
      match candidate f n d p with
      | Some r => Some r
      | None => shortest f n d (p + 1) count'
      end
  end.

Fixpoint strip_zeros (fuel : nat) (D x : Z) : Z * Z :=
  match fuel with
  | O => (D, x)
  | S fuel' =>
      if (D mod 10 =? 0)%Z && negb (D =? 0)%Z
      then strip_zeros fuel' (D / 10) (x + 1)
      else (D, x)
  end.

(** The digits that [repr] prints for a positive float, with their decimal
    exponent: the shortest decimal that reads back as the float (17 digits
    always do; the exact value of the float is the fallback). *)
Definition float_digits (f : float) : Z * Z :=
  let n := (if 0 <=? fexp f then fman f * 2 ^ fexp f else fman f)%Z in
  let d := (if 0 <=? fexp f then 1 else 2 ^ (- fexp f))%Z in
  match shortest f n d 1 17 with
  | Some (D, x) => strip_zeros 17 D x
  | None =>
      if (0 <=? fexp f)%Z then ((fman f * 2 ^ fexp f)%Z, 0%Z)
      else ((fman f * 5 ^ (- fexp f))%Z, fexp f)
  end.

(** [D * 10^x] in positional notation: the integer part, a dot, and the
    fraction digits ("0" when there are none). *)
Definition positional (D x : Z) : string :=
  if (0 <=? x)%Z then digits_of (D * 10 ^ x) ++ ".0"
  else digits_of (D / 10 ^ (- x)) ++ "."
       ++ digits_fixed (Z.to_nat (- x)) (D mod 10 ^ (- x)).

(** [D * 10^x] in exponent notation: one digit, the other digits after a
    dot, and an exponent of two digits at least. *)
Definition scientific (D x : Z) : string :=
  let nd := ndigits D in
  let e10 := (nd + x - 1)%Z in
  digits_fixed 1 (D / 10 ^ (nd - 1))
  ++ (if (1 <? nd)%Z
      then "." ++ digits_fixed (Z.to_nat (nd - 1)) (D mod 10 ^ (nd - 1))
      else "")
  ++ "e" ++ (if (e10 <? 0)%Z then "-" else "+")
  ++ (if (Z.abs e10 <? 10)%Z then "0" else "") ++ digits_of (Z.abs e10).

(** [repr] of a float ([float_repr_style] is "short"): the shortest digits
    that read back as the float, in exponent notation when the decimal
    point would fall more than four places before the digits or more than
    sixteen places after their start ([1e-05], [1e+16]), in positional
    notation otherwise ([0.25], [100.0]). *)
Definition repr_float (f : float) : string :=
  if (fman f =? 0)%Z then "0.0"
  else
    let sign := if (fman f <? 0)%Z then "-" else "" in
    let '(D, x) := float_digits (mkfloat (Z.abs (fman f)) (fexp f)) in
    let decpt := (ndigits D + x)%Z in
    sign ++ (if (-4 <? decpt)%Z && (decpt <=? 16)%Z
             then positional D x else scientific D x).

Definition repr_Fraction (n : Z) (d : positive) : string :=
  "Fraction(" ++ repr_int n ++ ", " ++ repr_int (Zpos d) ++ ")".

Fixpoint contains (c : ascii) (s : string) : bool :=
  match s with
  | EmptyString => false
  | String c' s' => Ascii.eqb c c' || contains c s'
  end.

Definition hex_char (d : nat) : ascii :=
  if (d <? 10)%nat then ascii_of_nat (48 + d) else ascii_of_nat (87 + d).

(** Code points below 256 that [str.isprintable] refuses. *)
Definition unprintable (c : ascii) : bool :=
  let n := nat_of_ascii c in
  (n <? 32)%nat || ((127 <=? n)%nat && (n <=? 160)%nat) || (n =? 173)%nat.

Definition quote1 : ascii := "'"%char.
Definition quote2 : ascii := ascii_of_nat 34.
Definition backslash : ascii := ascii_of_nat 92.

Definition escape_char (quote c : ascii) : string :=
  if Ascii.eqb c quote || Ascii.eqb c backslash then String backslash (String c "")
  else if Ascii.eqb c (ascii_of_nat 9) then String backslash "t"
  else if Ascii.eqb c (ascii_of_nat 10) then String backslash "n"
  else if Ascii.eqb c (ascii_of_nat 13) then String backslash "r"
  else if unprintable c
       then String backslash
              (String "x" (String (hex_char (nat_of_ascii c / 16))
                                  (String (hex_char (nat_of_ascii c mod 16)) "")))
       else String c "".

Fixpoint escape (quote : ascii) (s : string) : string :=
  match s with
  | EmptyString => ""
  | String c s' => escape_char quote c ++ escape quote s'
  end.

(** [repr] of a str: single quotes, unless the string has a single quote
    and no double quote. *)
Definition repr_str (s : string) : string :=
  let quote := if contains quote1 s && negb (contains quote2 s)
               then quote2 else quote1 in
  String quote (escape quote s ++ String quote "").

Fixpoint join (sep : string) (l : list string) : string :=
  match l with
  | [] => ""
  | [x] => x
  | x :: l' => x ++ sep ++ join sep l'
  end.

Fixpoint repr (v : pyval) : string :=
  match v with
  | PNone => "None"
  | PInt z => repr_int z
  | PFloat f => repr_float f
  | PFraction n d => repr_Fraction n d
  | PStr s => repr_str s
  | PTuple items =>
      match items with
      | [x] => "(" ++ repr x ++ ",)"
      | _ => "(" ++ join ", " (map repr items) ++ ")"
      end
  | PList items => "[" ++ join ", " (map repr items) ++ "]"
  end.

(** [str(state)], the token of a joint state. *)
Definition str_state (j : JointState) : string := repr (pyval_of_state j).

Local Close Scope string_scope.

(** ** ast.literal_eval *)

(** The expressions read here are a part of what Python reads: [None],
    decimal integers, floats in positional or exponent notation (with an
    optional minus sign), string literals with the escapes that [repr]
    writes, tuples and lists, and the call [Fraction(n, d)] as [repr]
    writes it.  A float literal denotes the float nearest to its decimal
    value.  [literal_eval] parses the whole text first and raises
    ValueError afterwards if the expression holds a call.  Any other text
    (another notation of a number, another escape, a name, a comment, a
    text that is no expression) is [Unmodelled]. *)

Definition is_digit (c : ascii) : bool :=
  let n := nat_of_ascii c in (48 <=? n)%nat && (n <=? 57)%nat.

Definition digit_val (c : ascii) : Z := Z.of_nat (nat_of_ascii c - 48).

Definition is_alpha (c : ascii) : bool :=
  let n := nat_of_ascii c in
  ((65 <=? n)%nat && (n <=? 90)%nat) || ((97 <=? n)%nat && (n <=? 122)%nat)
  || (n =? 95)%nat.

Fixpoint skip_spaces (s : string) : string :=
  match s with
  | String c s' => if Ascii.eqb c " " then skip_spaces s' else s
  | EmptyString => s
  end.

(** Reads a run of digits: its value after [acc], its length after [n],
    and what follows it. *)
Fixpoint read_digits (s : string) (acc : Z) (n : nat) : Z * nat * string :=
  match s with
  | String c s' =>
      if is_digit c then read_digits s' (acc * 10 + digit_val c) (S n)
      else (acc, n, s)
  | EmptyString => (acc, n, s)
  end.

(** The exponent of a float literal, when there is one: [e] or [E], a
    sign, digits. *)
Definition exponent_part (s : string) : option (result (Z * string)) :=
  match s with
  | String c s' =>
      if Ascii.eqb c "e" || Ascii.eqb c "E" then
        let '(negative, s'') :=
          match s' with
          | String "-" t => (true, t)
          | String "+" t => (false, t)
          | _ => (false, s')
          end in
        let '(ex, nx, s3) := read_digits s'' 0 0 in
        if (nx =? 0)%nat then Some (Raise Unmodelled)
        else Some (Ok (if negative then - ex else ex, s3))
      else None
  | EmptyString => None
  end.

(** The digits after the dot, when there is one. *)
Definition fraction_part (s : string) : Z * nat * string * bool :=
  match s with
  | String "." s' => let '(f, nf, s'') := read_digits s' 0 0 in (f, nf, s'', true)
  | _ => (0, 0%nat, s, false)
  end.

(** A number without sign: an int, or a float with a dot, an exponent or
    both. *)
Definition read_number (s : string) : result (pyval * string) :=
  let '(i, ni, s1) := read_digits s 0 0 in
  let '(f, nf, s2, dot) := fraction_part s1 in
  if ((ni =? 0) && (nf =? 0))%nat then Raise Unmodelled
  else
    let mantissa := i * 10 ^ Z.of_nat nf + f in
    match exponent_part s2 with
    | Some (Raise e) => Raise e
    | Some (Ok (ex, s3)) =>
        Ok (PFloat (float_of_Q (decimal_Q mantissa (ex - Z.of_nat nf))), s3)
    | None =>
        if dot
        then Ok (PFloat (float_of_Q (decimal_Q mantissa (- Z.of_nat nf))), s2)
        else
          match s with
          | String "0" _ => if i =? 0 then Ok (PInt i, s2) else Raise Unmodelled
          | _ => Ok (PInt i, s2)
          end
    end.

(** [-x] for a number; the float [-0.0] is not among the floats here. *)
Definition negate (v : pyval) : result pyval :=
  match v with
  | PInt z => Ok (PInt (- z))
  | PFloat f => if fman f =? 0 then Raise Unmodelled else Ok (PFloat (float_neg f))
  | _ => Raise Unmodelled
  end.

Definition hex_val (c : ascii) : option nat :=
  let n := nat_of_ascii c in
  if is_digit c then Some (n - 48)%nat
  else if ((97 <=? n) && (n <=? 102))%nat then Some (n - 87)%nat
  else if ((65 <=? n) && (n <=? 70))%nat then Some (n - 55)%nat
  else None.

(** The body of a string literal after its opening quote.  A character
    that [repr] writes as an escape is not taken as it stands. *)
Fixpoint read_str (quote : ascii) (s : string) : result (string * string) :=
  match s with
  | EmptyString => Raise Unmodelled
  | String c s' =>
      if Ascii.eqb c quote then Ok (EmptyString, s')
      else if Ascii.eqb c backslash then
        match s' with
        | EmptyString => Raise Unmodelled
        | String e s'' =>
            if Ascii.eqb e backslash || Ascii.eqb e quote1 || Ascii.eqb e quote2 then
              '(r, rest) <- read_str quote s'' ;; Ok (String e r, rest)
            else if Ascii.eqb e "t" then
              '(r, rest) <- read_str quote s'' ;; Ok (String (ascii_of_nat 9) r, rest)
            else if Ascii.eqb e "n" then
              '(r, rest) <- read_str quote s'' ;; Ok (String (ascii_of_nat 10) r, rest)
            else if Ascii.eqb e "r" then
              '(r, rest) <- read_str quote s'' ;; Ok (String (ascii_of_nat 13) r, rest)
            else if Ascii.eqb e "x" then
              match s'' with
              | String h1 (String h2 s3) =>
                  match hex_val h1, hex_val h2 with
                  | Some a, Some b =>
                      '(r, rest) <- read_str quote s3 ;;
                      Ok (String (ascii_of_nat (16 * a + b)) r, rest)
                  | _, _ => Raise Unmodelled
                  end
              | _ => Raise Unmodelled
              end
            else Raise Unmodelled
        end
      else if unprintable c then Raise Unmodelled
      else '(r, rest) <- read_str quote s' ;; Ok (String c r, rest)
  end.

Definition starts_None (s : string) : option string :=
  match s with
  | String "N" (String "o" (String "n" (String "e" rest))) =>
      match rest with
      | String c _ => if is_alpha c || is_digit c then None else Some rest
      | EmptyString => Some rest
      end
  | _ => None
  end.

(** The text of a number that may have a minus sign, when it is an int. *)
Definition read_int (s : string) : result (Z * string) :=
  let '(negative, s') :=
    match s with
    | String "-" t => (true, t)
    | _ => (false, s)
    end in
  '(v, rest) <- read_number s' ;;
  match v with
  | PInt z => Ok (if negative then - z else z, rest)
  | _ => Raise Unmodelled
  end.

(** The call [Fraction(n, d)], written as [repr] writes it. *)
Definition starts_Fraction (s : string) : option (result (pyval * string)) :=
  match s with
  | String "F" (String "r" (String "a" (String "c" (String "t" (String "i"
      (String "o" (String "n" (String "(" args)))))))) =>
      Some ('(n, s1) <- read_int args ;;
            match s1 with
            | String "," (String " " s2) =>
                '(d, s3) <- read_int s2 ;;
                match d, s3 with
                | Zpos den, String ")" rest => Ok (PFraction n den, rest)
                | _, _ => Raise Unmodelled
                end
            | _ => Raise Unmodelled
            end)
  | _ => None
  end.

(** An expression ([parse_value]) and the items of a display up to its
    closing bracket ([parse_items], which also tells whether a comma was
    seen: [(x)] is [x] and [(x,)] a tuple). *)
Fixpoint parse_value (fuel : nat) (s : string) : result (pyval * string) :=
  match fuel with
  | O => Raise Unmodelled
  | S fuel' =>
      match skip_spaces s with
      | EmptyString => Raise Unmodelled
      | String c s' =>
          if Ascii.eqb c "(" then
            '(items, comma, rest) <- parse_items fuel' ")" s' ;;
            match items, comma with
            | [x], false => Ok (x, rest)
            | _, _ => Ok (PTuple items, rest)
            end
          else if Ascii.eqb c "[" then
            '(items, _, rest) <- parse_items fuel' "]" s' ;;
            Ok (PList items, rest)
          else if Ascii.eqb c quote1 || Ascii.eqb c quote2 then
            '(str, rest) <- read_str c s' ;; Ok (PStr str, rest)
          else if Ascii.eqb c "-" then
            '(v, rest) <- read_number s' ;;
            v' <- negate v ;; Ok (v', rest)
          else if is_digit c || Ascii.eqb c "." then read_number (String c s')
          else
            match starts_None (String c s') with
            | Some rest => Ok (PNone, rest)
            | None =>
                match starts_Fraction (String c s') with
                | Some r => r
                | None => Raise Unmodelled
                end
            end
      end
  end
with parse_items (fuel : nat) (close : ascii) (s : string)
  : result (list pyval * bool * string) :=
  match fuel with
  | O => Raise Unmodelled
  | S fuel' =>
      match skip_spaces s with
      | EmptyString => Raise Unmodelled
      | String c s' =>
          if Ascii.eqb c close then Ok ([], false, s')
          else
            '(v, rest) <- parse_value fuel' (String c s') ;;
            match skip_spaces rest with
            | EmptyString => Raise Unmodelled
            | String c2 rest' =>
                if Ascii.eqb c2 "," then
                  '(vs, _, rest'') <- parse_items fuel' close rest' ;;
                  Ok (v :: vs, true, rest'')
                else if Ascii.eqb c2 close then Ok ([v], false, rest')
                else Raise Unmodelled
            end
      end
  end.

(** Whether an expression holds a call: a node that [literal_eval]
    refuses. *)
Fixpoint has_call (v : pyval) : bool :=
  match v with
  | PFraction _ _ => true
  | PTuple items | PList items => existsb has_call items
  | _ => false
  end.

(** [make_tuple], that is [ast.literal_eval]: the text is parsed as a
    whole, then evaluated.  (A text that begins with a blank is left out:
    Python takes it or not, by its version.) *)
Definition make_tuple (token : string) : result pyval :=
  match token with
  | String " " _ => Raise Unmodelled
  | _ =>
      '(v, rest) <- parse_value (2 * String.length token + 2) token ;;
      match skip_spaces rest with
      | EmptyString => if has_call v then Raise ValueError else Ok v
      | _ => Raise Unmodelled
      end
  end.

(** ** make_music *)

(** What a [stream.Part] holds: the instrument inserted at its start and
    the notes and rests appended to it. *)
Inductive part_element : Set :=
| Instrument (voice : Voice)
| Rest (duration : Duration)
| Note (pitch : string) (duration : Duration).

Definition Part : Set := list part_element.

(** [a, b, c, d = v]: any sequence of four items unpacks (a str into its
    characters); another length raises ValueError, and what cannot be
    iterated raises TypeError. *)
Fixpoint chars (s : string) : list pyval :=
  match s with
  | EmptyString => []
  | String c s' => PStr (String c EmptyString) :: chars s'
  end.

Definition iterate (v : pyval) : result (list pyval) :=
  match v with
  | PTuple items | PList items => Ok items
  | PStr s => Ok (chars s)
  | PNone | PInt _ | PFloat _ | PFraction _ _ => Raise TypeError
  end.

Definition unpack4 (v : pyval) : result (pyval * pyval * pyval * pyval) :=
  items <- iterate v ;;
  match items with
  | [a; b; c; d] => Ok (a, b, c, d)
  | _ => Raise ValueError
  end.

Definition unpack2 (v : pyval) : result (pyval * pyval) :=
  items <- iterate v ;;
  match items with
  | [a; b] => Ok (a, b)
  | _ => Raise ValueError
  end.

(** [duration.Duration(d)] for a positive number.  music21 keeps a float
    whose denominator is at most 65535, that is a multiple of [2^-15]
    (another float it replaces by a Fraction of such a denominator, which
    is not modelled), and it makes a float of an int. *)
Definition make_Duration (d : pyval) : result Duration :=
  match d with
  | PFloat f =>
      if float_ok f && (0 <? fman f) && (-15 <=? fexp f)
      then Ok (mkDuration (QFloat f))
      else Raise Unmodelled
  | PInt z =>
      if (0 <? z) && (z <? 2 ^ 53)
      then Ok (mkDuration (QFloat (round53 z 1)))
      else Raise Unmodelled
  | _ => Raise Unmodelled
  end.

(** [Decimal(d)] for a number read from a token: exact for a float and
    for an int; [None] raises TypeError. *)
Definition Decimal_of_pyval (d : pyval) : result Decimal :=
  match d with
  | PFloat f => Ok (Decimal_of_float f)
  | PInt z => Ok (mkDecimal z 0)
  | PNone => Raise TypeError
  | _ => Raise Unmodelled
  end.

(** A pitch name as music21 writes it in [nameWithOctave], and reads it
    back unchanged: a step from A to G, up to two sharps or flats, and an
    octave of one digit.  (music21 reads other spellings too, and MIDI
    numbers, and refuses what names no pitch: none of that is modelled.) *)
Definition is_step (c : ascii) : bool :=
  let n := nat_of_ascii c in (65 <=? n)%nat && (n <=? 71)%nat.

Definition pitch_name (s : string) : bool :=
  match s with
  | String step (String o EmptyString) => is_step step && is_digit o
  | String step (String a (String o EmptyString)) =>
      is_step step && (Ascii.eqb a "#" || Ascii.eqb a "-") && is_digit o
  | String step (String a (String a' (String o EmptyString))) =>
      is_step step && (Ascii.eqb a "#" || Ascii.eqb a "-") && Ascii.eqb a a'
      && is_digit o
  | _ => false
  end.

(** [pitch == 'rest'] *)
Definition is_rest (pitch : pyval) : bool :=
  match pitch with
  | PStr s => String.eqb s "rest"
  | _ => false
  end.

(** [note.Rest(...)] or [note.Note(pitch, ...)]: the duration is built
    first; the note of a pitch name keeps the name. *)
Definition make_note (pitch d : pyval) : result part_element :=
  dur <- make_Duration d ;;
  if is_rest pitch then Ok (Rest dur)
  else
    match pitch with
    | PStr name => if pitch_name name then Ok (Note name dur) else Raise Unmodelled
    | _ => Raise Unmodelled
    end.

(** The local variables of [make_music] that the loop changes. *)
Record music_locals : Set := mkmusic {
  m_counter : dict Decimal;
  current_state : dict pyval;
  parts : dict Part
}.

Definition music_init : music_locals :=
  mkmusic (dict_all Decimal_zero) (dict_all PNone)
          (mkdict [Instrument Soprano] [Instrument Alto]
                  [Instrument Tenor] [Instrument Bass]).

(** The inner [for voice in min_voices] loop of [make_music]. *)
Fixpoint append_notes (voices : list Voice) (m : music_locals)
  : result music_locals :=
  match voices with
  | [] => Ok m
  | voice :: voices' =>
      '(pitch, d) <- unpack2 (getitem (current_state m) voice) ;;
      n <- make_note pitch d ;;
      let parts' := setitem (parts m) voice (getitem (parts m) voice ++ [n]) in
      dec <- Decimal_of_pyval d ;;
      append_notes voices'
        (mkmusic (setitem (m_counter m) voice
                          (dec_add (getitem (m_counter m) voice) dec))
                 (current_state m) parts')
  end.

(** The four assignments to [current_state]. *)
Definition assign_state (m : music_locals) (S A T B : pyval) : music_locals :=
  mkmusic (m_counter m) (mkdict S A T B) (parts m).

(** One turn of [for state in chain.walk()], on an evaluated token. *)
Definition music_body_value (m : music_locals) (v : pyval)
  : result music_locals :=
  '(s, a, t, b) <- unpack4 v ;;
  let m' := assign_state m s a t b in
  append_notes (min_voices (m_counter m')) m'.

(** One turn of [for state in chain.walk()]. *)
Definition music_body (m : music_locals) (state : string)
  : result music_locals :=
  v <- make_tuple state ;;
  music_body_value m v.

Fixpoint music_loop (walk : list string) (m : music_locals)
  : result music_locals :=
  match walk with
  | [] => Ok m
  | state :: walk' => m' <- music_body m state ;; music_loop walk' m'
  end.

(** The score: every part inserted at the rank of its voice. *)
Definition Score : Set := list (Z * Part).

Definition make_score (parts : dict Part) : Score :=
  map (fun k => (VoiceOrder.order k, getitem parts k)) keys.

(** [make_music], from the walk of the chain to the score it shows. *)
Definition make_music (walk : list string) : result Score :=
  m <- music_loop walk music_init ;;
  Ok (make_score (parts m)).

(** ** make_model *)

(** A chorale of the corpus: its parts by name, the time signature of
    its first measure and the mode of its analysed key. *)
Record Chorale : Set := mkChorale {
  chorale_parts : list (string * list element);
  time_signature : string;
  key_mode : string
}.

Fixpoint getElementById (parts : list (string * list element)) (id : string)
  : list element :=
  match parts with
  | [] => []
  | (name, part) :: parts' =>
      if String.eqb name id then part else getElementById parts' id
  end.

Definition notes_and_durations (chorale : Chorale) (voice : Voice) : list Event :=
  notes_and_durations_part
    (getElementById (chorale_parts chorale) (Voice_name voice)).

Definition subset_names (xs ys : list string) : bool :=
  forallb (fun x => existsb (String.eqb x) ys) xs.

(** [part_names == Voice.All] *)
Definition has_four_voices (chorale : Chorale) : bool :=
  let part_names := map fst (chorale_parts chorale) in
  let All := map Voice_name keys in
  subset_names part_names All && subset_names All part_names.

Definition bach_chorales (corpus : list Chorale) : list Chorale :=
  filter has_four_voices corpus.

Definition filter_by_key (chorales : list Chorale) (key : string) : list Chorale :=
  filter (fun chorale => String.eqb (key_mode chorale) key) chorales.

Definition filter_by_time_signature (chorales : list Chorale) (signature : string)
  : list Chorale :=
  filter (fun chorale => String.eqb (time_signature chorale) signature) chorales.

(** The chorales that enter the training: [if key] holds for a non-empty
    string. *)
Definition selected (corpus : list Chorale) (key : option string) : list Chorale :=
  let chorales := bach_chorales corpus in
  let chorales := filter_by_time_signature chorales "4/4" in
  match key with
  | Some (String c k) => filter_by_key chorales (String c k)
  | _ => chorales
  end.

(** [[str(state) for state in gen]]: the comprehension ends when the
    generator does.  A StopIteration raised inside the body of a
    generator ends it silently before PEP 479; with [generator_stop]
    (Python 3.7 and later) it becomes a RuntimeError. *)
Definition comprehension (generator_stop : bool) (g : generated)
  : result (list string) :=
  match raised g with
  | StopIteration =>
      if generator_stop then Raise RuntimeError
      else Ok (map str_state (joint_states g))
  | e => Raise e
  end.

(** The [for chorale in chorales] loop; [None] when a generator is not
    run to its end. *)
Fixpoint training_loop (generator_stop : bool) (chorales : list Chorale)
  (training : list (list string)) : option (result (list (list string))) :=
  match chorales with
  | [] => Some (Ok training)
  | chorale :: chorales' =>
      let sop := notes_and_durations chorale Soprano in
      let alt := notes_and_durations chorale Alto in
      let ten := notes_and_durations chorale Tenor in
      let bas := notes_and_durations chorale Bass in
      match gen_states sop alt ten bas with
      | None => None
      | Some g =>
          match comprehension generator_stop g with
          | Raise e => Some (Raise e)
          | Ok states => training_loop generator_stop chorales' (training ++ [states])
          end
      end
  end.

Section Markovify.

(** markovify's [Chain]: its constructor and [to_json]. *)
Variable ChainT : Type.
Variable Chain : list (list string) -> Z -> result ChainT.
Variable to_json : ChainT -> string.

(** [make_model]: the file written, as its name and content. *)
Definition make_model (generator_stop : bool) (corpus : list Chorale)
  (model_file : string) (state_size : Z) (key : option string)
  : option (result (string * string)) :=
  let chorales := selected corpus key in
  match training_loop generator_stop chorales [] with
  | None => None
  | Some (Raise e) => Some (Raise e)
  | Some (Ok training) =>
      Some (chain <- Chain training state_size ;;
            Ok (model_file, to_json chain))
  end.

End Markovify.

(** ** Durations and timelines *)

(** The exact total duration of a stream, in quarter lengths. *)
Fixpoint duration_sum (s : list Event) : Q :=
  match s with
  | [] => 0%Q
  | (_, dur) :: s' => (qlen_Q (quarterLength dur) + duration_sum s')%Q
  end.

(** The notated duration of a part: every note, rest and chord counts. *)
Fixpoint notated_duration (part : list element) : Q :=
  match part with
  | [] => 0%Q
  | elem :: part' =>
      (qlen_Q (quarterLength (element_duration elem)) + notated_duration part')%Q
  end.

(** The events of a rebuilt part, to compare it with a voice stream. *)
Definition part_event (e : part_element) : list Event :=
  match e with
  | Instrument _ => []
  | Rest dur => [("rest"%string, dur)]
  | Note pitch dur => [(pitch, dur)]
  end.

Definition timeline (part : Part) : list Event := flat_map part_event part.

(** The note that [make_music] builds for an event. *)
Definition note_of_event (ev : Event) : part_element :=
  if String.eqb (fst ev) "rest" then Rest (snd ev) else Note (fst ev) (snd ev).

(** ** The example scenario *)

Module Scenario.

Definition one : Duration := mkDuration (QFloat (mkfloat 1 0)).
Definition two : Duration := mkDuration (QFloat (mkfloat 1 1)).

Definition Soprano_stream : list Event := [("C4"%string, one); ("D4"%string, one)].
Definition Alto_stream : list Event := [("E4"%string, two)].
Definition Tenor_stream : list Event := [("G3"%string, two)].
Definition Bass_stream : list Event := [("C3"%string, two)].

Definition D (n : Z) : Decimal := mkDecimal n 0.

Definition first_token : string :=
  "(('C4', 1.0), ('E4', 2.0), ('G3', 2.0), ('C3', 2.0))".
Definition second_token : string :=
  "(('D4', 1.0), ('E4', 2.0), ('G3', 2.0), ('C3', 2.0))".

(** The locals of [make_music] after the first and the second token. *)
Definition after_first : music_locals :=
  mkmusic (mkdict (D 1) (D 2) (D 2) (D 2))
          (mkdict (PTuple [PStr "C4"; PFloat (mkfloat 1 0)])
                  (PTuple [PStr "E4"; PFloat (mkfloat 1 1)])
                  (PTuple [PStr "G3"; PFloat (mkfloat 1 1)])
                  (PTuple [PStr "C3"; PFloat (mkfloat 1 1)]))
          (mkdict [Instrument Soprano; Note "C4" one]
                  [Instrument Alto; Note "E4" two]
                  [Instrument Tenor; Note "G3" two]
                  [Instrument Bass; Note "C3" two]).

Definition after_second : music_locals :=
  mkmusic (mkdict (D 2) (D 2) (D 2) (D 2))
          (mkdict (PTuple [PStr "D4"; PFloat (mkfloat 1 0)])
                  (PTuple [PStr "E4"; PFloat (mkfloat 1 1)])
                  (PTuple [PStr "G3"; PFloat (mkfloat 1 1)])
                  (PTuple [PStr "C3"; PFloat (mkfloat 1 1)]))
          (mkdict [Instrument Soprano; Note "C4" one; Note "D4" one]
                  [Instrument Alto; Note "E4" two]
                  [Instrument Tenor; Note "G3" two]
                  [Instrument Bass; Note "C3" two]).

(** The run of the Synchronizer on the four streams. *)
Definition run : generated :=
  Eval vm_compute in
    match gen_states Soprano_stream Alto_stream Tenor_stream Bass_stream with
    | Some g => g
    | None => mkgenerated [] StopIteration
    end.

(** A part with a chord between two notes. *)
Definition chord_part : list element :=
  [ENote "C4" one; EChord "E4" ["G4"%string] two; ENote "D4" one].

End Scenario.

(** ** Durations that Decimal adds exactly *)

(** The value of a float and of a Decimal in units of [10^-k]: integers
    when the exponents are at least [-k]. *)
Definition float_units (k : Z) (f : float) : Z :=
  fman f * 2 ^ (fexp f + k) * 5 ^ k.

Definition dec_units (k : Z) (d : Decimal) : Z :=
  dcoef d * 10 ^ (dexp d + k).

Definition event_units (k : Z) (ev : Event) : Z :=
  match quarterLength (snd ev) with
  | QFloat f => float_units k f
  | QFraction _ _ => 0
  end.

Fixpoint stream_units (k : Z) (s : list Event) : Z :=
  match s with
  | [] => 0
  | ev :: s' => event_units k ev + stream_units k s'
  end.

(** An event whose duration is a positive float, a multiple of [2^-k]. *)
Definition exact_event (k : Z) (ev : Event) : bool :=
  match quarterLength (snd ev) with
  | QFloat f => float_ok f && (0 <? fman f) && (- k <=? fexp f)
  | QFraction _ _ => false
  end.

Definition exact_stream (k : Z) (s : list Event) : bool :=
  forallb (exact_event k) s.


(** What a voice has consumed of its stream [original] when [rest] is
    left of it. *)
Definition emitted (original rest : list Event) : list Event :=
  firstn (List.length original - List.length rest) original.

(** The locals of [gen_states] on the exact streams [S0]: every counter
    is the exact sum of what its voice has consumed. *)
Definition exact_locals (k : Z) (S0 : dict (list Event)) (l : gen_locals)
  : Prop :=
  forall voice, exists pre,
    getitem S0 voice = pre ++ getitem (streams l) voice /\
    - k <= dexp (getitem (counter l) voice) /\
    dec_units k (getitem (counter l) voice) = stream_units k pre.

(** What may follow a number in a token: no further digit. *)
Definition not_digit_next (rest : string) : Prop :=
  match rest with
  | EmptyString => True
  | String c _ => is_digit c = false
  end.

(** What may follow a literal in a token: the end, or a character that
    extends neither a number nor a name. *)
Definition delimited (rest : string) : Prop :=
  match rest with
  | EmptyString => True
  | String c _ => is_digit c = false /\ is_alpha c = false
  end.

(** The text [x] is a literal of value [v]: it begins with neither a blank
    nor a closing bracket, and [parse_value] reads it, with [n] levels of
    recursion, in front of whatever may follow a literal. *)
Definition reads (x : string) (v : pyval) (n : nat) : Prop :=
  (exists c s, x = String c s /\ Ascii.eqb c " " = false
               /\ Ascii.eqb c ")" = false) /\
  forall fuel rest, delimited rest ->
    parse_value (n + fuel) (x ++ rest) = Ok (v, rest).

(** An event as music21 gives it: a float duration is in the one
    representation that Python keeps per value. *)
Definition valid_event (ev : Event) : bool :=
  match quarterLength (snd ev) with
  | QFloat f => float_ok f
  | QFraction _ _ => true
  end.

Definition valid_stream (s : list Event) : bool := forallb valid_event s.

(** An entry of a joint state that is a Python literal: [None], or a name
    with a float. *)
Definition literal_entry (e : option (string * qlen)) : bool :=
  match e with
  | Some (_, QFloat f) => float_ok f
  | Some (_, QFraction _ _) => false
  | None => true
  end.

Definition literal_state (j : JointState) : bool :=
  forallb literal_entry (values j).

(** The Expander follows the Synchronizer: the same counters, and in
    every part the notes of the events that the voice has consumed from
    its stream [S0]. *)
Definition follows (S0 : dict (list Event)) (l : gen_locals) (m : music_locals)
  : Prop :=
  m_counter m = counter l /\
  forall voice, exists pre,
    getitem S0 voice = pre ++ getitem (streams l) voice /\
    getitem (parts m) voice = Instrument voice :: map note_of_event pre.

(** ** Streams outside exact arithmetic *)

(** A triplet eighth: music21 gives its quarterLength as [Fraction(1, 3)]. *)
Module Triplet.

Definition third : Duration := mkDuration (QFraction 1 3).

Definition stream : list Event := [("C4"%string, third)].

(** A joint state of triplets, and its token.  (The Synchronizer yields
    no such state: [Decimal] raises on the first triplet it takes.) *)
Definition state : JointState := dict_all (Some ("C4"%string, QFraction 1 3)).

Definition token : string :=
  "(('C4', Fraction(1, 3)), ('C4', Fraction(1, 3)), ('C4', Fraction(1, 3)), ('C4', Fraction(1, 3)))".

End Triplet.

(** Floats that music21 keeps and whose sums have more than 28
    significant digits: [2.0 ** 80] and [2.0 ** 44] with [2.0 ** -15]. *)
Module Drift.

Definition huge : Duration := mkDuration (QFloat (mkfloat 1 80)).
Definition short : Duration := mkDuration (QFloat (mkfloat 1 (-15))).

Definition Soprano_stream : list Event := [("C4"%string, huge); ("D4"%string, short)].
Definition other_stream : list Event := [("E4"%string, short); ("F4"%string, huge)].


End Drift.

(** Floats whose sum has more than 28 significant digits: [1.0] and
    [2.0 ** -100]. *)
Module Rounding.

Definition one : Duration := mkDuration (QFloat (mkfloat 1 0)).
Definition tiny : Duration := mkDuration (QFloat (mkfloat 1 (-100))).

Definition Soprano_stream : list Event := [("C4"%string, one); ("D4"%string, tiny)].
Definition other_stream : list Event := [("E4"%string, tiny); ("F4"%string, one)].

Definition tiny_stream : list Event := [("C4"%string, tiny)].

End Rounding.

(** ** A small corpus *)

Module Corpus.

Definition three : Duration := mkDuration (QFloat (mkfloat 3 0)).
Definition four : Duration := mkDuration (QFloat (mkfloat 1 2)).

(** A chorale whose Alto is one beat short: Soprano, Tenor and Bass hold
    a note of 4 beats, Alto a note of 3 beats. *)
Definition unequal : Chorale :=
  mkChorale [("Soprano"%string, [ENote "C5" four]);
             ("Alto"%string, [ENote "E4" three]);
             ("Tenor"%string, [ENote "G3" four]);
             ("Bass"%string, [ENote "C3" four])]
            "4/4" "major".

(** The chorale of the example scenario. *)
Definition equal : Chorale :=
  mkChorale [("Soprano"%string, [ENote "C4" Scenario.one; ENote "D4" Scenario.one]);
             ("Alto"%string, [ENote "E4" Scenario.two]);
             ("Tenor"%string, [ENote "G3" Scenario.two]);
             ("Bass"%string, [ENote "C3" Scenario.two])]
            "4/4" "major".

(** A chorale in 3/4, which the time-signature filter refuses. *)
Definition waltz : Chorale :=
  mkChorale (chorale_parts equal) "3/4" "major".

Definition unequal_token : string :=
  "(('C5', 4.0), ('E4', 3.0), ('G3', 4.0), ('C3', 4.0))".

(** The run of the Synchronizer on the unequal chorale: one yield, then
    StopIteration on the exhausted Alto. *)
Definition unequal_run : generated :=
  Eval vm_compute in
    match gen_states (notes_and_durations unequal Soprano)
                     (notes_and_durations unequal Alto)
                     (notes_and_durations unequal Tenor)
                     (notes_and_durations unequal Bass) with
    | Some g => g
    | None => mkgenerated [] StopIteration
    end.

(** The training list of the scenario chorale alone. *)
Definition equal_training : list (list string) :=
  [[Scenario.first_token; Scenario.second_token]].

(** A stand-in for markovify's [Chain] in the examples: it keeps the
    training sequences, and its JSON form lists them line by line.  As
    markovify's, it raises KeyError when there is no sequence at all (the
    model it builds is empty, and the begin state is looked up in it). *)
Definition Model : Set := list (list string).

Definition Chain (training : list (list string)) (state_size : Z)
  : result Model :=
  match training with
  | [] => Raise KeyError
  | _ => Ok training
  end.

Definition to_json (chain : Model) : string :=
  join (String (ascii_of_nat 10) "") (map (join " ") chain).

(** A token that is populated for Soprano only. *)
Definition partial_token : string := "(('D4', 1.0), None, None, None)".

End Corpus.

(** ** The properties as the specification states them *)

Definition positive_stream (s : list Event) : Prop :=
  Forall (fun ev => (0 < qlen_Q (quarterLength (snd ev)))%Q) s.

Definition equal_totals (S A T B : list Event) : Prop :=
  (duration_sum S == duration_sum A)%Q /\
  (duration_sum S == duration_sum T)%Q /\
  (duration_sum S == duration_sum B)%Q.

(** The Expander, fed the tokens of the states that the Synchronizer
    yields, rebuilds the four streams. *)
Definition rebuilt (S A T B : list Event) : Prop :=
  exists g score,
    gen_states S A T B = Some g /\
    make_music (map str_state (joint_states g)) = Ok score /\
    map (fun p => timeline (snd p)) score = [S; A; T; B].

(** After the pass of the Synchronizer, the durations emitted for every
    voice add up to the total duration of the piece. *)
Definition all_emitted (S A T B : list Event) : Prop :=
  exists g,
    gen_states S A T B = Some g /\
    forall voice,
      (duration_sum
         (emitted (getitem (mkdict S A T B) voice)
                  (getitem (streams (last (yields g) (gen_init S A T B))) voice))
       == duration_sum S)%Q.


(** The training step drops the piece [bad] and goes on with [good]: the
    training list is that of [good] alone. *)
Definition dropped_and_continued (generator_stop : bool) (bad good : Chorale)
  (expected : list (list string)) : Prop :=
  training_loop generator_stop [bad; good] [] = Some (Ok expected).

(** A token that carries a whole joint state: four entries, each a name
    with a number. *)
Definition well_formed_entry (v : pyval) : bool :=
  match v with
  | PTuple [PStr _; PFloat _] | PTuple [PStr _; PInt _] => true
  | _ => false
  end.

Definition well_formed_token (token : string) : bool :=
  match make_tuple token with
  | Ok (PTuple [a; b; c; d]) =>
      well_formed_entry a && well_formed_entry b
      && well_formed_entry c && well_formed_entry d
  | _ => false
  end.

(** Two turns of the loop of [make_music] that end alike: with the same
    counters and parts, or by the same exception. *)
Definition same_music (r1 r2 : result music_locals) : Prop :=
  match r1, r2 with
  | Ok m1, Ok m2 => m_counter m1 = m_counter m2 /\ parts m1 = parts m2
  | Raise e1, Raise e2 => e1 = e2
  | _, _ => False
  end.

(** ** class Voice, by name *)

(** [Voice.All] and the dict of [Voice.order] as the class has them, keyed
    by the names of the voices.  [keys[voice]] raises KeyError for a key
    that the dict does not hold. *)
Module VoiceClass.

Definition All : list string := ["Soprano"; "Alto"; "Tenor"; "Bass"]%string.

Fixpoint lookup (d : list (string * Z)) (key : string) : result Z :=
  match d with
  | [] => Raise KeyError
  | (k, v) :: d' => if String.eqb k key then Ok v else lookup d' key
  end.

Definition order (voice : string) : result Z :=
  let keys := [("Soprano", 1); ("Alto", 2); ("Tenor", 3); ("Bass", 4)]%string in
  lookup keys voice.

End VoiceClass.

(** ** Streams and scores, counted *)

Definition is_chord (elem : element) : bool :=
  match elem with
  | EChord _ _ _ => true
  | _ => false
  end.

(** An event whose [quarterLength] is a float, so that [Decimal] takes
    it. *)
Definition float_event (ev : Event) : bool :=
  match quarterLength (snd ev) with
  | QFloat _ => true
  | QFraction _ _ => false
  end.

Definition float_stream (s : list Event) : bool := forallb float_event s.

Definition float_chorale (chorale : Chorale) : bool :=
  forallb (fun voice => float_stream (notes_and_durations chorale voice)) keys.

(** An entry of a joint state whose duration is a Fraction. *)
Definition fraction_entry (e : option (string * qlen)) : bool :=
  match e with
  | Some (_, QFraction _ _) => true
  | _ => false
  end.

(** The entry of a joint state for an event. *)
Definition entry_of_event (ev : Event) : option (string * qlen) :=
  Some (fst ev, quarterLength (snd ev)).

(** [[str(state) for state in gen_states(sop, alt, ten, bas)]] for the
    four voices of a chorale, when the comprehension runs to its end. *)
Definition chorale_tokens (chorale : Chorale) : list string :=
  match gen_states (notes_and_durations chorale Soprano)
                   (notes_and_durations chorale Alto)
                   (notes_and_durations chorale Tenor)
                   (notes_and_durations chorale Bass) with
  | Some g => map str_state (joint_states g)
  | None => []
  end.

Definition is_instrument (e : part_element) : bool :=
  match e with
  | Instrument _ => true
  | _ => false
  end.

(** The notes and rests of the four parts together. *)
Definition notes_count (p : dict Part) : nat :=
  fold_right (fun voice n =>
                (List.length (filter (fun e => negb (is_instrument e))
                                     (getitem p voice)) + n)%nat)
             0%nat keys.

(** A part as [make_music] builds it for a voice: the instrument of the
    voice, then notes and rests. *)
Definition part_of_voice (voice : Voice) (part : Part) : Prop :=
  exists notes,
    part = Instrument voice :: notes /\
    forallb (fun e => negb (is_instrument e)) notes = true.

(** An event as music21 gives it and takes it back: the name is that of a
    rest or a pitch name; the duration is a positive float that music21
    keeps (a multiple of [2^-15], in the one representation that Python
    has for it), or a Fraction. *)
Definition music21_event (ev : Event) : bool :=
  (String.eqb (fst ev) "rest" || pitch_name (fst ev)) &&
  match quarterLength (snd ev) with
  | QFloat f => float_ok f && (0 <? fman f) && (-15 <=? fexp f)
  | QFraction _ _ => true
  end.

Definition music21_stream (s : list Event) : bool := forallb music21_event s.

(** The events whose names music21 takes back. *)
Definition named_event (ev : Event) : bool :=
  String.eqb (fst ev) "rest" || pitch_name (fst ev).

Definition named_stream (s : list Event) : bool := forallb named_event s.

(** ** The command line *)

(** What a run of the script comes to: one of the two commands, called
    with its arguments, or the way the script ends without calling one:
    [sys.exit(code)], an IndexError, or another exception. *)
Inductive invocation : Set :=
| Run_make_model (model_file : string) (state_size : Z) (key : option string)
| Run_make_music (model_file : string)
| SystemExit (code : Z)
| IndexError
| Uncaught (e : exn).

Section CommandLine.

(** The builtin [int], on a str. *)
Variable int : string -> result Z.

(** The block under [if __name__ == '__main__'], on [sys.argv]. *)
Definition main (argv : list string) : invocation :=
  match tl argv with
  | cmd :: file_name :: args =>
      if String.eqb cmd "make_model" then
        match nth_error args 0 with
        | None => IndexError
        | Some state_size =>
            let key := if (2 <=? List.length args)%nat
                       then nth_error args 1 else None in
            match int state_size with
            | Ok n => Run_make_model file_name n key
            | Raise e => Uncaught e
            end
        end
      else if String.eqb cmd "make_music" then Run_make_music file_name
      else SystemExit 1
  | _ => Uncaught ValueError
  end.

End CommandLine.

(** * Properties *)

Unset Implicit Arguments.

(** ** The example scenario (C5) *)

(** C5.  On Soprano = [("C4",1),("D4",1)], Alto = [("E4",2)],
    Tenor = [("G3",2)], Bass = [("C3",2)] the Synchronizer yields exactly
    two joint states and then ends: the first holds the first event of
    every voice, with counters 1, 2, 2, 2; Soprano alone is behind; the
    second replaces the Soprano entry only, with counters 2, 2, 2, 2.
    [make_music] on the two tokens rebuilds the four input lists. *)
Theorem example_scenario :
  exists l1 l2 score,
    gen_states Scenario.Soprano_stream Scenario.Alto_stream
               Scenario.Tenor_stream Scenario.Bass_stream
    = Some (mkgenerated [l1; l2] StopIteration)
    /\ state l1 = mkdict (Some ("C4"%string, quarterLength Scenario.one))
                         (Some ("E4"%string, quarterLength Scenario.two))
                         (Some ("G3"%string, quarterLength Scenario.two))
                         (Some ("C3"%string, quarterLength Scenario.two))
    /\ counter l1 = mkdict (Scenario.D 1) (Scenario.D 2) (Scenario.D 2) (Scenario.D 2)
    /\ min_voices (counter l1) = [Soprano]
    /\ state l2 = mkdict (Some ("D4"%string, quarterLength Scenario.one))
                         (Some ("E4"%string, quarterLength Scenario.two))
                         (Some ("G3"%string, quarterLength Scenario.two))
                         (Some ("C3"%string, quarterLength Scenario.two))
    /\ counter l2 = mkdict (Scenario.D 2) (Scenario.D 2) (Scenario.D 2) (Scenario.D 2)
    /\ make_music (map str_state [state l1; state l2]) = Ok score
    /\ map (fun p => timeline (snd p)) score
       = [Scenario.Soprano_stream; Scenario.Alto_stream;
          Scenario.Tenor_stream; Scenario.Bass_stream].
Proof.
  do 3 eexists.
  split; [ vm_compute; reflexivity | ].
  repeat match goal with |- _ /\ _ => split end; vm_compute; reflexivity.
Qed.

(** ** Dictionaries *)

Lemma getitem_setitem_same (A : Type) (d : dict A) (voice : Voice) (a : A) :
  getitem (setitem d voice a) voice = a.
Proof. destruct voice; reflexivity. Qed.

Lemma getitem_setitem_other (A : Type) (d : dict A) (v voice : Voice) (a : A) :
  v <> voice -> getitem (setitem d v a) voice = getitem d voice.
Proof. destruct v, voice; intros H; try reflexivity; now elim H. Qed.

Lemma Voice_eq_dec (a b : Voice) : {a = b} + {a <> b}.
Proof. decide equality. Defined.

Lemma dict_ext (A : Type) (d d' : dict A) :
  (forall voice, getitem d voice = getitem d' voice) -> d = d'.
Proof.
  intros H. destruct d, d'.
  pose proof (H Soprano). pose proof (H Alto).
  pose proof (H Tenor). pose proof (H Bass).
  simpl in *. congruence.
Qed.

Lemma keys_NoDup : NoDup keys.
Proof.
  unfold keys. repeat constructor; simpl; intuition discriminate.
Qed.

Lemma in_keys (voice : Voice) : In voice keys.
Proof. destruct voice; simpl; auto. Qed.

Lemma min_voices_NoDup (c : dict Decimal) : NoDup (min_voices c).
Proof. apply NoDup_filter, keys_NoDup. Qed.

Lemma in_min_voices (c : dict Decimal) (voice : Voice) :
  In voice (min_voices c) <-> dec_eqb (getitem c voice) (min_value c) = true.
Proof.
  unfold min_voices. rewrite filter_In. intuition auto using in_keys.
Qed.

(** ** The Expander leaves the voices that are ahead alone (C6) *)

Lemma bind_Ok (A B : Type) (r : result A) (k : A -> result B) (b : B) :
  bind r k = Ok b -> exists a, r = Ok a /\ k a = Ok b.
Proof. destruct r; simpl; intros H; [eauto | discriminate]. Qed.

Lemma append_notes_frame (voices : list Voice) :
  forall m m', append_notes voices m = Ok m' ->
    current_state m' = current_state m /\
    forall voice, ~ In voice voices ->
      getitem (parts m') voice = getitem (parts m) voice /\
      getitem (m_counter m') voice = getitem (m_counter m) voice.
Proof.
  induction voices as [|v voices IH]; simpl; intros m m' H.
  - injection H as <-. auto.
  - apply bind_Ok in H as [[pitch d] [_ H]].
    apply bind_Ok in H as [n [_ H]].
    apply bind_Ok in H as [dec [_ H]].
    apply IH in H as [Hcs H]. simpl in *. split; [exact Hcs|].
    intros voice Hn.
    destruct (H voice) as [Hp Hc]; [tauto|].
    rewrite Hp, Hc, !getitem_setitem_other by tauto. auto.
Qed.

Lemma append_notes_appends (voices : list Voice) :
  NoDup voices ->
  forall m m', append_notes voices m = Ok m' ->
    forall voice, In voice voices ->
      exists pitch d n dec,
        unpack2 (getitem (current_state m) voice) = Ok (pitch, d) /\
        make_note pitch d = Ok n /\
        Decimal_of_pyval d = Ok dec /\
        getitem (parts m') voice = getitem (parts m) voice ++ [n] /\
        getitem (m_counter m') voice = dec_add (getitem (m_counter m) voice) dec.
Proof.
  induction 1 as [|v voices Hv Hnd IH]; simpl; intros m m' H voice Hin; [tauto|].
  apply bind_Ok in H as [[pitch d] [Hu H]].
  apply bind_Ok in H as [n [Hn H]].
  apply bind_Ok in H as [dec [Hd H]].
  destruct (Voice_eq_dec v voice) as [->|Hne].
  - apply append_notes_frame in H as [_ H].
    destruct (H voice Hv) as [Hp Hc]. simpl in *.
    exists pitch, d, n, dec.
    rewrite Hp, Hc, !getitem_setitem_same. auto.
  - destruct Hin as [Hin|Hin]; [congruence|].
    destruct (IH _ _ H voice Hin) as (p' & d' & n' & dec' & H1 & H2 & H3 & H4 & H5).
    simpl in *. exists p', d', n', dec'.
    rewrite H4, H5, !getitem_setitem_other by assumption. auto.
Qed.

(** C6.  Held-over values are not re-emitted.  When a turn of the loop of
    [make_music] goes through, a voice whose counter equals the minimum
    gets one element appended to its part, and every other voice keeps
    its part and its counter as they were, whatever entry the token
    carries for it. *)
Theorem held_over_not_reemitted (m m' : music_locals) (state : string) :
  music_body m state = Ok m' ->
  forall voice,
    if dec_eqb (getitem (m_counter m) voice) (min_value (m_counter m))
    then exists n, getitem (parts m') voice = getitem (parts m) voice ++ [n]
    else getitem (parts m') voice = getitem (parts m) voice /\
         getitem (m_counter m') voice = getitem (m_counter m) voice.
Proof.
  unfold music_body, music_body_value. intros H voice.
  apply bind_Ok in H as [v [_ H]].
  apply bind_Ok in H as [[[[s a] t] b] [_ H]].
  simpl in H.
  destruct (dec_eqb _ _) eqn:E.
  - apply in_min_voices in E.
    destruct (append_notes_appends _ (min_voices_NoDup _) _ _ H voice E)
      as (p & d & n & dec & _ & _ & _ & Hp & _).
    exists n. exact Hp.
  - apply append_notes_frame in H as [_ H].
    apply (H voice). rewrite in_min_voices. simpl. congruence.
Qed.

Lemma held_over_witness :
  music_body Scenario.after_first Scenario.second_token = Ok Scenario.after_second
  /\ getitem (parts Scenario.after_second) Alto
     = getitem (parts Scenario.after_first) Alto
  /\ getitem (m_counter Scenario.after_second) Alto
     = getitem (m_counter Scenario.after_first) Alto.
Proof.
  assert (H : music_body Scenario.after_first Scenario.second_token
              = Ok Scenario.after_second) by (vm_compute; reflexivity).
  split; [exact H|].
  exact (held_over_not_reemitted Scenario.after_first Scenario.after_second
           Scenario.second_token H Alto).
Defined.

(** ** Chords are dropped from a voice stream (C10) *)

Lemma notes_and_durations_le (part : list element) :
  (forall elem, In elem part ->
     (0 < qlen_Q (quarterLength (element_duration elem)))%Q) ->
  (duration_sum (notes_and_durations_part part) <= notated_duration part)%Q.
Proof.
  unfold notes_and_durations_part.
  induction part as [|elem part IH]; simpl; intros Hpos.
  - apply Qle_refl.
  - assert (H0 := Hpos elem (or_introl eq_refl)).
    assert (IH' := IH (fun e He => Hpos e (or_intror He))).
    destruct elem; simpl in *; lra.
Qed.

(** C10.  A chord raises AttributeError in the [try] block, and the
    [except] branch yields nothing: the element is dropped.  So, in a part
    whose durations are positive, a chord makes the total duration of the
    stream smaller than the notated duration of the part. *)
Theorem chords_are_dropped :
  (forall first others dur,
     try_name (EChord first others dur) = Raise AttributeError /\
     notes_and_durations_elem (EChord first others dur) = []) /\
  (forall part first others dur,
     (forall elem, In elem part ->
        (0 < qlen_Q (quarterLength (element_duration elem)))%Q) ->
     In (EChord first others dur) part ->
     (duration_sum (notes_and_durations_part part) < notated_duration part)%Q).
Proof.
  split; [intros; split; reflexivity|].
  pose proof notes_and_durations_le as Hle0.
  unfold notes_and_durations_part in *.
  induction part as [|elem part IH]; simpl; intros first others dur Hpos Hin; [tauto|].
  assert (H0 := Hpos elem (or_introl eq_refl)).
  assert (Hle := Hle0 part (fun e He => Hpos e (or_intror He))).
  destruct Hin as [->|Hin].
  - simpl in *. lra.
  - assert (IH' := IH first others dur (fun e He => Hpos e (or_intror He)) Hin).
    destruct elem; simpl in *; lra.
Qed.

Lemma chords_are_dropped_witness :
  notes_and_durations_part Scenario.chord_part
  = [("C4"%string, Scenario.one); ("D4"%string, Scenario.one)]
  /\ (duration_sum (notes_and_durations_part Scenario.chord_part)
      < notated_duration Scenario.chord_part)%Q.
Proof.
  split; [reflexivity|].
  apply (proj2 chords_are_dropped Scenario.chord_part "E4"%string
               ["G4"%string] Scenario.two).
  - intros elem [<-|[<-|[<-|[]]]]; reflexivity.
  - simpl; auto.
Defined.


(** ** Decimal arithmetic on values of few digits *)

Lemma ndigits_aux_le (fuel : nat) :
  forall c n, 0 <= n -> c < 10 ^ n -> ndigits_aux fuel c <= n.
Proof.
  induction fuel as [|fuel IH]; cbn [ndigits_aux]; intros c n Hn Hc; [lia|].
  destruct (Z.leb_spec c 0); [lia|].
  assert (n <> 0) by (intros ->; simpl in Hc; lia).
  assert (H10 : 10 ^ n = 10 * 10 ^ (n - 1)).
  { rewrite <- Z.pow_succ_r by lia. f_equal. lia. }
  assert (c / 10 < 10 ^ (n - 1)).
  { apply Z.div_lt_upper_bound; lia. }
  specialize (IH (c / 10) (n - 1)). lia.
Qed.

Lemma fix_exact (d : Decimal) : Z.abs (dcoef d) < 10 ^ prec -> fix_ d = d.
Proof.
  intros H. unfold fix_.
  assert (ndigits (Z.abs (dcoef d)) <= prec).
  { unfold ndigits. apply ndigits_aux_le; [unfold prec; lia|].
    rewrite Z.abs_idemp. exact H. }
  destruct (Z.leb_spec (ndigits (Z.abs (dcoef d))) prec); [reflexivity|lia].
Qed.

Lemma pow10_pos (n : Z) : 0 <= n -> 0 < 10 ^ n.
Proof. intros. apply Z.pow_pos_nonneg; lia. Qed.

Lemma align_units (k c e e0 : Z) :
  - k <= e0 -> e0 <= e -> c * 10 ^ (e - e0) * 10 ^ (e0 + k) = c * 10 ^ (e + k).
Proof.
  intros. rewrite <- Z.mul_assoc, <- Z.pow_add_r by lia. do 2 f_equal. lia.
Qed.

Lemma dec_add_units (k : Z) (a b : Decimal) :
  - k <= dexp a -> - k <= dexp b ->
  Z.abs (dec_units k a + dec_units k b) < 10 ^ prec ->
  dexp (dec_add a b) = Z.min (dexp a) (dexp b) /\
  dec_units k (dec_add a b) = dec_units k a + dec_units k b.
Proof.
  intros Ha Hb Hlt. unfold dec_add.
  set (e := Z.min (dexp a) (dexp b)).
  set (c := dcoef a * 10 ^ (dexp a - e) + dcoef b * 10 ^ (dexp b - e)).
  assert (He : - k <= e) by (unfold e; lia).
  assert (Hc : c * 10 ^ (e + k) = dec_units k a + dec_units k b).
  { unfold c, dec_units. rewrite Z.mul_add_distr_r.
    rewrite !align_units by (unfold e; lia). reflexivity. }
  assert (Hp := pow10_pos (e + k) ltac:(lia)).
  rewrite fix_exact.
  - simpl. split; [reflexivity|]. unfold dec_units at 1. simpl. exact Hc.
  - simpl. rewrite <- Hc, Z.abs_mul, (Z.abs_eq (10 ^ (e + k))) in Hlt by lia.
    pose proof (Z.abs_nonneg c).
    apply Z.le_lt_trans with (Z.abs c * 10 ^ (e + k)); [nia|exact Hlt].
Qed.

Lemma dec_compare_units (k : Z) (a b : Decimal) :
  - k <= dexp a -> - k <= dexp b ->
  dec_compare a b = (dec_units k a ?= dec_units k b).
Proof.
  intros Ha Hb. unfold dec_compare, dec_units.
  set (e := Z.min (dexp a) (dexp b)).
  assert (Hp := pow10_pos (e + k) ltac:(unfold e; lia)).
  rewrite <- (align_units k (dcoef a) _ e) by (unfold e; lia).
  rewrite <- (align_units k (dcoef b) _ e) by (unfold e; lia).
  generalize (dcoef a * 10 ^ (dexp a - e)) (dcoef b * 10 ^ (dexp b - e)) (10 ^ (e + k)) Hp.
  intros x y p Hpos.
  destruct (Z.compare_spec x y); destruct (Z.compare_spec (x * p) (y * p));
    try reflexivity; nia.
Qed.

Lemma pow10_split (n : Z) : 0 <= n -> 10 ^ n = 2 ^ n * 5 ^ n.
Proof. intros. rewrite <- Z.pow_mul_l. reflexivity. Qed.

Lemma Decimal_of_float_units (k : Z) (f : float) :
  0 <= k -> - k <= fexp f ->
  let d := Decimal_of_float f in
  - k <= dexp d /\ dexp d <= 0 /\ dec_units k d = float_units k f.
Proof.
  intros Hk He. unfold Decimal_of_float, as_integer_ratio, dec_units, float_units.
  destruct (Z.leb_spec 0 (fexp f)); simpl.
  - split; [lia|]. split; [lia|].
    rewrite Z.mul_1_r, Z.pow_add_r, pow10_split by lia. ring.
  - split; [lia|]. split; [lia|].
    replace (- - fexp f + k) with (k + fexp f) by lia.
    replace (5 ^ k) with (5 ^ (- fexp f) * 5 ^ (k + fexp f)).
    + rewrite pow10_split by lia. replace (fexp f + k) with (k + fexp f) by lia. ring.
    + rewrite <- Z.pow_add_r by lia. f_equal. lia.
Qed.

(** ** Units and exact values *)

Lemma Qpower_units (a e k : Z) :
  a <> 0 -> 0 <= e + k -> 0 <= k ->
  (Qpower (inject_Z a) e * inject_Z (a ^ k) == inject_Z (a ^ (e + k)))%Q.
Proof.
  intros Ha Hek Hk.
  rewrite !Zpower_Qpower by assumption.
  rewrite Qpower_plus; [reflexivity|].
  intros H. apply Ha. unfold Qeq in H. simpl in H. lia.
Qed.

Lemma float_Q_units (k : Z) (f : float) :
  0 <= k -> - k <= fexp f ->
  (float_Q f * inject_Z (10 ^ k) == inject_Z (float_units k f))%Q.
Proof.
  intros Hk He. unfold float_Q, float_units.
  rewrite pow10_split, !inject_Z_mult by assumption.
  rewrite <- (Qpower_units 2 (fexp f) k) by lia.
  change (inject_Z 2) with 2%Q. ring.
Qed.

Lemma Decimal_Q_units (k : Z) (d : Decimal) :
  0 <= k -> - k <= dexp d ->
  (Decimal_Q d * inject_Z (10 ^ k) == inject_Z (dec_units k d))%Q.
Proof.
  intros Hk He. unfold Decimal_Q, dec_units.
  rewrite inject_Z_mult.
  rewrite <- (Qpower_units 10 (dexp d) k) by lia.
  change (inject_Z 10) with 10%Q. ring.
Qed.

Lemma exact_event_float (k : Z) (ev : Event) :
  exact_event k ev = true ->
  exists f, quarterLength (snd ev) = QFloat f /\
            float_ok f = true /\ 0 < fman f /\ - k <= fexp f.
Proof.
  unfold exact_event. destruct (quarterLength (snd ev)) as [f|]; [|discriminate].
  rewrite !andb_true_iff, Z.ltb_lt, Z.leb_le. intros [[H1 H2] H3]. eauto.
Qed.

Lemma duration_sum_units (k : Z) (s : list Event) :
  0 <= k -> exact_stream k s = true ->
  (duration_sum s * inject_Z (10 ^ k) == inject_Z (stream_units k s))%Q.
Proof.
  intros Hk. induction s as [|[name dur] s IH]; simpl; intros H.
  - ring.
  - apply andb_true_iff in H as [Hev Hs].
    destruct (exact_event_float _ _ Hev) as (f & Hq & _ & _ & He). simpl in Hq.
    unfold event_units. simpl. rewrite Hq. simpl.
    rewrite inject_Z_plus, <- (float_Q_units k f Hk He), <- (IH Hs). ring.
Qed.

Lemma event_units_pos (k : Z) (ev : Event) :
  0 <= k -> exact_event k ev = true -> 0 < event_units k ev.
Proof.
  intros Hk H. destruct (exact_event_float _ _ H) as (f & Hq & _ & Hm & He).
  unfold event_units. rewrite Hq. unfold float_units.
  assert (0 < 2 ^ (fexp f + k)) by (apply Z.pow_pos_nonneg; lia).
  assert (0 < 5 ^ k) by (apply Z.pow_pos_nonneg; lia).
  nia.
Qed.

Lemma stream_units_nonneg (k : Z) (s : list Event) :
  0 <= k -> exact_stream k s = true -> 0 <= stream_units k s.
Proof.
  intros Hk. induction s as [|ev s IH]; simpl; intros H; [lia|].
  apply andb_true_iff in H as [Hev Hs].
  pose proof (event_units_pos k ev Hk Hev). specialize (IH Hs). lia.
Qed.

Lemma stream_units_zero (k : Z) (s : list Event) :
  0 <= k -> exact_stream k s = true -> stream_units k s = 0 -> s = [].
Proof.
  intros Hk. destruct s as [|ev s]; simpl; intros H H0; [reflexivity|].
  apply andb_true_iff in H as [Hev Hs].
  pose proof (event_units_pos k ev Hk Hev).
  pose proof (stream_units_nonneg k s Hk Hs). lia.
Qed.


(** ** The Synchronizer *)

Lemma dec_eqb_refl (d : Decimal) : dec_eqb d d = true.
Proof. unfold dec_eqb, dec_compare. now rewrite Z.compare_refl. Qed.

Lemma min_value_in (c : dict Decimal) : exists voice, min_value c = getitem c voice.
Proof.
  unfold min_value, py_min. simpl.
  destruct (dec_ltb (at_alto c) (at_soprano c));
    destruct (dec_ltb (at_tenor c) _);
    destruct (dec_ltb (at_bass c) _);
    try (now exists Soprano); try (now exists Alto);
    try (now exists Tenor); now exists Bass.
Qed.

Lemma min_voices_nonempty (c : dict Decimal) : min_voices c <> [].
Proof.
  destruct (min_value_in c) as [voice H].
  assert (Hin : In voice (min_voices c)).
  { apply in_min_voices. rewrite H. apply dec_eqb_refl. }
  intros E. rewrite E in Hin. exact Hin.
Qed.

Lemma dec_ltb_units (k : Z) (a b : Decimal) :
  - k <= dexp a -> - k <= dexp b ->
  dec_ltb a b = (dec_units k a <? dec_units k b).
Proof.
  intros Ha Hb. unfold dec_ltb, Z.ltb.
  now rewrite (dec_compare_units k a b Ha Hb).
Qed.

Lemma dec_eqb_units (k : Z) (a b : Decimal) :
  - k <= dexp a -> - k <= dexp b ->
  dec_eqb a b = (dec_units k a =? dec_units k b).
Proof.
  intros Ha Hb. unfold dec_eqb.
  rewrite (dec_compare_units k a b Ha Hb).
  destruct (Z.compare_spec (dec_units k a) (dec_units k b));
    destruct (Z.eqb_spec (dec_units k a) (dec_units k b)); try reflexivity; lia.
Qed.

(** On counters with exponents from [-k] on, [min_value] is the smallest
    value. *)
Lemma min_value_units (k : Z) (c : dict Decimal) :
  (forall voice, - k <= dexp (getitem c voice)) ->
  - k <= dexp (min_value c) /\
  forall voice, dec_units k (min_value c) <= dec_units k (getitem c voice).
Proof.
  intros H.
  pose proof (H Soprano) as HS. pose proof (H Alto) as HA.
  pose proof (H Tenor) as HT. pose proof (H Bass) as HB. simpl in *.
  unfold min_value, py_min. simpl.
  destruct (dec_ltb (at_alto c) (at_soprano c)) eqn:E1;
    destruct (dec_ltb (at_tenor c) _) eqn:E2;
    destruct (dec_ltb (at_bass c) _) eqn:E3;
    rewrite (dec_ltb_units k) in E1, E2, E3 by assumption;
    rewrite ?Z.ltb_lt, ?Z.ltb_ge in E1, E2, E3;
    (split; [assumption|]); intros []; simpl; lia.
Qed.

Lemma advance_spec (voices : list Voice) :
  NoDup voices ->
  forall l l', advance voices l = Ok l' ->
    (forall voice, In voice voices ->
       exists elem dur rest d,
         getitem (streams l) voice = (elem, dur) :: rest /\
         getitem (streams l') voice = rest /\
         getitem (state l') voice = Some (elem, quarterLength dur) /\
         Decimal_of_qlen (quarterLength dur) = Ok d /\
         getitem (counter l') voice = dec_add (getitem (counter l) voice) d) /\
    (forall voice, ~ In voice voices ->
       getitem (streams l') voice = getitem (streams l) voice /\
       getitem (state l') voice = getitem (state l) voice /\
       getitem (counter l') voice = getitem (counter l) voice).
Proof.
  induction 1 as [|v voices Hv Hnd IH]; simpl; intros l l' H.
  - injection H as <-. split; [tauto|auto].
  - destruct (getitem (streams l) v) as [|[elem dur] rest] eqn:Es; [discriminate|].
    apply bind_Ok in H as [d [Hd H]].
    apply IH in H as [Hin Hout]. simpl in *. split.
    + intros voice [->|Hvoice].
      * destruct (Hout voice Hv) as (H1 & H2 & H3).
        exists elem, dur, rest, d.
        rewrite H1, H2, H3, !getitem_setitem_same. auto.
      * assert (v <> voice) by congruence.
        destruct (Hin voice Hvoice) as (e' & d' & r' & dd & H1 & H2 & H3 & H4 & H5).
        exists e', d', r', dd.
        rewrite !getitem_setitem_other in * by assumption. auto.
    + intros voice Hn.
      destruct (Hout voice) as (H1 & H2 & H3); [tauto|].
      rewrite H1, H2, H3, !getitem_setitem_other by tauto. auto.
Qed.

Lemma remaining_setitem (s : dict (list Event)) (voice : Voice) (ev : Event)
  (rest : list Event) :
  getitem s voice = ev :: rest ->
  remaining s = Datatypes.S (remaining (setitem s voice rest)).
Proof.
  unfold remaining. destruct voice; simpl; intros ->; simpl; lia.
Qed.

Lemma advance_remaining (voices : list Voice) :
  forall l l', advance voices l = Ok l' ->
    (remaining (streams l') + List.length voices = remaining (streams l))%nat.
Proof.
  induction voices as [|v voices IH]; simpl; intros l l' H.
  - injection H as <-. lia.
  - destruct (getitem (streams l) v) as [|[elem dur] rest] eqn:Es; [discriminate|].
    apply bind_Ok in H as [d [Hd H]].
    apply IH in H. simpl in H.
    rewrite (remaining_setitem _ _ _ _ Es). lia.
Qed.

Lemma gen_body_remaining (l l' : gen_locals) :
  gen_body l = Ok l' -> (remaining (streams l') < remaining (streams l))%nat.
Proof.
  unfold gen_body. intros H. apply advance_remaining in H.
  pose proof (min_voices_nonempty (counter l)).
  destruct (min_voices (counter l)); [congruence|simpl in H; lia].
Qed.

Lemma gen_loop_total (fuel : nat) :
  forall l, (remaining (streams l) < fuel)%nat -> exists g, gen_loop fuel l = Some g.
Proof.
  induction fuel as [|fuel IH]; intros l Hlt; [lia|]. simpl.
  destruct (gen_body l) as [l'|e] eqn:E; [|eauto].
  apply gen_body_remaining in E.
  destruct (IH l') as [g ->]; [lia|]. eauto.
Qed.

(** The generator always ends: one turn more than there are events is
    enough. *)
Lemma gen_states_total (S A T B : list Event) :
  exists g, gen_states S A T B = Some g.
Proof. unfold gen_states. apply gen_loop_total. lia. Qed.

Lemma advance_exists (voices : list Voice) :
  NoDup voices ->
  forall l,
    (forall voice, In voice voices ->
       exists elem f rest,
         getitem (streams l) voice = (elem, mkDuration (QFloat f)) :: rest) ->
    exists l', advance voices l = Ok l'.
Proof.
  induction 1 as [|v voices Hv Hnd IH]; simpl; intros l H; [eauto|].
  destruct (H v (or_introl eq_refl)) as (elem & f & rest & ->). simpl.
  apply IH. simpl. intros voice Hin.
  rewrite getitem_setitem_other by congruence. auto.
Qed.

Lemma exact_stream_cons (k : Z) (ev : Event) (s : list Event) :
  exact_stream k (ev :: s) = true ->
  exact_event k ev = true /\ exact_stream k s = true.
Proof. simpl. apply andb_true_iff. Qed.

Lemma exact_stream_app (k : Z) (a b : list Event) :
  exact_stream k (a ++ b) = true ->
  exact_stream k a = true /\ exact_stream k b = true.
Proof. unfold exact_stream. rewrite forallb_app. apply andb_true_iff. Qed.

Lemma stream_units_app (k : Z) (a b : list Event) :
  stream_units k (a ++ b) = stream_units k a + stream_units k b.
Proof. induction a as [|ev a IH]; simpl; [reflexivity|]. rewrite IH. ring. Qed.

Lemma exact_locals_advance (k : Z) (S0 : dict (list Event))
  (voices : list Voice) (l l' : gen_locals) :
  0 <= k ->
  (forall voice, exact_stream k (getitem S0 voice) = true) ->
  (forall voice, stream_units k (getitem S0 voice) < 10 ^ prec) ->
  NoDup voices ->
  exact_locals k S0 l -> advance voices l = Ok l' -> exact_locals k S0 l'.
Proof.
  intros Hk Hex Htot Hnd Hl Hadv voice.
  destruct (advance_spec voices Hnd l l' Hadv) as [Hin Hout].
  destruct (Hl voice) as (pre & Hpre & He & Hunits).
  destruct (in_dec Voice_eq_dec voice voices) as [Hv|Hv].
  - destruct (Hin voice Hv) as (elem & dur & rest & d & H1 & H2 & H3 & H4 & H5).
    rewrite H1 in Hpre.
    pose proof (Hex voice) as Hs. pose proof (Htot voice) as Ht.
    rewrite Hpre in Hs, Ht.
    apply exact_stream_app in Hs as [Hspre Hs].
    apply exact_stream_cons in Hs as [Hev Hrest].
    destruct (exact_event_float _ _ Hev) as (f & Hq & _ & _ & Hf). simpl in Hq.
    rewrite Hq in H4. injection H4 as <-.
    pose proof (event_units_pos k _ Hk Hev) as Hpos.
    pose proof (stream_units_nonneg k rest Hk Hrest) as Hnn.
    pose proof (stream_units_nonneg k pre Hk Hspre) as Hnp.
    destruct (Decimal_of_float_units k f Hk Hf) as (Hd1 & _ & Hd2).
    rewrite stream_units_app in Ht. cbn [stream_units] in Ht.
    assert (Hevu : event_units k (elem, dur) = float_units k f)
      by (unfold event_units; simpl; now rewrite Hq).
    destruct (dec_add_units k (getitem (counter l) voice) (Decimal_of_float f))
      as [Hexp Hunits']; [assumption|assumption|rewrite Hd2; lia|].
    exists (pre ++ [(elem, dur)]).
    rewrite H2, H5, Hexp, Hunits', Hd2, stream_units_app, <- app_assoc.
    cbn [stream_units app]. split; [exact Hpre|]. split; lia.
  - destruct (Hout voice Hv) as (-> & _ & ->). eauto.
Qed.

Lemma exact_locals_streams (k : Z) (S0 : dict (list Event)) (l : gen_locals) :
  0 <= k ->
  (forall voice, exact_stream k (getitem S0 voice) = true) ->
  exact_locals k S0 l ->
  forall voice,
    exact_stream k (getitem (streams l) voice) = true /\
    - k <= dexp (getitem (counter l) voice) /\
    0 <= dec_units k (getitem (counter l) voice) /\
    dec_units k (getitem (counter l) voice)
    + stream_units k (getitem (streams l) voice)
    = stream_units k (getitem S0 voice).
Proof.
  intros Hk Hex Hl voice.
  destruct (Hl voice) as (pre & Hpre & He & Hunits).
  pose proof (Hex voice) as Hs. rewrite Hpre in Hs.
  apply exact_stream_app in Hs as [Hspre Hs].
  pose proof (stream_units_nonneg k pre Hk Hspre).
  rewrite Hpre, stream_units_app. repeat split; (assumption || lia).
Qed.

Lemma last_cons (A : Type) (x d : A) (l : list A) : last (x :: l) d = last l x.
Proof.
  revert x d. induction l as [|y l IH]; intros x d; [reflexivity|].
  change (last (x :: y :: l) d) with (last (y :: l) d).
  rewrite (IH y d), (IH y x). reflexivity.
Qed.


(** On exact streams of equal total the generator ends when every stream
    is used up, and not before. *)
Lemma gen_loop_exact (k total : Z) (S0 : dict (list Event)) :
  0 <= k -> total < 10 ^ prec ->
  (forall voice, exact_stream k (getitem S0 voice) = true) ->
  (forall voice, stream_units k (getitem S0 voice) = total) ->
  forall fuel l,
    exact_locals k S0 l -> (remaining (streams l) < fuel)%nat ->
    exists g,
      gen_loop fuel l = Some g /\
      raised g = StopIteration /\
      forall voice, getitem (streams (last (yields g) l)) voice = [].
Proof.
  intros Hk Htot Hex Heq.
  assert (Htot' : forall voice, stream_units k (getitem S0 voice) < 10 ^ prec)
    by (intros voice; now rewrite Heq).
  induction fuel as [|fuel IH]; intros l Hl0 Hfuel; [lia|].
  pose proof (exact_locals_streams k S0 l Hk Hex Hl0) as Hl.
  assert (Hexp : forall voice, - k <= dexp (getitem (counter l) voice))
    by (intros voice; apply (Hl voice)).
  destruct (min_value_units k (counter l) Hexp) as [Hme Hmin].
  set (m := dec_units k (min_value (counter l))) in *.
  assert (Hbehind : forall voice, In voice (min_voices (counter l)) ->
            dec_units k (getitem (counter l) voice) = m).
  { intros voice Hin. apply in_min_voices in Hin.
    rewrite (dec_eqb_units k) in Hin by auto. now apply Z.eqb_eq. }
  simpl. unfold gen_body.
  destruct (Z.lt_ge_cases m total) as [Hlt|Hge].
  - destruct (advance_exists (min_voices (counter l)) (min_voices_NoDup _) l)
      as [l' Hadv].
    { intros voice Hin. apply Hbehind in Hin.
      destruct (Hl voice) as (Hs & _ & _ & Hsum). rewrite Heq in Hsum.
      destruct (getitem (streams l) voice) as [|[elem [q]] rest]; simpl in Hsum; [lia|].
      apply exact_stream_cons in Hs as [Hev _].
      destruct (exact_event_float _ _ Hev) as (f & Hq & _). simpl in Hq. subst q.
      eauto. }
    rewrite Hadv.
    assert (Hl' := exact_locals_advance k S0 _ l l' Hk Hex Htot'
                     (min_voices_NoDup _) Hl0 Hadv).
    assert (Hrem := gen_body_remaining l l' Hadv).
    destruct (IH l' Hl') as (g & -> & Hr & Hlast); [lia|].
    eexists. split; [reflexivity|]. cbn [yields raised].
    split; [exact Hr|].
    intros voice. rewrite (last_cons _ l' l (yields g)). apply Hlast.
  - assert (Hempty : forall voice, getitem (streams l) voice = []).
    { intros voice. destruct (Hl voice) as (Hs & _ & _ & Hsum).
      rewrite Heq in Hsum.
      apply (stream_units_zero k _ Hk Hs).
      pose proof (Hmin voice). pose proof (stream_units_nonneg k _ Hk Hs).
      fold m in H. lia. }
    pose proof (min_voices_nonempty (counter l)) as Hne.
    destruct (min_voices (counter l)) as [|v voices]; [congruence|].
    simpl. rewrite Hempty.
    eexists. split; [reflexivity|]. simpl. auto.
Qed.

Lemma exact_equal_units (k : Z) (S A : list Event) :
  0 <= k -> exact_stream k S = true -> exact_stream k A = true ->
  (duration_sum S == duration_sum A)%Q -> stream_units k S = stream_units k A.
Proof.
  intros Hk HS HA H. apply inject_Z_injective.
  rewrite <- (duration_sum_units k S Hk HS), <- (duration_sum_units k A Hk HA), H.
  reflexivity.
Qed.

Lemma exact_total_units (k : Z) (S : list Event) :
  0 <= k <= prec -> exact_stream k S = true ->
  (duration_sum S < inject_Z (10 ^ (prec - k)))%Q ->
  stream_units k S < 10 ^ prec.
Proof.
  intros Hk HS H.
  assert (Hp : (0 < inject_Z (10 ^ k))%Q).
  { rewrite <- (Zlt_Qlt 0). apply pow10_pos. lia. }
  apply (Qmult_lt_r _ _ _ Hp) in H.
  rewrite (duration_sum_units k S (proj1 Hk) HS), <- inject_Z_mult in H.
  rewrite <- Zlt_Qlt, <- Z.pow_add_r in H by lia.
  replace (prec - k + k) with prec in H by lia. exact H.
Qed.

Lemma exact_locals_init (k : Z) (S A T B : list Event) :
  0 <= k -> exact_locals k (mkdict S A T B) (gen_init S A T B).
Proof.
  intros Hk voice. exists []. destruct voice; simpl;
    (split; [reflexivity|]); (split; [lia|reflexivity]).
Qed.

(** The Synchronizer on four exact streams of equal total duration. *)
Lemma gen_states_exact (k : Z) (S A T B : list Event) :
  0 <= k <= prec ->
  exact_stream k S = true -> exact_stream k A = true ->
  exact_stream k T = true -> exact_stream k B = true ->
  (duration_sum S == duration_sum A)%Q ->
  (duration_sum S == duration_sum T)%Q ->
  (duration_sum S == duration_sum B)%Q ->
  (duration_sum S < inject_Z (10 ^ (prec - k)))%Q ->
  exists g,
    gen_states S A T B = Some g /\
    raised g = StopIteration /\
    forall voice,
      getitem (streams (last (yields g) (gen_init S A T B))) voice = [].
Proof.
  intros Hk HS HA HT HB EA ET EB Hlt.
  unfold gen_states.
  pose proof (exact_equal_units k S A (proj1 Hk) HS HA EA).
  pose proof (exact_equal_units k S T (proj1 Hk) HS HT ET).
  pose proof (exact_equal_units k S B (proj1 Hk) HS HB EB).
  apply (gen_loop_exact k (stream_units k S) (mkdict S A T B));
    [lia|now apply exact_total_units| | |apply exact_locals_init; lia|lia].
  - intros []; assumption.
  - intros []; simpl; congruence.
Qed.

(** ** Reading back what [repr] writes: digits *)

Lemma digit_char_spec (d : Z) :
  0 <= d < 10 ->
  is_digit (digit_char d) = true /\ digit_val (digit_char d) = d.
Proof.
  intros H.
  assert (E : d = 0 \/ d = 1 \/ d = 2 \/ d = 3 \/ d = 4 \/ d = 5 \/ d = 6
              \/ d = 7 \/ d = 8 \/ d = 9) by lia.
  repeat (destruct E as [->|E]; [split; reflexivity|]).
  subst d. split; reflexivity.
Qed.

Lemma append_assoc (a b c : string) : ((a ++ b) ++ c = a ++ (b ++ c))%string.
Proof. induction a as [|x a IH]; simpl; [reflexivity|now rewrite IH]. Qed.

Lemma read_digits_fixed (k : nat) :
  forall n rest acc cnt,
    0 <= n ->
    read_digits (digits_fixed k n ++ rest) acc cnt
    = read_digits rest (acc * 10 ^ Z.of_nat k + n mod 10 ^ Z.of_nat k) (cnt + k)%nat.
Proof.
  induction k as [|k IH]; intros n rest acc cnt Hn.
  - simpl. rewrite Z.mod_1_r, Nat.add_0_r. f_equal. lia.
  - cbn [digits_fixed]. rewrite append_assoc, IH by (apply Z.div_pos; lia).
    cbn [append read_digits].
    destruct (digit_char_spec (n mod 10)) as [-> ->];
      [apply Z.mod_pos_bound; lia|].
    f_equal; [|lia].
    rewrite Nat2Z.inj_succ, Z.pow_succ_r by lia.
    assert (Hp := pow10_pos (Z.of_nat k) ltac:(lia)).
    rewrite Z.rem_mul_r by lia.
    ring.
Qed.

Lemma ndigits_aux_nonneg (fuel : nat) (c : Z) : 0 <= ndigits_aux fuel c.
Proof.
  revert c. induction fuel as [|fuel IH]; intros c; cbn [ndigits_aux]; [lia|].
  destruct (c <=? 0); [lia|]. specialize (IH (c / 10)). lia.
Qed.

Lemma ndigits_aux_bound (fuel : nat) :
  forall c, 0 <= c < 2 ^ Z.of_nat fuel -> c < 10 ^ ndigits_aux fuel c.
Proof.
  induction fuel as [|fuel IH]; intros c Hc; cbn [ndigits_aux].
  - simpl in Hc. simpl. lia.
  - destruct (Z.leb_spec c 0); [simpl; lia|].
    rewrite Nat2Z.inj_succ, Z.pow_succ_r in Hc by lia.
    assert (Hdiv : 0 <= c / 10 < 2 ^ Z.of_nat fuel).
    { split; [apply Z.div_pos; lia|]. apply Z.div_lt_upper_bound; lia. }
    specialize (IH _ Hdiv).
    pose proof (ndigits_aux_nonneg fuel (c / 10)).
    rewrite Z.pow_add_r, Z.pow_1_r by lia.
    pose proof (Z.div_mod c 10 ltac:(lia)).
    pose proof (Z.mod_pos_bound c 10 ltac:(lia)). lia.
Qed.

Lemma ndigits_spec (n : Z) : 0 <= n -> 0 <= ndigits n /\ n < 10 ^ ndigits n.
Proof.
  intros Hn. unfold ndigits. rewrite Z.abs_eq by assumption.
  split; [apply ndigits_aux_nonneg|].
  apply ndigits_aux_bound.
  rewrite Nat2Z.inj_succ, Z2Nat.id by apply Z.log2_nonneg.
  destruct (Z.eq_dec n 0) as [->|]; [simpl; lia|].
  pose proof (Z.log2_spec n ltac:(lia)). lia.
Qed.

Lemma ndigits_pos (n : Z) : 0 < n -> 0 < ndigits n.
Proof.
  intros Hn. destruct (ndigits_spec n ltac:(lia)) as [H0 H1].
  destruct (Z.eq_dec (ndigits n) 0) as [E|]; [|lia].
  rewrite E in H1. simpl in H1. lia.
Qed.

(** Reading the digits of [n] gives [n], and at least one digit. *)
Lemma read_digits_of (n : Z) (rest : string) :
  0 <= n ->
  exists cnt,
    (0 < cnt)%nat /\
    read_digits (digits_of n ++ rest) 0 0 = read_digits rest n cnt.
Proof.
  intros Hn. unfold digits_of.
  destruct (Z.leb_spec n 0).
  - exists 1%nat. split; [lia|]. replace n with 0 by lia. reflexivity.
  - exists (Z.to_nat (ndigits n)).
    pose proof (ndigits_pos n ltac:(lia)).
    destruct (ndigits_spec n Hn) as [_ Hlt].
    split; [lia|].
    rewrite read_digits_fixed, Z2Nat.id, Z.mod_small by lia.
    reflexivity.
Qed.

Lemma read_digits_stop (rest : string) (acc : Z) (cnt : nat) :
  not_digit_next rest -> read_digits rest acc cnt = (acc, cnt, rest).
Proof. destruct rest as [|c rest]; simpl; [reflexivity|]. now intros ->. Qed.


(** ** Reading back what [repr] writes: floats *)

Lemma odd_part_spec (p : positive) :
  Z.odd (Zpos p) = true ->
  forall s, 0 <= s ->
    forall q, Zpos q = Zpos p * 2 ^ s -> odd_part q = (p, s).
Proof.
  intros Hodd s Hs. pattern s. apply natlike_ind; [| |exact Hs]; clear s Hs.
  - intros q Hq. rewrite Z.mul_1_r in Hq. injection Hq as ->.
    destruct p; simpl in *; congruence.
  - intros s Hs IH q Hq. rewrite Z.pow_succ_r in Hq by assumption.
    assert (0 < 2 ^ s) by (apply Z.pow_pos_nonneg; lia).
    destruct q as [q|q|].
    + rewrite Pos2Z.inj_xI in Hq. lia.
    + rewrite Pos2Z.inj_xO in Hq. cbn [odd_part].
      rewrite (IH q) by lia. reflexivity.
    + destruct p; simpl in Hodd; try discriminate; nia.
Qed.

Lemma normalize_odd (m e s : Z) :
  0 < m -> Z.odd m = true -> 0 <= s ->
  normalize (m * 2 ^ s) e = mkfloat m (e + s).
Proof.
  intros Hm Hodd Hs.
  assert (0 < 2 ^ s) by (apply Z.pow_pos_nonneg; lia).
  destruct m as [|p|p]; try lia.
  destruct (Z.pos p * 2 ^ s) as [|q|q] eqn:E; try nia.
  unfold normalize. now rewrite (odd_part_spec p Hodd s Hs q).
Qed.

Lemma scaled_exact (m e n d e' : Z) :
  n * 2 ^ Z.max 0 (- e) = m * 2 ^ Z.max 0 e * d ->
  e' <= e ->
  n * 2 ^ Z.max 0 (- e') = m * 2 ^ (e - e') * (d * 2 ^ Z.max 0 e').
Proof.
  intros H Hle.
  assert (Hp : 0 < 2 ^ Z.max 0 (- e)) by (apply Z.pow_pos_nonneg; lia).
  apply (Z.mul_reg_r _ _ (2 ^ Z.max 0 (- e))); [lia|].
  transitivity (n * 2 ^ Z.max 0 (- e) * 2 ^ Z.max 0 (- e')); [ring|].
  rewrite H.
  transitivity (m * d * (2 ^ Z.max 0 e * 2 ^ Z.max 0 (- e'))); [ring|].
  transitivity (m * d * (2 ^ (e - e') * 2 ^ Z.max 0 e' * 2 ^ Z.max 0 (- e)));
    [|ring].
  rewrite <- !Z.pow_add_r by lia. do 2 f_equal. lia.
Qed.

Lemma pow2_lt_inv (u v : Z) : 0 <= v -> 2 ^ u < 2 ^ v -> u < v.
Proof. intros Hv H. apply (Z.pow_lt_mono_r_iff 2); [lia|assumption|assumption]. Qed.

(** A decimal that is the exact value of a float reads as that float. *)
Lemma round53_exact (m e n d : Z) :
  0 < m < 2 ^ 53 -> Z.odd m = true -> 0 < d ->
  n * 2 ^ Z.max 0 (- e) = m * 2 ^ Z.max 0 e * d ->
  round53 n d = mkfloat m e.
Proof.
  intros Hm Hodd Hd H.
  assert (Ha : 0 < 2 ^ Z.max 0 (- e)) by (apply Z.pow_pos_nonneg; lia).
  assert (Hb : 0 < 2 ^ Z.max 0 e) by (apply Z.pow_pos_nonneg; lia).
  assert (Hn : 0 < n) by nia.
  unfold round53.
  destruct (Z.eqb_spec n 0); [lia|].
  set (e1 := Z.log2 n - Z.log2 d - 53).
  pose proof (Z.log2_spec n Hn) as [Hn1 _].
  pose proof (Z.log2_spec d Hd) as [_ Hd2].
  pose proof (Z.log2_nonneg n). pose proof (Z.log2_nonneg d).
  assert (HA : e1 <= e).
  { assert (Hlt : 2 ^ (Z.log2 n + Z.max 0 (- e))
                  < 2 ^ (54 + Z.max 0 e + Z.log2 d)).
    { rewrite Z.pow_add_r by lia.
      apply Z.le_lt_trans with (n * 2 ^ Z.max 0 (- e)); [nia|].
      rewrite H.
      replace (54 + Z.max 0 e + Z.log2 d)
        with (53 + Z.max 0 e + Z.succ (Z.log2 d)) by lia.
      rewrite !Z.pow_add_r by lia.
      apply Z.mul_lt_mono_nonneg; [nia| |lia|lia].
      apply Z.mul_lt_mono_pos_r; lia. }
    apply pow2_lt_inv in Hlt; [|lia]. unfold e1. lia. }
  cbn [fst snd].
  assert (Hden : forall e', 0 < d * 2 ^ Z.max 0 e').
  { intros e'. assert (0 < 2 ^ Z.max 0 e') by (apply Z.pow_pos_nonneg; lia). nia. }
  assert (Hq : forall e', e' <= e ->
            n * 2 ^ Z.max 0 (- e') / (d * 2 ^ Z.max 0 e') = m * 2 ^ (e - e') /\
            (n * 2 ^ Z.max 0 (- e')) mod (d * 2 ^ Z.max 0 e') = 0).
  { intros e' He'. rewrite (scaled_exact m e n d e' H He').
    pose proof (Hden e').
    split; [apply Z.div_mul|apply Z.mod_mul]; lia. }
  set (ec := if n * 2 ^ Z.max 0 (- e1) / (d * 2 ^ Z.max 0 e1) <? 2 ^ 53
             then e1 else e1 + 1).
  assert (Hec : ec <= e).
  { unfold ec. destruct (Hq e1 HA) as [-> _].
    destruct (Z.ltb_spec (m * 2 ^ (e - e1)) (2 ^ 53)); [assumption|].
    destruct (Z.eq_dec e e1) as [->|]; [|lia].
    rewrite Z.sub_diag, Z.mul_1_r in *. lia. }
  destruct (Hq ec Hec) as [-> ->].
  pose proof (Hden ec).
  destruct (Z.ltb_spec (d * 2 ^ Z.max 0 ec) (2 * 0)); [lia|].
  destruct (Z.eqb_spec (d * 2 ^ Z.max 0 ec) (2 * 0)); [lia|].
  simpl orb. cbv iota.
  rewrite normalize_odd by (assumption || lia). f_equal. lia.
Qed.

Lemma digits_fixed_head (k : nat) :
  forall n, 0 <= n ->
    exists c s, digits_fixed (S k) n = String c s /\ is_digit c = true.
Proof.
  induction k as [|k IH]; intros n Hn.
  - exists (digit_char (n mod 10)), EmptyString. split; [reflexivity|].
    apply digit_char_spec. apply Z.mod_pos_bound. lia.
  - destruct (IH (n / 10)) as (c & s & E & Hc); [apply Z.div_pos; lia|].
    exists c, (s ++ String (digit_char (n mod 10)) "")%string.
    split; [|exact Hc].
    change (digits_fixed (S (S k)) n)
      with (digits_fixed (S k) (n / 10) ++ String (digit_char (n mod 10)) "")%string.
    rewrite E. reflexivity.
Qed.

Lemma digits_of_head (n : Z) :
  0 <= n -> exists c s, digits_of n = String c s /\ is_digit c = true.
Proof.
  intros Hn. unfold digits_of. destruct (Z.leb_spec n 0).
  - exists "0"%char, EmptyString. split; reflexivity.
  - pose proof (ndigits_pos n ltac:(lia)).
    destruct (Z.to_nat (ndigits n)) as [|k] eqn:E; [lia|].
    apply digits_fixed_head. exact Hn.
Qed.

Lemma float_ok_pos (f : float) :
  float_ok f = true -> fman f <> 0 ->
  Z.odd (fman f) = true /\ Z.abs (fman f) < 2 ^ 53.
Proof.
  unfold float_ok. intros H Hne.
  destruct (Z.eqb_spec (fman f) 0); [contradiction|].
  apply andb_true_iff in H as [H1 H2]. apply Z.ltb_lt in H2. auto.
Qed.


Lemma Qnum_den (r : Q) : (inject_Z (Qnum r) == r * inject_Z (Zpos (Qden r)))%Q.
Proof.
  destruct r as [n d]. unfold Qeq, Qmult, inject_Z. simpl.
  rewrite ?Pos.mul_1_r, ?Z.mul_1_r. reflexivity.
Qed.

Lemma float_of_Q_eq (q q' : Q) : (q == q')%Q -> float_of_Q q = float_of_Q q'.
Proof. intros H. unfold float_of_Q. now rewrite (Qred_complete q q' H). Qed.

(** A rational that is the exact value of a float reads as that float. *)
Lemma float_of_Q_exact (f : float) (q : Q) :
  float_ok f = true -> 0 < fman f -> (q == float_Q f)%Q -> float_of_Q q = f.
Proof.
  intros Hok Hpos Hq. unfold float_of_Q.
  destruct (float_ok_pos f Hok ltac:(lia)) as [Hodd Hlt].
  assert (Hr : (Qred q == float_Q f)%Q)
    by (transitivity q; [apply Qred_correct|exact Hq]).
  generalize (Qnum_den (Qred q)).
  generalize (Qnum (Qred q)) (Qden (Qred q)). intros n d Hn.
  destruct f as [m e]. cbn [fman fexp] in *.
  apply round53_exact; [lia|assumption|reflexivity|].
  apply inject_Z_injective.
  rewrite !inject_Z_mult, Hn, Hr.
  unfold float_Q. cbn [fman fexp].
  replace (Z.max 0 e) with (e + Z.max 0 (- e)) by lia.
  rewrite <- (Qpower_units 2 e (Z.max 0 (- e))) by lia.
  change (inject_Z 2) with 2%Q. ring.
Qed.

Lemma float_eqb_eq (a b : float) : float_eqb a b = true -> a = b.
Proof.
  unfold float_eqb. rewrite andb_true_iff, !Z.eqb_eq.
  destruct a, b. simpl. intros [-> ->]. reflexivity.
Qed.

Lemma decimal_Q_zero (x : Z) : (decimal_Q 0 x == 0)%Q.
Proof. unfold decimal_Q. change (inject_Z 0) with 0%Q. ring. Qed.

Lemma float_of_Q_zero (q : Q) : (q == 0)%Q -> float_of_Q q = mkfloat 0 0.
Proof. intros H. rewrite (float_of_Q_eq q 0 H). reflexivity. Qed.

Lemma decimal_Q_shift (D x : Z) :
  (decimal_Q (D * 10) x == decimal_Q D (x + 1))%Q.
Proof.
  unfold decimal_Q. rewrite inject_Z_mult.
  rewrite Qpower_plus by discriminate.
  change (inject_Z 10) with 10%Q. change (10 ^ 1)%Q with 10%Q. ring.
Qed.

Lemma strip_zeros_spec (fuel : nat) :
  forall D x, 0 < D ->
    let '(D', x') := strip_zeros fuel D x in
    0 < D' /\ (decimal_Q D' x' == decimal_Q D x)%Q.
Proof.
  induction fuel as [|fuel IH]; intros D x HD; cbn [strip_zeros].
  - split; [assumption|reflexivity].
  - destruct (Z.eqb_spec (D mod 10) 0) as [Hm|Hm]; cbn [andb];
      [|split; [assumption|reflexivity]].
    destruct (Z.eqb_spec D 0); [lia|]. cbn [negb].
    assert (HD' : D = D / 10 * 10)
      by (pose proof (Z.div_mod D 10 ltac:(lia)); lia).
    assert (0 < D / 10) by lia.
    specialize (IH (D / 10) (x + 1) H).
    destruct (strip_zeros fuel (D / 10) (x + 1)) as [D' x'].
    destruct IH as [Hpos Heq]. split; [exact Hpos|].
    rewrite Heq, <- decimal_Q_shift, <- HD'. reflexivity.
Qed.

Lemma candidate_spec (f : float) (n d p D x : Z) :
  0 <= n -> 0 < d -> candidate f n d p = Some (D, x) ->
  0 <= D /\ float_of_Q (decimal_Q D x) = f.
Proof.
  intros Hn Hd. unfold candidate.
  set (x0 := log10_floor n d - p + 1).
  set (num := n * 10 ^ Z.max 0 (- x0)). set (den := d * 10 ^ Z.max 0 x0).
  assert (0 < den).
  { unfold den. assert (0 < 10 ^ Z.max 0 x0) by (apply Z.pow_pos_nonneg; lia). nia. }
  assert (0 <= num).
  { unfold num. assert (0 < 10 ^ Z.max 0 (- x0)) by (apply Z.pow_pos_nonneg; lia). nia. }
  assert (0 <= num / den) by (apply Z.div_pos; lia).
  destruct ((den <? 2 * (num mod den)) || _);
    repeat match goal with
           | |- context [float_eqb ?a ?b] =>
               let E := fresh "E" in destruct (float_eqb a b) eqn:E
           end;
    intros Heq; try discriminate; injection Heq as <- <-;
    (split; [lia|now apply float_eqb_eq]).
Qed.

Lemma shortest_spec (f : float) (n d : Z) (count : nat) :
  0 <= n -> 0 < d ->
  forall p D x, shortest f n d p count = Some (D, x) ->
    0 <= D /\ float_of_Q (decimal_Q D x) = f.
Proof.
  intros Hn Hd. induction count as [|count IH]; intros p D x H; [discriminate|].
  cbn [shortest] in H.
  destruct (candidate f n d p) as [[D' x']|] eqn:E.
  - injection H as -> ->. now apply (candidate_spec f n d p).
  - now apply (IH (p + 1)).
Qed.

(** The digits of a positive float read back as the float. *)
Lemma float_digits_spec (f : float) :
  float_ok f = true -> 0 < fman f ->
  let '(D, x) := float_digits f in
  0 < D /\ float_of_Q (decimal_Q D x) = f.
Proof.
  intros Hok Hpos. unfold float_digits.
  set (n := if 0 <=? fexp f then fman f * 2 ^ fexp f else fman f).
  set (d := if 0 <=? fexp f then 1 else 2 ^ (- fexp f)).
  assert (Hn : 0 <= n).
  { unfold n. destruct (Z.leb_spec 0 (fexp f)); [|lia].
    apply Z.mul_nonneg_nonneg; [lia|]. apply Z.pow_nonneg. lia. }
  assert (Hd : 0 < d).
  { unfold d. destruct (Z.leb_spec 0 (fexp f)); [lia|].
    apply Z.pow_pos_nonneg; lia. }
  destruct (shortest f n d 1 17) as [[D x]|] eqn:E.
  - destruct (shortest_spec f n d 17 Hn Hd 1 D x E) as [HD Hf].
    assert (HD' : 0 < D).
    { destruct (Z.eq_dec D 0) as [->|]; [|lia].
      rewrite (float_of_Q_zero _ (decimal_Q_zero x)) in Hf.
      rewrite <- Hf in Hpos. simpl in Hpos. lia. }
    pose proof (strip_zeros_spec 17 D x HD') as Hs.
    destruct (strip_zeros 17 D x) as [D' x']. destruct Hs as [Hs1 Hs2].
    split; [exact Hs1|]. now rewrite (float_of_Q_eq _ _ Hs2).
  - destruct (Z.leb_spec 0 (fexp f)) as [He|He].
    + assert (0 < 2 ^ fexp f) by (apply Z.pow_pos_nonneg; lia).
      split; [nia|].
      apply float_of_Q_exact; [assumption|assumption|].
      unfold decimal_Q, float_Q. rewrite inject_Z_mult.
      rewrite (Zpower_Qpower 2) by assumption.
      change (inject_Z 2) with 2%Q. change (10 ^ 0)%Q with 1%Q. ring.
    + assert (0 < 5 ^ (- fexp f)) by (apply Z.pow_pos_nonneg; lia).
      split; [nia|].
      apply float_of_Q_exact; [assumption|assumption|].
      unfold decimal_Q, float_Q. rewrite inject_Z_mult.
      assert (E10 : (10 == 2 * 5)%Q) by reflexivity.
      rewrite E10, Qmult_power.
      pose proof (Qpower_units 5 (fexp f) (- fexp f)) as H5.
      replace (fexp f + - fexp f) with 0 in H5 by lia.
      change (inject_Z 5) with 5%Q in H5.
      change (inject_Z (5 ^ 0)) with 1%Q in H5.
      transitivity (inject_Z (fman f) * 2 ^ fexp f
                    * (5 ^ fexp f * inject_Z (5 ^ (- fexp f))))%Q; [ring|].
      rewrite H5 by lia. ring.
Qed.

Lemma read_digits_dot (rest : string) (acc : Z) (cnt : nat) :
  read_digits (String "." rest) acc cnt = (acc, cnt, String "." rest).
Proof. reflexivity. Qed.

Lemma read_digits_e (rest : string) (acc : Z) (cnt : nat) :
  read_digits (String "e" rest) acc cnt = (acc, cnt, String "e" rest).
Proof. reflexivity. Qed.

Lemma read_digits_zero (rest : string) (cnt : nat) :
  read_digits (String "0" rest) 0 cnt = read_digits rest 0 (S cnt).
Proof. reflexivity. Qed.

(** Reading the digits of [n] gives [n], and at least one digit. *)
Lemma read_digits_of_from (n : Z) (rest : string) (cnt0 : nat) :
  0 <= n ->
  exists cnt,
    (cnt0 < cnt)%nat /\
    read_digits (digits_of n ++ rest) 0 cnt0 = read_digits rest n cnt.
Proof.
  intros Hn. unfold digits_of.
  destruct (Z.leb_spec n 0).
  - exists (S cnt0). split; [lia|]. replace n with 0 by lia. reflexivity.
  - exists (cnt0 + Z.to_nat (ndigits n))%nat.
    pose proof (ndigits_pos n ltac:(lia)).
    destruct (ndigits_spec n Hn) as [_ Hlt].
    split; [lia|].
    rewrite read_digits_fixed, Z2Nat.id, Z.mod_small by lia.
    reflexivity.
Qed.

Lemma fraction_part_dot (s : string) :
  fraction_part (String "." s)
  = (let '(f, nf, s') := read_digits s 0 0 in (f, nf, s', true)).
Proof. reflexivity. Qed.

Lemma fraction_part_e (s : string) :
  fraction_part (String "e" s) = (0, 0%nat, String "e" s, false).
Proof. reflexivity. Qed.

Lemma delimited_not_digit (rest : string) : delimited rest -> not_digit_next rest.
Proof. destruct rest; simpl; tauto. Qed.

Lemma exponent_part_none (rest : string) :
  delimited rest -> exponent_part rest = None.
Proof.
  destruct rest as [|c rest]; [reflexivity|]. intros [_ Ha].
  unfold exponent_part.
  destruct (Ascii.eqb_spec c "e") as [->|]; [discriminate|].
  destruct (Ascii.eqb_spec c "E") as [->|]; [discriminate|]. reflexivity.
Qed.

Lemma decimal_Q_pow (D x : Z) :
  0 <= x -> (decimal_Q (D * 10 ^ x) 0 == decimal_Q D x)%Q.
Proof.
  intros Hx. unfold decimal_Q. rewrite inject_Z_mult, (Zpower_Qpower 10) by assumption.
  change (inject_Z 10) with 10%Q. change (10 ^ 0)%Q with 1%Q. ring.
Qed.

(** A decimal in positional notation reads as the float nearest to it. *)
Lemma read_number_positional (D x : Z) (rest : string) :
  0 < D -> delimited rest ->
  read_number (positional D x ++ rest)
  = Ok (PFloat (float_of_Q (decimal_Q D x)), rest).
Proof.
  intros HD Hrest. unfold positional, read_number.
  pose proof (delimited_not_digit rest Hrest) as Hnd.
  destruct (Z.leb_spec 0 x) as [Hx|Hx].
  - rewrite append_assoc. cbn [append].
    assert (Hn : 0 <= D * 10 ^ x)
      by (apply Z.mul_nonneg_nonneg; [|apply Z.pow_nonneg]; lia).
    destruct (read_digits_of_from (D * 10 ^ x) (String "." (String "0" rest)) 0 Hn)
      as (cnt & Hcnt & ->).
    rewrite read_digits_dot. cbv beta iota.
    rewrite fraction_part_dot, read_digits_zero, read_digits_stop by assumption.
    cbv beta iota. simpl Nat.eqb. rewrite andb_false_r.
    rewrite exponent_part_none by assumption.
    do 3 f_equal. apply float_of_Q_eq.
    change (Z.of_nat 1) with 1.
    replace (D * 10 ^ x * 10 ^ 1 + 0) with (D * 10 ^ x * 10) by lia.
    rewrite decimal_Q_shift. change (-1 + 1) with 0. now apply decimal_Q_pow.
  - set (k := - x).
    assert (Hp := pow10_pos k ltac:(lia)).
    rewrite !append_assoc. cbn [append].
    destruct (read_digits_of_from (D / 10 ^ k)
                (String "." (digits_fixed (Z.to_nat k) (D mod 10 ^ k) ++ rest)) 0)
      as (cnt & Hcnt & ->); [apply Z.div_pos; lia|].
    rewrite read_digits_dot. cbv beta iota.
    rewrite fraction_part_dot.
    rewrite read_digits_fixed by (apply Z.mod_pos_bound; lia).
    rewrite read_digits_stop by assumption.
    cbv beta iota.
    assert (Hk : Z.of_nat (Z.to_nat k) = k) by lia.
    simpl Nat.add. rewrite !Hk.
    replace (Z.to_nat k =? 0)%nat with false
      by (symmetry; apply Nat.eqb_neq; lia).
    rewrite andb_false_r.
    rewrite exponent_part_none by assumption.
    rewrite Z.mod_mod by lia.
    replace (D / 10 ^ k * 10 ^ k + (0 * 10 ^ k + D mod 10 ^ k))
      with D by (pose proof (Z.div_mod D (10 ^ k)); lia).
    unfold k. rewrite Z.opp_involutive. reflexivity.
Qed.

Lemma exponent_part_minus (t : string) :
  exponent_part (String "e" (String "-" t))
  = (let '(ex, nx, s3) := read_digits t 0 0 in
     if (nx =? 0)%nat then Some (Raise Unmodelled) else Some (Ok (- ex, s3))).
Proof. reflexivity. Qed.

Lemma exponent_part_plus (t : string) :
  exponent_part (String "e" (String "+" t))
  = (let '(ex, nx, s3) := read_digits t 0 0 in
     if (nx =? 0)%nat then Some (Raise Unmodelled) else Some (Ok (ex, s3))).
Proof. reflexivity. Qed.

(** The exponent as [repr] writes it, with two digits at least. *)
Lemma read_exponent_digits (a : Z) (rest : string) :
  0 <= a -> not_digit_next rest ->
  exists cnt,
    (0 < cnt)%nat /\
    read_digits ((if a <? 10 then "0" else "") ++ digits_of a ++ rest) 0 0
    = (a, cnt, rest).
Proof.
  intros Ha Hrest. destruct (a <? 10); cbn [append].
  - rewrite read_digits_zero.
    destruct (read_digits_of_from a rest 1 Ha) as (cnt & Hcnt & ->).
    exists cnt. split; [lia|]. now apply read_digits_stop.
  - destruct (read_digits_of_from a rest 0 Ha) as (cnt & Hcnt & ->).
    exists cnt. split; [lia|]. now apply read_digits_stop.
Qed.

(** A decimal in exponent notation reads as the float nearest to it. *)
Lemma read_number_scientific (D x : Z) (rest : string) :
  0 < D -> delimited rest ->
  read_number (scientific D x ++ rest)
  = Ok (PFloat (float_of_Q (decimal_Q D x)), rest).
Proof.
  intros HD Hrest. unfold scientific, read_number.
  pose proof (delimited_not_digit rest Hrest) as Hnd.
  pose proof (ndigits_pos D HD) as Hn1.
  destruct (ndigits_spec D ltac:(lia)) as [_ Hlt].
  set (nd := ndigits D) in *. set (e10 := nd + x - 1).
  assert (Hp := pow10_pos (nd - 1) ltac:(lia)).
  assert (Hd1 : 0 <= D / 10 ^ (nd - 1) < 10).
  { split; [apply Z.div_pos; lia|].
    apply Z.div_lt_upper_bound; [lia|].
    replace (10 ^ (nd - 1) * 10) with (10 ^ nd); [exact Hlt|].
    rewrite Z.mul_comm, <- Z.pow_succ_r by lia. f_equal. lia. }
  rewrite !append_assoc.
  rewrite (read_digits_fixed 1) by lia.
  change (10 ^ Z.of_nat 1) with 10. rewrite (Z.mod_small _ 10) by lia.
  simpl Z.mul. simpl Z.add. simpl Nat.add.
  (* the exponent *)
  assert (Hexp : forall s,
             s = String "e" ((if (e10 <? 0)%Z then "-" else "+")
                             ++ (if (Z.abs e10 <? 10)%Z then "0" else "")
                             ++ digits_of (Z.abs e10) ++ rest)%string ->
             exponent_part s = Some (Ok (e10, rest))).
  { intros s ->.
    destruct (read_exponent_digits (Z.abs e10) rest ltac:(lia) Hnd)
      as (cnt & Hcnt & Hread).
    destruct (Z.ltb_spec e10 0); cbn [append].
    - rewrite exponent_part_minus, Hread.
      replace (cnt =? 0)%nat with false by (symmetry; apply Nat.eqb_neq; lia).
      do 3 f_equal. lia.
    - rewrite exponent_part_plus, Hread.
      replace (cnt =? 0)%nat with false by (symmetry; apply Nat.eqb_neq; lia).
      do 3 f_equal. lia. }
  destruct (Z.ltb_spec 1 nd) as [Hnd1|Hnd1].
  - rewrite !append_assoc. cbn [append].
    rewrite read_digits_dot. cbv beta iota.
    rewrite fraction_part_dot.
    rewrite read_digits_fixed by (apply Z.mod_pos_bound; lia).
    rewrite read_digits_e. cbv beta iota.
    assert (Hk : Z.of_nat (Z.to_nat (nd - 1)) = nd - 1) by lia.
    simpl Nat.add. rewrite !Hk. simpl Nat.eqb. cbn [andb].
    rewrite (Hexp _ eq_refl).
    rewrite Z.mod_mod by lia.
    replace (D / 10 ^ (nd - 1) * 10 ^ (nd - 1) + (0 * 10 ^ (nd - 1) + D mod 10 ^ (nd - 1)))
      with D by (pose proof (Z.div_mod D (10 ^ (nd - 1))); lia).
    replace (e10 - (nd - 1)) with x by (unfold e10; lia). reflexivity.
  - assert (nd = 1) by lia.
    cbn [append]. rewrite read_digits_e. cbv beta iota.
    rewrite fraction_part_e. cbv beta iota. simpl Nat.eqb. cbn [andb].
    rewrite (Hexp _ eq_refl).
    replace (nd - 1) with 0 by lia. rewrite Z.div_1_r.
    change (Z.of_nat 0) with 0. rewrite Z.mul_1_r, Z.add_0_r, Z.sub_0_r.
    replace e10 with x by (unfold e10; lia). reflexivity.
Qed.

(** A positive float is read back from its [repr]. *)
Lemma read_number_float (f : float) (rest : string) :
  float_ok f = true -> 0 < fman f -> delimited rest ->
  read_number (repr_float f ++ rest) = Ok (PFloat f, rest).
Proof.
  intros Hok Hpos Hrest. unfold repr_float.
  destruct (Z.eqb_spec (fman f) 0); [lia|].
  destruct (Z.ltb_spec (fman f) 0); [lia|].
  rewrite Z.abs_eq by lia.
  replace (mkfloat (fman f) (fexp f)) with f by now destruct f.
  pose proof (float_digits_spec f Hok Hpos) as Hd.
  destruct (float_digits f) as [D x]. destruct Hd as [HD Hf].
  cbn [append].
  destruct ((-4 <? ndigits D + x) && (ndigits D + x <=? 16)).
  - rewrite read_number_positional by assumption. now rewrite Hf.
  - rewrite read_number_scientific by assumption. now rewrite Hf.
Qed.
(** ** Reading back what [repr] writes: strings *)

Lemma hex_char_val (d : nat) :
  (d < 16)%nat -> hex_val (hex_char d) = Some d.
Proof.
  intros H.
  do 16 (destruct d as [|d]; [reflexivity|]). lia.
Qed.

Lemma read_str_plain (quote c : ascii) (rest : string) :
  Ascii.eqb c quote = false -> Ascii.eqb c backslash = false ->
  unprintable c = false ->
  read_str quote (String c rest)
  = ('(r, rest') <- read_str quote rest ;; Ok (String c r, rest')).
Proof. intros H1 H2 H3. cbn [read_str]. now rewrite H1, H2, H3. Qed.

Lemma read_str_escaped (quote e : ascii) (rest : string) :
  Ascii.eqb backslash quote = false ->
  Ascii.eqb e backslash || Ascii.eqb e quote1 || Ascii.eqb e quote2 = true ->
  read_str quote (String backslash (String e rest))
  = ('(r, rest') <- read_str quote rest ;; Ok (String e r, rest')).
Proof.
  intros H1 H2. cbn [read_str]. rewrite H1, H2.
  change (Ascii.eqb backslash backslash) with true. reflexivity.
Qed.

Lemma read_str_hex (quote h1 h2 : ascii) (a b : nat) (rest : string) :
  Ascii.eqb backslash quote = false ->
  hex_val h1 = Some a -> hex_val h2 = Some b ->
  read_str quote (String backslash (String "x" (String h1 (String h2 rest))))
  = ('(r, rest') <- read_str quote rest ;;
     Ok (String (ascii_of_nat (16 * a + b)) r, rest')).
Proof.
  intros H1 Ha Hb. cbn [read_str]. rewrite H1, Ha, Hb. reflexivity.
Qed.

Lemma read_str_escape_char (quote c : ascii) (rest : string) :
  quote = quote1 \/ quote = quote2 ->
  read_str quote (escape_char quote c ++ rest)
  = ('(r, rest') <- read_str quote rest ;; Ok (String c r, rest')).
Proof.
  intros Hq.
  assert (Hbq : Ascii.eqb backslash quote = false)
    by (destruct Hq as [->| ->]; reflexivity).
  unfold escape_char.
  destruct (Ascii.eqb_spec c quote) as [->|Hc1].
  { cbn [orb append]. apply read_str_escaped; [assumption|].
    destruct Hq as [->| ->]; reflexivity. }
  destruct (Ascii.eqb_spec c backslash) as [->|Hc2].
  { cbn [orb append]. apply read_str_escaped; [assumption|reflexivity]. }
  cbn [orb].
  destruct (Ascii.eqb_spec c (ascii_of_nat 9)) as [->|Hc3].
  { cbn [append read_str]. rewrite Hbq. reflexivity. }
  destruct (Ascii.eqb_spec c (ascii_of_nat 10)) as [->|Hc4].
  { cbn [append read_str]. rewrite Hbq. reflexivity. }
  destruct (Ascii.eqb_spec c (ascii_of_nat 13)) as [->|Hc5].
  { cbn [append read_str]. rewrite Hbq. reflexivity. }
  destruct (unprintable c) eqn:Hu.
  - cbn [append].
    pose proof (nat_ascii_bounded c) as Hb.
    rewrite (read_str_hex quote _ _ (nat_of_ascii c / 16) (nat_of_ascii c mod 16));
      [|assumption| |].
    + rewrite <- Nat.div_mod by lia. rewrite ascii_nat_embedding. reflexivity.
    + apply hex_char_val. apply Nat.Div0.div_lt_upper_bound. lia.
    + apply hex_char_val. apply Nat.mod_upper_bound. lia.
  - cbn [append]. apply read_str_plain; [now apply Ascii.eqb_neq..|exact Hu].
Qed.

Lemma read_str_escape (quote : ascii) (s rest : string) :
  quote = quote1 \/ quote = quote2 ->
  read_str quote (escape quote s ++ String quote rest) = Ok (s, rest).
Proof.
  intros Hq. induction s as [|c s IH].
  - cbn [escape append read_str]. now rewrite Ascii.eqb_refl.
  - cbn [escape]. rewrite append_assoc, read_str_escape_char, IH by assumption.
    reflexivity.
Qed.

(** ** Reading back what [repr] writes: tokens *)

Lemma parse_value_S (fuel : nat) (s : string) :
  parse_value (S fuel) s =
  match skip_spaces s with
  | EmptyString => Raise Unmodelled
  | String c s' =>
      if Ascii.eqb c "(" then
        '(items, comma, rest) <- parse_items fuel ")" s' ;;
        match items, comma with
        | [x], false => Ok (x, rest)
        | _, _ => Ok (PTuple items, rest)
        end
      else if Ascii.eqb c "[" then
        '(items, _, rest) <- parse_items fuel "]" s' ;;
        Ok (PList items, rest)
      else if Ascii.eqb c quote1 || Ascii.eqb c quote2 then
        '(str, rest) <- read_str c s' ;; Ok (PStr str, rest)
      else if Ascii.eqb c "-" then
        '(v, rest) <- read_number s' ;;
        v' <- negate v ;; Ok (v', rest)
      else if is_digit c || Ascii.eqb c "." then read_number (String c s')
      else
        match starts_None (String c s') with
        | Some rest => Ok (PNone, rest)
        | None =>
            match starts_Fraction (String c s') with
            | Some r => r
            | None => Raise Unmodelled
            end
        end
  end.
Proof. reflexivity. Qed.

Lemma parse_items_S (fuel : nat) (close : ascii) (s : string) :
  parse_items (S fuel) close s =
  match skip_spaces s with
  | EmptyString => Raise Unmodelled
  | String c s' =>
      if Ascii.eqb c close then Ok ([], false, s')
      else
        '(v, rest) <- parse_value fuel (String c s') ;;
        match skip_spaces rest with
        | EmptyString => Raise Unmodelled
        | String c2 rest' =>
            if Ascii.eqb c2 "," then
              '(vs, _, rest'') <- parse_items fuel close rest' ;;
              Ok (v :: vs, true, rest'')
            else if Ascii.eqb c2 close then Ok ([v], false, rest')
            else Raise Unmodelled
        end
  end.
Proof. reflexivity. Qed.

Lemma skip_spaces_head (c : ascii) (s : string) :
  Ascii.eqb c " " = false -> skip_spaces (String c s) = String c s.
Proof. intros H. cbn [skip_spaces]. now rewrite H. Qed.

Lemma reads_more (x : string) (v : pyval) (n m : nat) :
  reads x v n -> reads x v (n + m).
Proof.
  intros [Hhead H]. split; [exact Hhead|].
  intros fuel rest Hrest. rewrite <- Nat.add_assoc. now apply H.
Qed.

Lemma reads_str (s : string) : reads (repr_str s) (PStr s) 1.
Proof.
  unfold repr_str.
  set (quote := if contains quote1 s && negb (contains quote2 s)
                then quote2 else quote1).
  assert (Hq : quote = quote1 \/ quote = quote2)
    by (unfold quote; destruct (_ && _); auto).
  split.
  - exists quote, (escape quote s ++ String quote "")%string.
    split; [reflexivity|]. destruct Hq as [->| ->]; split; reflexivity.
  - intros fuel rest _. cbn [Nat.add append].
    rewrite append_assoc. cbn [append].
    rewrite parse_value_S, skip_spaces_head
      by (destruct Hq as [->| ->]; reflexivity).
    replace (Ascii.eqb quote "(") with false
      by (destruct Hq as [->| ->]; reflexivity).
    replace (Ascii.eqb quote "[") with false
      by (destruct Hq as [->| ->]; reflexivity).
    replace (Ascii.eqb quote quote1 || Ascii.eqb quote quote2) with true
      by (destruct Hq as [->| ->]; reflexivity).
    rewrite read_str_escape by assumption. reflexivity.
Qed.

Lemma is_digit_head (c : ascii) :
  is_digit c = true ->
  Ascii.eqb c " " = false /\ Ascii.eqb c ")" = false /\
  Ascii.eqb c "(" = false /\ Ascii.eqb c "[" = false /\
  Ascii.eqb c quote1 = false /\ Ascii.eqb c quote2 = false /\
  Ascii.eqb c "-" = false.
Proof.
  intros H.
  repeat split;
    match goal with
    | |- Ascii.eqb c ?x = false =>
        destruct (Ascii.eqb_spec c x) as [->|]; [discriminate H|reflexivity]
    end.
Qed.

Lemma repr_float_head (f : float) :
  float_ok f = true -> 0 <= fman f ->
  exists c s, repr_float f = String c s /\ is_digit c = true.
Proof.
  intros Hok Hpos. unfold repr_float.
  destruct (Z.eqb_spec (fman f) 0); [exists "0"%char, ".0"%string; auto|].
  destruct (Z.ltb_spec (fman f) 0); [lia|].
  rewrite Z.abs_eq by lia.
  replace (mkfloat (fman f) (fexp f)) with f by now destruct f.
  pose proof (float_digits_spec f Hok ltac:(lia)) as Hd.
  destruct (float_digits f) as [D x]. destruct Hd as [HD _].
  cbn [append].
  destruct ((-4 <? ndigits D + x) && (ndigits D + x <=? 16)).
  - unfold positional. destruct (Z.leb_spec 0 x).
    + destruct (digits_of_head (D * 10 ^ x)) as (c & s & -> & Hc).
      { apply Z.mul_nonneg_nonneg; [lia|]. apply Z.pow_nonneg. lia. }
      cbn [append]. eauto.
    + destruct (digits_of_head (D / 10 ^ (- x))) as (c & s & -> & Hc).
      { apply Z.div_pos; [lia|]. apply pow10_pos. lia. }
      cbn [append]. eauto.
  - unfold scientific.
    destruct (digits_fixed_head 0 (D / 10 ^ (ndigits D - 1)))
      as (c & s & -> & Hc).
    { pose proof (ndigits_pos D HD).
      apply Z.div_pos; [lia|]. apply Z.pow_pos_nonneg; lia. }
    cbn [append]. eauto.
Qed.

Lemma reads_float (f : float) :
  float_ok f = true -> reads (repr_float f) (PFloat f) 1.
Proof.
  intros Hok. destruct (Z.ltb_spec (fman f) 0) as [Hneg|Hpos].
  - (* a minus sign, then the float of the absolute value *)
    set (g := mkfloat (- fman f) (fexp f)).
    assert (Hg : float_ok g = true).
    { unfold float_ok in *. cbn [fman fexp g].
      destruct (Z.eqb_spec (fman f) 0); [lia|].
      destruct (Z.eqb_spec (- fman f) 0); [lia|].
      now rewrite Z.odd_opp, Z.abs_opp. }
    assert (E : repr_float f = String "-" (repr_float g)).
    { unfold repr_float. cbn [fman fexp g].
      destruct (Z.eqb_spec (fman f) 0); [lia|].
      destruct (Z.eqb_spec (- fman f) 0); [lia|].
      destruct (Z.ltb_spec (fman f) 0); [|lia].
      destruct (Z.ltb_spec (- fman f) 0); [lia|].
      rewrite Z.abs_opp. destruct (float_digits _) as [D x]. reflexivity. }
    rewrite E. split.
    + exists "-"%char, (repr_float g). repeat split; reflexivity.
    + intros fuel rest Hrest. cbn [Nat.add append].
      rewrite parse_value_S. cbn [skip_spaces]. cbv beta iota.
      change (Ascii.eqb "-" " ") with false. cbv iota.
      change (Ascii.eqb "-" "(") with false.
      change (Ascii.eqb "-" "[") with false.
      change (Ascii.eqb "-" quote1 || Ascii.eqb "-" quote2) with false.
      change (Ascii.eqb "-" "-") with true. cbv iota.
      rewrite read_number_float;
        [|assumption|cbn [fman g]; lia|assumption].
      cbn [bind negate]. unfold g at 1. cbn [fman].
      destruct (Z.eqb_spec (- fman f) 0); [lia|].
      cbn [bind]. unfold float_neg, g. cbn [fman fexp].
      rewrite Z.opp_involutive. now destruct f.
  - destruct (repr_float_head f Hok Hpos) as (c & s & E & Hc).
    destruct (is_digit_head c Hc) as (H1 & H2 & H3 & H4 & H5 & H6 & H7).
    split.
    + exists c, s. auto.
    + intros fuel rest Hrest. cbn [Nat.add].
      rewrite parse_value_S. rewrite E at 1. cbn [append].
      rewrite skip_spaces_head by assumption.
      rewrite H3, H4, H5, H6, H7, Hc. cbn [orb].
      change (String c (s ++ rest)) with (String c s ++ rest)%string.
      rewrite <- E.
      destruct (Z.eq_dec (fman f) 0) as [Hz|Hz].
      * assert (Hf : f = mkfloat 0 0).
        { unfold float_ok in Hok. rewrite Hz in Hok. simpl in Hok.
          apply Z.eqb_eq in Hok. destruct f; simpl in *. congruence. }
        rewrite Hf.
        change (repr_float (mkfloat 0 0)) with (positional 0 0).
        unfold positional, read_number. cbn [Z.leb Z.compare].
        cbv beta iota. cbn [append]. change (0 * 10 ^ 0) with 0.
        change (digits_of 0) with "0"%string. cbn [append].
        rewrite read_digits_zero, read_digits_dot. cbv beta iota.
        rewrite fraction_part_dot, read_digits_zero.
        rewrite read_digits_stop by now apply delimited_not_digit.
        cbv beta iota. simpl Nat.eqb. cbn [andb].
        rewrite exponent_part_none by assumption. reflexivity.
      * apply read_number_float; [assumption|lia|assumption].
Qed.

Lemma reads_None : reads "None" PNone 1.
Proof.
  split.
  - exists "N"%char, "one"%string. repeat split; reflexivity.
  - intros fuel rest Hrest. cbn [Nat.add append].
    rewrite parse_value_S.
    destruct rest as [|c rest]; [reflexivity|].
    destruct Hrest as [Hd Ha].
    cbn [skip_spaces]. change (Ascii.eqb "N" " ") with false. cbv iota.
    change (Ascii.eqb "N" "(") with false.
    change (Ascii.eqb "N" "[") with false.
    change (Ascii.eqb "N" quote1 || Ascii.eqb "N" quote2) with false.
    change (Ascii.eqb "N" "-") with false.
    change (is_digit "N" || Ascii.eqb "N" ".") with false. cbv iota.
    unfold starts_None. rewrite Ha, Hd. reflexivity.
Qed.

Lemma parse_items_space (fuel : nat) (close : ascii) (s : string) :
  parse_items fuel close (String " " s) = parse_items fuel close s.
Proof. destruct fuel; [reflexivity|]. now rewrite !parse_items_S. Qed.

Lemma delimited_comma (rest : string) : delimited (String "," rest).
Proof. split; reflexivity. Qed.

Lemma delimited_close (rest : string) : delimited (String ")" rest).
Proof. split; reflexivity. Qed.

(** The items of a display, written with ", " between them, up to the
    closing parenthesis. *)
Lemma parse_items_reads (n : nat) (xs : list string) (vs : list pyval) :
  Forall2 (fun x v => reads x v n) xs vs -> xs <> [] ->
  forall fuel rest,
    parse_items (List.length xs + (n + fuel)) ")"
                (join ", " xs ++ String ")" rest)
    = Ok (vs, (1 <? List.length xs)%nat, rest).
Proof.
  induction 1 as [|x v xs vs Hx Hxs IH]; intros Hne fuel rest; [congruence|].
  destruct Hx as [(c & s & -> & Hc1 & Hc2) Hread].
  cbn [List.length Nat.add]. rewrite parse_items_S.
  destruct xs as [|x2 xs].
  - inversion Hxs; subst. cbn [join append].
    rewrite skip_spaces_head by assumption. rewrite Hc2.
    change (String c (s ++ String ")" rest))
      with (String c s ++ String ")" rest)%string.
    cbn [List.length Nat.add].
    rewrite Hread by apply delimited_close. cbn [bind skip_spaces].
    reflexivity.
  - change (join ", " (String c s :: x2 :: xs))
      with (String c s ++ ", " ++ join ", " (x2 :: xs))%string.
    rewrite !append_assoc. cbn [append].
    rewrite skip_spaces_head by assumption. rewrite Hc2.
    change (String c (s ++ String "," (String " " (join ", " (x2 :: xs)
                                                   ++ String ")" rest))))
      with (String c s ++ String "," (String " " (join ", " (x2 :: xs)
                                                   ++ String ")" rest)))%string.
    replace (List.length (x2 :: xs) + (n + fuel))%nat
      with (n + (List.length (x2 :: xs) + fuel))%nat by lia.
    rewrite Hread by apply delimited_comma. cbn [bind skip_spaces].
    change (Ascii.eqb "," " ") with false. cbv iota.
    change (Ascii.eqb "," ",") with true. cbv iota.
    rewrite parse_items_space.
    replace (n + (List.length (x2 :: xs) + fuel))%nat
      with (List.length (x2 :: xs) + (n + fuel))%nat by lia.
    rewrite IH by congruence. reflexivity.
Qed.

(** A tuple of two items or more. *)
Lemma reads_tuple (n : nat) (xs : list string) (vs : list pyval) :
  Forall2 (fun x v => reads x v n) xs vs -> (1 < List.length xs)%nat ->
  reads ("(" ++ join ", " xs ++ ")") (PTuple vs) (S (List.length xs + n)).
Proof.
  intros Hall Hlen. split.
  - eexists _, _. repeat split; reflexivity.
  - intros fuel rest _. cbn [Nat.add append].
    rewrite append_assoc. cbn [append].
    rewrite parse_value_S. cbn [skip_spaces].
    change (Ascii.eqb "(" " ") with false. cbv iota.
    change (Ascii.eqb "(" "(") with true. cbv iota.
    rewrite <- Nat.add_assoc.
    rewrite (parse_items_reads n xs vs Hall) by (destruct xs; simpl in *; [lia|congruence]).
    cbn [bind].
    replace (1 <? List.length xs)%nat with true
      by (symmetry; apply Nat.ltb_lt; exact Hlen).
    now destruct vs as [|? [|? ?]].
Qed.

(** The entries that [str] and [make_tuple] carry faithfully: [None], or a
    name with a float. *)
Lemma reads_entry (e : option (string * qlen)) :
  match e with
  | Some (_, QFloat f) => float_ok f = true
  | Some (_, QFraction _ _) => False
  | None => True
  end ->
  reads (repr (pyval_of_entry e)) (pyval_of_entry e) 4.
Proof.
  destruct e as [[name [f|]]|]; intros H; [|contradiction|].
  - apply (reads_tuple 1 [repr_str name; repr_float f] [PStr name; PFloat f]).
    + apply Forall2_cons; [apply reads_str|].
      apply Forall2_cons; [now apply reads_float|apply Forall2_nil].
    + simpl. lia.
  - apply (reads_more "None" PNone 1 3 reads_None).
Qed.

Lemma length_append (a b : string) :
  String.length (a ++ b) = (String.length a + String.length b)%nat.
Proof. induction a as [|c a IH]; simpl; [reflexivity|now rewrite IH]. Qed.

Lemma append_empty (a : string) : (a ++ "")%string = a.
Proof. induction a as [|c a IH]; simpl; [reflexivity|now rewrite IH]. Qed.

Lemma literal_state_entries (j : JointState) :
  literal_state j = true <-> forall voice, literal_entry (getitem j voice) = true.
Proof.
  unfold literal_state, values, keys. simpl. rewrite !andb_true_iff. split.
  - intros (H1 & H2 & H3 & H4 & _) []; assumption.
  - intros H. pose proof (H Soprano). pose proof (H Alto).
    pose proof (H Tenor). pose proof (H Bass). auto.
Qed.

Lemma literal_entry_reads (e : option (string * qlen)) :
  literal_entry e = true -> reads (repr (pyval_of_entry e)) (pyval_of_entry e) 4.
Proof.
  intros H. apply reads_entry. destruct e as [[name [f|]]|]; simpl in *; auto.
  discriminate.
Qed.

Lemma not_blank_match (X : Type) (c : ascii) (s : string) (a b : X) :
  Ascii.eqb c " " = false ->
  match String c s with
  | String " " _ => a
  | _ => b
  end = b.
Proof.
  intros H. destruct c as [[] [] [] [] [] [] [] []]; try reflexivity.
  discriminate H.
Qed.

(** A text that [parse_value] reads in full is evaluated to its value,
    unless it holds a call. *)
Lemma make_tuple_reads (x : string) (v : pyval) (n : nat) :
  reads x v n -> (n <= 2 * String.length x + 2)%nat ->
  make_tuple x = (if has_call v then Raise ValueError else Ok v).
Proof.
  intros [(c & s & -> & Hc & _) Hr] Hn. unfold make_tuple.
  rewrite (not_blank_match _ c s _ _ Hc).
  replace (2 * String.length (String c s) + 2)%nat
    with (n + (2 * String.length (String c s) + 2 - n))%nat by lia.
  rewrite <- (append_empty (String c s)) at 2.
  now rewrite Hr by exact I.
Qed.

Lemma has_call_entry (e : option (string * qlen)) :
  literal_entry e = true -> has_call (pyval_of_entry e) = false.
Proof. destruct e as [[name [f|n d]]|]; [reflexivity|discriminate|reflexivity]. Qed.

(** The codec round trip: the token of a joint state of literals evaluates
    to the state. *)
Lemma make_tuple_str_state (j : JointState) :
  literal_state j = true -> make_tuple (str_state j) = Ok (pyval_of_state j).
Proof.
  intros H. rewrite literal_state_entries in H.
  unfold str_state, pyval_of_state, values, keys. cbn [map].
  set (es := [pyval_of_entry (getitem j Soprano); pyval_of_entry (getitem j Alto);
              pyval_of_entry (getitem j Tenor); pyval_of_entry (getitem j Bass)]).
  change (repr (PTuple es)) with ("(" ++ join ", " (map repr es) ++ ")")%string.
  assert (Hr : reads ("(" ++ join ", " (map repr es) ++ ")") (PTuple es) 9).
  { apply (reads_tuple 4 (map repr es) es); [|simpl; lia].
    unfold es. cbn [map].
    repeat (apply Forall2_cons; [apply literal_entry_reads, H|]).
    apply Forall2_nil. }
  rewrite (make_tuple_reads _ _ 9 Hr).
  - unfold es. cbn [has_call existsb].
    now rewrite !has_call_entry by apply H.
  - unfold es. cbn [map join]. cbn [append String.length].
    rewrite !length_append. cbn [String.length]. lia.
Qed.

Lemma valid_stream_cons (ev : Event) (s : list Event) :
  valid_stream (ev :: s) = true -> valid_event ev = true /\ valid_stream s = true.
Proof. simpl. apply andb_true_iff. Qed.

Lemma advance_literal (voices : list Voice) (l l' : gen_locals) :
  NoDup voices ->
  (forall voice, valid_stream (getitem (streams l) voice) = true) ->
  literal_state (state l) = true ->
  advance voices l = Ok l' ->
  (forall voice, valid_stream (getitem (streams l') voice) = true) /\
  literal_state (state l') = true.
Proof.
  intros Hnd Hs Hj Hadv.
  destruct (advance_spec voices Hnd l l' Hadv) as [Hin Hout].
  rewrite literal_state_entries in *.
  assert (H : forall voice,
             valid_stream (getitem (streams l') voice) = true /\
             literal_entry (getitem (state l') voice) = true).
  { intros voice. specialize (Hs voice). specialize (Hj voice).
    destruct (in_dec Voice_eq_dec voice voices) as [Hv|Hv].
    - destruct (Hin voice Hv) as (elem & [q] & rest & d & H1 & H2 & H3 & H4 & _).
      rewrite H1 in Hs. apply valid_stream_cons in Hs as [Hev Hrest].
      rewrite H2, H3. split; [exact Hrest|].
      unfold valid_event in Hev. simpl in *.
      destruct q; [exact Hev|discriminate].
    - destruct (Hout voice Hv) as (-> & -> & _). auto. }
  split; intros voice; apply H.
Qed.

(** Every joint state that the generator yields is made of literals. *)
Lemma gen_loop_literal (fuel : nat) :
  forall l g,
    (forall voice, valid_stream (getitem (streams l) voice) = true) ->
    literal_state (state l) = true ->
    gen_loop fuel l = Some g ->
    Forall (fun l' => literal_state (state l') = true) (yields g).
Proof.
  induction fuel as [|fuel IH]; intros l g Hs Hj H; [discriminate|].
  simpl in H. destruct (gen_body l) as [l'|e] eqn:E.
  - destruct (gen_loop fuel l') as [g'|] eqn:E'; [|discriminate].
    injection H as <-. cbn [yields].
    destruct (advance_literal _ l l' (min_voices_NoDup _) Hs Hj E) as [Hs' Hj'].
    constructor; [exact Hj'|]. now apply (IH l').
  - injection H as <-. constructor.
Qed.

(** ** The Expander replays the Synchronizer *)

Lemma music21_stream_cons (ev : Event) (s : list Event) :
  music21_stream (ev :: s) = true ->
  music21_event ev = true /\ music21_stream s = true.
Proof. simpl. apply andb_true_iff. Qed.

Lemma music21_stream_valid (s : list Event) :
  music21_stream s = true -> valid_stream s = true.
Proof.
  unfold music21_stream, valid_stream. rewrite !forallb_forall.
  intros H ev Hev. specialize (H ev Hev).
  unfold music21_event in H. unfold valid_event.
  apply andb_true_iff in H as [_ H].
  destruct (quarterLength (snd ev)); [|reflexivity].
  now rewrite !andb_true_iff in H.
Qed.

(** A turn of the Synchronizer leaves every voice a part of its stream. *)
Lemma gen_body_music21 (l l' : gen_locals) :
  gen_body l = Ok l' ->
  (forall voice, music21_stream (getitem (streams l) voice) = true) ->
  forall voice, music21_stream (getitem (streams l') voice) = true.
Proof.
  intros H Hs voice. unfold gen_body in H.
  destruct (advance_spec _ (min_voices_NoDup _) _ _ H) as [Hin Hout].
  destruct (in_dec Voice_eq_dec voice (min_voices (counter l))) as [Hv|Hv].
  - destruct (Hin voice Hv) as (elem & dur & rest & d & H1 & H2 & _).
    specialize (Hs voice). rewrite H1 in Hs.
    apply music21_stream_cons in Hs as [_ Hs]. now rewrite H2.
  - destruct (Hout voice Hv) as [-> _]. apply Hs.
Qed.

(** The note that music21 makes of an event it has given: the same name,
    the same duration. *)
Lemma make_note_event (elem : string) (f : float) :
  music21_event (elem, mkDuration (QFloat f)) = true ->
  make_note (PStr elem) (PFloat f)
  = Ok (note_of_event (elem, mkDuration (QFloat f))).
Proof.
  unfold music21_event. cbn [fst snd quarterLength].
  intros H. apply andb_true_iff in H as [Hname Hf].
  unfold make_note, note_of_event, make_Duration. rewrite Hf.
  cbn [bind is_rest fst snd].
  destruct (String.eqb elem "rest"); [reflexivity|].
  cbn [orb] in Hname. now rewrite Hname.
Qed.

Lemma timeline_notes (voice : Voice) (s : list Event) :
  timeline (Instrument voice :: map note_of_event s) = s.
Proof.
  unfold timeline. simpl. induction s as [|[elem dur] s IH]; [reflexivity|].
  simpl. rewrite IH. unfold note_of_event. simpl.
  destruct (String.eqb_spec elem "rest") as [->|]; reflexivity.
Qed.

(** The two inner loops side by side: on the voices that [advance] moves,
    [append_notes] appends the note of the event each has just pulled,
    provided the state that it reads holds that event. *)
Lemma advance_append_notes (voices : list Voice) :
  NoDup voices ->
  forall l l' m,
    advance voices l = Ok l' ->
    m_counter m = counter l ->
    (forall voice, music21_stream (getitem (streams l) voice) = true) ->
    (forall voice elem dur rest,
       In voice voices ->
       getitem (streams l) voice = (elem, dur) :: rest ->
       getitem (current_state m) voice
       = pyval_of_entry (Some (elem, quarterLength dur))) ->
    exists m',
      append_notes voices m = Ok m' /\
      m_counter m' = counter l' /\
      forall voice,
        (In voice voices ->
         exists ev rest,
           getitem (streams l) voice = ev :: rest /\
           getitem (parts m') voice = getitem (parts m) voice ++ [note_of_event ev]) /\
        (~ In voice voices ->
         getitem (parts m') voice = getitem (parts m) voice).
Proof.
  induction 1 as [|v voices Hv Hnd IH]; intros l l' m Hadv Hc Hm21 Hcs.
  - exists m. simpl in *. injection Hadv as <-. repeat split; tauto.
  - cbn [advance] in Hadv.
    destruct (getitem (streams l) v) as [|[elem [q]] rest] eqn:Es; [discriminate|].
    apply bind_Ok in Hadv as [d [Hd Hadv]]. cbn [quarterLength] in *.
    destruct q as [f|]; [|discriminate]. injection Hd as <-.
    pose proof (Hm21 v) as Hev. rewrite Es in Hev.
    apply music21_stream_cons in Hev as [Hev Hrest].
    cbn [append_notes].
    rewrite (Hcs v elem (mkDuration (QFloat f)) rest (or_introl eq_refl) Es).
    cbn [pyval_of_entry pyval_of_qlen quarterLength unpack2 iterate bind].
    rewrite (make_note_event elem f Hev). cbn [bind Decimal_of_pyval].
    rewrite Hc.
    match goal with
    | |- context [append_notes voices ?m1] =>
        destruct (IH _ l' m1 Hadv) as (m' & Happ & Hc' & Hparts)
    end.
    + reflexivity.
    + intros voice. cbn [streams].
      destruct (Voice_eq_dec v voice) as [<-|Hne].
      * now rewrite getitem_setitem_same.
      * rewrite getitem_setitem_other by assumption. apply Hm21.
    + intros voice e' d' r' Hin Hs'. cbn [current_state streams] in *.
      assert (v <> voice) by congruence.
      rewrite getitem_setitem_other in Hs' by assumption.
      apply (Hcs voice e' d' r'); [now right|assumption].
    + rewrite Happ. exists m'. split; [reflexivity|]. split; [exact Hc'|].
      intros voice. destruct (Hparts voice) as [Hin Hout].
      cbn [parts streams] in Hin, Hout. split.
      * intros [->|Hvoice].
        -- rewrite Hout by assumption. rewrite getitem_setitem_same. eauto.
        -- assert (v <> voice) by congruence.
           destruct (Hin Hvoice) as (ev & r & H1 & H2).
           rewrite !getitem_setitem_other in * by assumption. eauto.
      * intros Hn. simpl in Hn. rewrite Hout by tauto.
        apply getitem_setitem_other. tauto.
Qed.

Lemma pyval_of_state_entries (j : JointState) :
  unpack4 (pyval_of_state j)
  = Ok (pyval_of_entry (getitem j Soprano), pyval_of_entry (getitem j Alto),
        pyval_of_entry (getitem j Tenor), pyval_of_entry (getitem j Bass)).
Proof. reflexivity. Qed.

(** One turn of each loop: the Expander, given the token of the state
    that the Synchronizer yields, follows it. *)
Lemma music_body_follows (S0 : dict (list Event)) (l l' : gen_locals)
  (m : music_locals) :
  gen_body l = Ok l' ->
  (forall voice, music21_stream (getitem (streams l) voice) = true) ->
  literal_state (state l') = true ->
  follows S0 l m ->
  exists m', music_body m (str_state (state l')) = Ok m' /\ follows S0 l' m'.
Proof.
  intros Hbody Hm21 Hlit [Hc Hpre]. unfold gen_body in Hbody.
  pose proof (min_voices_NoDup (counter l)) as Hnd.
  destruct (advance_spec _ Hnd l l' Hbody) as [Hin Hout].
  unfold music_body. rewrite (make_tuple_str_state _ Hlit). cbn [bind].
  unfold music_body_value. rewrite pyval_of_state_entries. cbn [bind].
  set (m1 := assign_state m _ _ _ _).
  destruct (advance_append_notes _ Hnd l l' m1 Hbody) as (m' & Happ & Hc' & Hparts).
  - exact Hc.
  - exact Hm21.
  - intros voice elem dur rest Hv Hs.
    destruct (Hin voice Hv) as (e' & d' & r' & dd & H1 & _ & H3 & _).
    rewrite Hs in H1. injection H1 as <- <- <-.
    unfold m1, assign_state. cbn [current_state].
    rewrite <- H3. now destruct voice.
  - exists m'. change (m_counter m1) with (m_counter m). rewrite Hc.
    split; [exact Happ|]. split; [exact Hc'|].
    intros voice. destruct (Hpre voice) as (pre & Hpre1 & Hpre2).
    destruct (Hparts voice) as [Hpin Hpout].
    change (parts m1) with (parts m) in Hpin, Hpout.
    destruct (in_dec Voice_eq_dec voice (min_voices (counter l))) as [Hv|Hv].
    + destruct (Hpin Hv) as (ev & rest & Hs & Hp).
      destruct (Hin voice Hv) as (e' & d' & r' & dd & H1 & H2 & _).
      rewrite Hs in H1. injection H1 as -> ->.
      exists (pre ++ [(e', d')]). rewrite H2, Hp, Hpre2, Hpre1, Hs.
      rewrite map_app, <- app_assoc. split; reflexivity.
    + destruct (Hout voice Hv) as (-> & _). exists pre.
      rewrite (Hpout Hv). auto.
Qed.

(** The whole run: the Expander, fed the tokens of the states that the
    Synchronizer yields, ends where the Synchronizer's last yield was. *)
Lemma music_loop_follows (S0 : dict (list Event)) (fuel : nat) :
  forall l g m,
    gen_loop fuel l = Some g ->
    (forall voice, music21_stream (getitem (streams l) voice) = true) ->
    literal_state (state l) = true ->
    follows S0 l m ->
    exists m',
      music_loop (map str_state (joint_states g)) m = Ok m' /\
      follows S0 (last (yields g) l) m'.
Proof.
  induction fuel as [|fuel IH]; intros l g m H Hs Hj Hf; [discriminate|].
  simpl in H. destruct (gen_body l) as [l'|e] eqn:E.
  - destruct (gen_loop fuel l') as [g'|] eqn:E'; [|discriminate].
    injection H as <-.
    destruct (advance_literal _ l l' (min_voices_NoDup _)
                (fun voice => music21_stream_valid _ (Hs voice)) Hj E)
      as [_ Hj'].
    pose proof (gen_body_music21 l l' E Hs) as Hs'.
    destruct (music_body_follows S0 l l' m E Hs Hj' Hf) as (m1 & Hm1 & Hf1).
    destruct (IH l' g' m1 E' Hs' Hj' Hf1) as (m' & Hm' & Hf').
    exists m'. unfold joint_states. cbn [yields map music_loop].
    rewrite Hm1. cbn [bind]. split; [exact Hm'|].
    rewrite last_cons. exact Hf'.
  - injection H as <-. exists m. split; [reflexivity|exact Hf].
Qed.

(** ** The codec round trip (C1) *)

(** C1, as amended.  Round-trip law of the joint-state codec.  For every
    joint state whose entries are [None] or a name with a float, evaluating
    the token gives the state back, the same names and the same floats; and
    every joint state that the Synchronizer yields is such a state, since a
    Fraction never gets past [Decimal]. *)
Theorem codec_round_trip :
  (forall j,
     literal_state j = true ->
     make_tuple (str_state j) = Ok (pyval_of_state j)) /\
  (forall S A T B g j,
     valid_stream S = true -> valid_stream A = true ->
     valid_stream T = true -> valid_stream B = true ->
     gen_states S A T B = Some g ->
     In j (joint_states g) ->
     literal_state j = true).
Proof.
  split; [exact make_tuple_str_state|].
  intros S A T B g j HS HA HT HB Hg Hj.
  unfold gen_states in Hg.
  apply gen_loop_literal in Hg; [|intros []; assumption|reflexivity].
  unfold joint_states in Hj. apply in_map_iff in Hj as (l & <- & Hl).
  rewrite Forall_forall in Hg. now apply Hg.
Qed.

(** C1 as stated fails for a triplet.  Its duration is a Fraction: the
    Synchronizer assigns the entry and raises before it yields, and the
    token of the state is the text of a call, which [make_tuple] refuses:
    the state is not read back. *)
Lemma codec_counterexample :
  valid_stream Triplet.stream = true /\
  gen_states Triplet.stream Triplet.stream Triplet.stream Triplet.stream
  = Some (mkgenerated [] TypeError) /\
  str_state Triplet.state = Triplet.token /\
  make_tuple Triplet.token = Raise ValueError.
Proof. repeat split; vm_compute; reflexivity. Qed.

(** ** The Expander inverts the Synchronizer (C2) *)

Lemma exact_valid_stream (k : Z) (s : list Event) :
  exact_stream k s = true -> valid_stream s = true.
Proof.
  unfold exact_stream, valid_stream. rewrite !forallb_forall.
  intros H ev Hin. specialize (H ev Hin).
  destruct (exact_event_float _ _ H) as (f & Hq & Hok & _).
  unfold valid_event. now rewrite Hq.
Qed.

Lemma follows_init (S A T B : list Event) :
  follows (mkdict S A T B) (gen_init S A T B) music_init.
Proof. split; [reflexivity|]. intros []; exists []; split; reflexivity. Qed.

Lemma exact_music21_stream (k : Z) (s : list Event) :
  k <= 15 -> exact_stream k s = true -> named_stream s = true ->
  music21_stream s = true.
Proof.
  unfold exact_stream, named_stream, music21_stream. rewrite !forallb_forall.
  intros Hk H Hn ev Hin. specialize (H ev Hin). specialize (Hn ev Hin).
  unfold music21_event. unfold named_event in Hn. rewrite Hn. cbn [andb].
  destruct (exact_event_float _ _ H) as (f & -> & Hok & Hpos & Hexp).
  rewrite Hok. cbn [andb]. apply andb_true_iff. split.
  - now apply Z.ltb_lt.
  - apply Z.leb_le. lia.
Qed.

(** On the streams of music21 the Expander rebuilds for every voice the
    events that the Synchronizer has emitted: the consumed part of its
    stream. *)
Lemma expander_follows (S A T B : list Event) (g : generated) :
  music21_stream S = true -> music21_stream A = true ->
  music21_stream T = true -> music21_stream B = true ->
  gen_states S A T B = Some g ->
  exists m,
    music_loop (map str_state (joint_states g)) music_init = Ok m /\
    follows (mkdict S A T B) (last (yields g) (gen_init S A T B)) m.
Proof.
  intros HS HA HT HB Hg. unfold gen_states in Hg.
  apply (music_loop_follows (mkdict S A T B) _ _ g music_init Hg).
  - intros []; assumption.
  - reflexivity.
  - apply follows_init.
Qed.

(** C2, as amended.  For four streams as music21 gives them, with the
    names of rests and pitches and with positive float durations that are
    multiples of [2^-k] ([k] up to 15, the floats that music21 keeps), of
    equal total duration below [10^(28-k)], the Synchronizer runs until
    every stream is used up, and the Expander, fed the tokens of the
    yielded states, rebuilds the four streams event for event. *)
Theorem expander_inverts_synchronizer (k : Z) (S A T B : list Event) :
  0 <= k <= 15 ->
  exact_stream k S = true -> exact_stream k A = true ->
  exact_stream k T = true -> exact_stream k B = true ->
  named_stream S = true -> named_stream A = true ->
  named_stream T = true -> named_stream B = true ->
  equal_totals S A T B ->
  (duration_sum S < inject_Z (10 ^ (prec - k)))%Q ->
  rebuilt S A T B.
Proof.
  intros Hk HS HA HT HB NS NA NT NB (EA & ET & EB) Hlt.
  assert (Hk' : 0 <= k <= prec) by (unfold prec; lia).
  destruct (gen_states_exact k S A T B Hk' HS HA HT HB EA ET EB Hlt)
    as (g & Hg & _ & Hlast).
  destruct (expander_follows S A T B g) as (m & Hm & _ & Hparts);
    try (apply (exact_music21_stream k); [lia|assumption|assumption]);
    [exact Hg|].
  exists g, (make_score (parts m)). split; [exact Hg|].
  unfold make_music. rewrite Hm. split; [reflexivity|].
  assert (H : forall voice,
             timeline (getitem (parts m) voice) = getitem (mkdict S A T B) voice).
  { intros voice. destruct (Hparts voice) as (pre & H1 & H2).
    rewrite Hlast, app_nil_r in H1. rewrite H2, H1. apply timeline_notes. }
  unfold make_score, keys. cbn [map snd].
  rewrite (H Soprano), (H Alto), (H Tenor), (H Bass). reflexivity.
Qed.

Lemma expander_inverts_witness :
  rebuilt Scenario.Soprano_stream Scenario.Alto_stream
          Scenario.Tenor_stream Scenario.Bass_stream.
Proof.
  apply (expander_inverts_synchronizer 0); try reflexivity.
  - lia.
  - repeat split; reflexivity.
Defined.

(** C2 as stated fails outside exact arithmetic.  A triplet makes the
    Synchronizer raise TypeError before its first yield, so nothing is
    rebuilt; and on floats whose sums Decimal rounds ([2.0 ** 80] and
    [2.0 ** -15], which music21 keeps), the counters tie too early: the
    last event of Soprano is pulled but never yielded, and with two states
    only the part of Soprano cannot hold its two events. *)
Lemma expander_counterexample :
  (positive_stream Triplet.stream /\
   equal_totals Triplet.stream Triplet.stream Triplet.stream Triplet.stream /\
   gen_states Triplet.stream Triplet.stream Triplet.stream Triplet.stream
   = Some (mkgenerated [] TypeError) /\
   ~ rebuilt Triplet.stream Triplet.stream Triplet.stream Triplet.stream) /\
  (positive_stream Drift.Soprano_stream /\
   positive_stream Drift.other_stream /\
   music21_stream Drift.Soprano_stream = true /\
   music21_stream Drift.other_stream = true /\
   equal_totals Drift.Soprano_stream Drift.other_stream
                Drift.other_stream Drift.other_stream /\
   ~ rebuilt Drift.Soprano_stream Drift.other_stream
             Drift.other_stream Drift.other_stream).
Proof.
  split.
  - split; [repeat constructor|].
    split; [repeat split; reflexivity|].
    split; [reflexivity|].
    intros (g & score & Hg & Hm & Ht).
    vm_compute in Hg. injection Hg as <-.
    vm_compute in Hm. injection Hm as <-.
    vm_compute in Ht. discriminate.
  - split; [repeat constructor|].
    split; [repeat constructor|].
    split; [reflexivity|]. split; [reflexivity|].
    split; [repeat split; vm_compute; reflexivity|].
    intros (g & score & Hg & Hm & Ht).
    vm_compute in Hg. injection Hg as <-.
    vm_compute in Hm. injection Hm as <-.
    vm_compute in Ht. discriminate.
Qed.

(** ** The synchronization invariant (C4) *)

Lemma emitted_app (pre rest : list Event) : emitted (pre ++ rest) rest = pre.
Proof.
  unfold emitted. rewrite length_app, Nat.add_sub.
  rewrite firstn_app, Nat.sub_diag, firstn_all. simpl. apply app_nil_r.
Qed.

(** No counter is below [min_value], whatever the counters. *)
Lemma min_value_le (c : dict Decimal) (voice : Voice) :
  dec_ltb (getitem c voice) (min_value c) = false.
Proof.
  set (k := Z.max (Z.max (- dexp (at_soprano c)) (- dexp (at_alto c)))
                  (Z.max (- dexp (at_tenor c)) (- dexp (at_bass c)))).
  assert (Hexp : forall v, - k <= dexp (getitem c v))
    by (intros []; simpl; unfold k; lia).
  destruct (min_value_units k c Hexp) as [Hme Hmin].
  rewrite (dec_ltb_units k) by auto.
  apply Z.ltb_ge. apply Hmin.
Qed.

(** C4, as amended.  For four streams of positive float durations that are
    multiples of [2^-k], of equal total duration below [10^(28-k)]: the
    pass of the Synchronizer ends by StopIteration when every stream is
    used up, so that the durations emitted for every voice add up to the
    total of the piece; and at every yield no counter is below the minimum
    of the four. *)
Theorem synchronization_invariant (k : Z) (S A T B : list Event) :
  0 <= k <= prec ->
  exact_stream k S = true -> exact_stream k A = true ->
  exact_stream k T = true -> exact_stream k B = true ->
  equal_totals S A T B ->
  (duration_sum S < inject_Z (10 ^ (prec - k)))%Q ->
  all_emitted S A T B /\
  forall g, gen_states S A T B = Some g ->
    raised g = StopIteration /\
    (forall voice,
       getitem (streams (last (yields g) (gen_init S A T B))) voice = []) /\
    forall l, In l (yields g) ->
      forall voice,
        dec_ltb (getitem (counter l) voice) (min_value (counter l)) = false.
Proof.
  intros Hk HS HA HT HB (EA & ET & EB) Hlt.
  destruct (gen_states_exact k S A T B Hk HS HA HT HB EA ET EB Hlt)
    as (g & Hg & Hr & Hlast).
  split.
  - exists g. split; [exact Hg|]. intros voice.
    rewrite Hlast. unfold emitted. rewrite Nat.sub_0_r, firstn_all.
    destruct voice; simpl; (reflexivity || (symmetry; assumption)).
  - intros g' Hg'. rewrite Hg in Hg'. injection Hg' as <-.
    split; [exact Hr|]. split; [exact Hlast|].
    intros l _ voice. apply min_value_le.
Qed.

Lemma synchronization_invariant_witness :
  all_emitted Scenario.Soprano_stream Scenario.Alto_stream
              Scenario.Tenor_stream Scenario.Bass_stream.
Proof.
  apply (synchronization_invariant 0); try reflexivity.
  - unfold prec. lia.
  - repeat split; reflexivity.
Defined.

(** C4 as stated fails outside exact arithmetic: with a triplet nothing is
    emitted (TypeError before the first yield), and with sums that Decimal
    rounds the second event of Soprano is never emitted. *)
Lemma synchronization_counterexample :
  (positive_stream Triplet.stream /\
   equal_totals Triplet.stream Triplet.stream Triplet.stream Triplet.stream /\
   ~ all_emitted Triplet.stream Triplet.stream Triplet.stream Triplet.stream) /\
  (positive_stream Rounding.Soprano_stream /\
   positive_stream Rounding.other_stream /\
   valid_stream Rounding.Soprano_stream = true /\
   valid_stream Rounding.other_stream = true /\
   equal_totals Rounding.Soprano_stream Rounding.other_stream
                Rounding.other_stream Rounding.other_stream /\
   ~ all_emitted Rounding.Soprano_stream Rounding.other_stream
                 Rounding.other_stream Rounding.other_stream).
Proof.
  split.
  - split; [repeat constructor|].
    split; [repeat split; reflexivity|].
    intros (g & Hg & H).
    vm_compute in Hg. injection Hg as <-.
    specialize (H Soprano). vm_compute in H. discriminate.
  - split; [repeat constructor|].
    split; [repeat constructor|].
    split; [reflexivity|]. split; [reflexivity|].
    split; [repeat split; vm_compute; reflexivity|].
    intros (g & Hg & H).
    vm_compute in Hg. injection Hg as <-.
    specialize (H Soprano). vm_compute in H. discriminate.
Qed.

(** ** Exact counters (C8) *)



Lemma last_Forall (A : Type) (P : A -> Prop) (l : list A) (d : A) :
  P d -> Forall P l -> P (last l d).
Proof.
  intros Hd H. revert d Hd. induction H as [|x l Hx Hl IH]; intros d Hd.
  - exact Hd.
  - rewrite last_cons. now apply IH.
Qed.

(** The Expander adds to a counter what it puts in the part.  Its
    durations are those that music21 keeps, multiples of [2^-15]. *)













(** ** An exhausted stream in the training step (C3) *)

Lemma advance_raises (voices : list Voice) :
  forall l voice,
    In voice voices -> getitem (streams l) voice = [] ->
    exists e, advance voices l = Raise e /\ (e = StopIteration \/ e = TypeError).
Proof.
  induction voices as [|v voices IH]; intros l voice Hin Hs; [contradiction|].
  cbn [advance].
  destruct (getitem (streams l) v) as [|[elem [q]] rest] eqn:Es; [eauto|].
  destruct q as [f|]; cbn [quarterLength Decimal_of_qlen bind]; [|eauto].
  destruct Hin as [->|Hin]; [congruence|].
  apply (IH _ voice Hin). cbn [streams].
  rewrite getitem_setitem_other by congruence. exact Hs.
Qed.

(** C3, as amended.  When a voice that is behind has no event left,
    [next] raises inside [gen_states] and the generator ends there, after
    the states already yielded.  [make_model] has no handler.  Under
    PEP 479 the StopIteration is a RuntimeError for the comprehension and
    the run is aborted, at the first chorale already (the generator of an
    equal-length piece ends in the same way).  Before PEP 479 the
    comprehension ends silently: the states yielded so far are kept as the
    training sequence of the piece, and the loop goes on. *)
Theorem exhausted_stream_not_dropped :
  (forall l voice,
     In voice (min_voices (counter l)) -> getitem (streams l) voice = [] ->
     exists e, gen_body l = Raise e /\ (e = StopIteration \/ e = TypeError)) /\
  (forall chorale chorales training,
     exists e,
       training_loop true (chorale :: chorales) training = Some (Raise e)) /\
  (forall chorale chorales training g,
     gen_states (notes_and_durations chorale Soprano)
                (notes_and_durations chorale Alto)
                (notes_and_durations chorale Tenor)
                (notes_and_durations chorale Bass) = Some g ->
     raised g = StopIteration ->
     training_loop false (chorale :: chorales) training
     = training_loop false chorales
         (training ++ [map str_state (joint_states g)])).
Proof.
  split; [|split].
  - intros l voice Hin Hs. unfold gen_body. now apply (advance_raises _ l voice).
  - intros chorale chorales training. cbn [training_loop].
    destruct (gen_states_total (notes_and_durations chorale Soprano)
                (notes_and_durations chorale Alto)
                (notes_and_durations chorale Tenor)
                (notes_and_durations chorale Bass)) as [g ->].
    unfold comprehension. destruct (raised g); eauto.
  - intros chorale chorales training g Hg Hr. cbn [training_loop].
    rewrite Hg. unfold comprehension. rewrite Hr. reflexivity.
Qed.

Lemma exhausted_stream_witness :
  training_loop false [Corpus.unequal; Corpus.equal] []
  = training_loop false [Corpus.equal] [[Corpus.unequal_token]].
Proof.
  apply (proj2 (proj2 exhausted_stream_not_dropped)
               Corpus.unequal [Corpus.equal] [] Corpus.unequal_run);
    reflexivity.
Defined.

(** C3 as stated fails: the chorale whose Alto is short is not dropped.
    Its generator ends by StopIteration after one yield; under PEP 479 the
    run is aborted, and before it the one state is kept as a training
    sequence.  In neither case is the training list that of the remaining
    chorale alone. *)
Lemma exhausted_stream_counterexample :
  selected [Corpus.unequal; Corpus.equal] None = [Corpus.unequal; Corpus.equal] /\
  raised Corpus.unequal_run = StopIteration /\
  map str_state (joint_states Corpus.unequal_run) = [Corpus.unequal_token] /\
  training_loop true [Corpus.unequal; Corpus.equal] [] = Some (Raise RuntimeError) /\
  training_loop false [Corpus.unequal; Corpus.equal] []
  = Some (Ok ([Corpus.unequal_token] :: Corpus.equal_training)) /\
  training_loop false [Corpus.equal] [] = Some (Ok Corpus.equal_training) /\
  forall generator_stop,
    ~ dropped_and_continued generator_stop Corpus.unequal Corpus.equal
        Corpus.equal_training.
Proof.
  repeat (split; [vm_compute; reflexivity|]).
  intros [] H; vm_compute in H; discriminate.
Qed.

(** ** No pieces pass the filters (C9) *)




(** ** Malformed tokens (C7) *)

Lemma append_notes_app (vs1 vs2 : list Voice) :
  forall m,
    append_notes (vs1 ++ vs2) m
    = (m1 <- append_notes vs1 m ;; append_notes vs2 m1).
Proof.
  induction vs1 as [|v vs1 IH]; intros m; [reflexivity|].
  cbn [app append_notes].
  destruct (unpack2 _) as [[pitch d]|e]; [|reflexivity]. cbn [bind].
  destruct (make_note pitch d) as [n|e]; [|reflexivity]. cbn [bind].
  destruct (Decimal_of_pyval d) as [dec|e]; [|reflexivity]. cbn [bind].
  apply IH.
Qed.

(** The inner loop reads the entries of the voices it goes through, and
    no other. *)
Lemma append_notes_reads (voices : list Voice) :
  forall m1 m2,
    m_counter m1 = m_counter m2 -> parts m1 = parts m2 ->
    (forall voice, In voice voices ->
       getitem (current_state m2) voice = getitem (current_state m1) voice) ->
    same_music (append_notes voices m1) (append_notes voices m2).
Proof.
  induction voices as [|v voices IH]; intros m1 m2 Hc Hp H.
  - split; assumption.
  - cbn [append_notes]. rewrite (H v (or_introl eq_refl)).
    destruct (unpack2 _) as [[pitch d]|e]; [|reflexivity]. cbn [bind].
    destruct (make_note pitch d) as [n|e]; [|reflexivity]. cbn [bind].
    destruct (Decimal_of_pyval d) as [dec|e]; [|reflexivity]. cbn [bind].
    apply IH; cbn [m_counter parts current_state].
    + now rewrite Hc.
    + now rewrite Hp.
    + intros voice Hin. apply H. now right.
Qed.

(** C7, as amended.  A turn of the loop of [make_music] has no check of
    the token of its own.  It raises what [ast.literal_eval] raises on the
    token, and what the unpacking into four items raises on its value.
    Then the four entries are stored in [current_state] as they are, and
    the entries of the voices that are behind are unpacked, in their
    order: a turn that goes through has found a pair for each of them,
    and the first of them that does not unpack into two items ends the
    turn by the exception of the unpacking.  The entries of the other
    voices are not read: whatever they are, the turn ends by the same
    exception or with the same counters and parts. *)
Theorem malformed_token_checks (m : music_locals) (token : string) :
  match make_tuple token with
  | Raise e => music_body m token = Raise e
  | Ok v =>
      match unpack4 v with
      | Raise e => music_body m token = Raise e
      | Ok (s, a, t, b) =>
          (forall m', music_body m token = Ok m' ->
             current_state m' = mkdict s a t b /\
             forall voice, In voice (min_voices (m_counter m)) ->
               exists pitch d,
                 unpack2 (getitem (mkdict s a t b) voice) = Ok (pitch, d)) /\
          (forall vs1 voice vs2 m1 e,
             min_voices (m_counter m) = vs1 ++ voice :: vs2 ->
             append_notes vs1 (assign_state m s a t b) = Ok m1 ->
             unpack2 (getitem (mkdict s a t b) voice) = Raise e ->
             music_body m token = Raise e) /\
          (forall s' a' t' b',
             (forall voice, In voice (min_voices (m_counter m)) ->
                getitem (mkdict s' a' t' b') voice
                = getitem (mkdict s a t b) voice) ->
             same_music (music_body m token)
                        (music_body_value m (PTuple [s'; a'; t'; b'])))
      end
  end.
Proof.
  unfold music_body, music_body_value.
  destruct (make_tuple token) as [v|e]; [|reflexivity]. cbn [bind].
  destruct (unpack4 v) as [[[[s a] t] b]|e]; [|reflexivity]. cbn [bind].
  change (m_counter (assign_state m s a t b)) with (m_counter m).
  split; [|split].
  - intros m' H. split.
    + apply append_notes_frame in H as [H _]. exact H.
    + intros voice Hin.
      destruct (append_notes_appends _ (min_voices_NoDup _) _ _ H voice Hin)
        as (pitch & d & _ & _ & H1 & _).
      exists pitch, d. exact H1.
  - intros vs1 voice vs2 m1 e Hmin H1 Hu.
    rewrite Hmin, append_notes_app, H1. cbn [bind append_notes].
    apply append_notes_frame in H1 as [-> _].
    cbn [assign_state current_state]. now rewrite Hu.
  - intros s' a' t' b' H. cbn [unpack4 iterate bind].
    change (m_counter (assign_state m s' a' t' b')) with (m_counter m).
    apply append_notes_reads; auto.
Qed.

(** C7 as stated fails: a token with [None] for the three voices that are
    ahead is no joint state, and it is accepted without an error; the
    partly filled state is kept in [current_state]. *)
Lemma malformed_token_counterexample :
  make_tuple Corpus.partial_token
  = Ok (PTuple [PTuple [PStr "D4"; PFloat (mkfloat 1 0)]; PNone; PNone; PNone]) /\
  well_formed_token Corpus.partial_token = false /\
  min_voices (m_counter Scenario.after_first) = [Soprano] /\
  exists m',
    music_body Scenario.after_first Corpus.partial_token = Ok m' /\
    current_state m'
    = mkdict (PTuple [PStr "D4"; PFloat (mkfloat 1 0)]) PNone PNone PNone /\
    parts m' = parts Scenario.after_second.
Proof.
  split; [reflexivity|]. split; [reflexivity|]. split; [reflexivity|].
  eexists. split; [vm_compute; reflexivity|]. split; reflexivity.
Qed.

(** * Further properties of the script *)

(** ** class Voice *)

(** X1.  [Voice.order] is defined on the four names of [Voice.All] and on
    nothing else: it gives the ranks 1 to 4, a different rank for every
    voice, and any other key raises KeyError. *)
Theorem order_defined_on_All (voice : string) :
  match VoiceClass.order voice with
  | Ok n =>
      In voice VoiceClass.All /\ 1 <= n <= 4 /\
      exists v, voice = Voice_name v /\ n = VoiceOrder.order v /\
        forall v', VoiceOrder.order v' = n -> v' = v
  | Raise e => e = KeyError /\ ~ In voice VoiceClass.All
  end.
Proof.
  unfold VoiceClass.order, VoiceClass.lookup, VoiceClass.All.
  destruct (String.eqb_spec "Soprano" voice) as [<-|H1].
  { split; [simpl; auto|]. split; [lia|]. exists Soprano.
    repeat split. now intros []. }
  destruct (String.eqb_spec "Alto" voice) as [<-|H2].
  { split; [simpl; auto|]. split; [lia|]. exists Alto.
    repeat split. now intros []. }
  destruct (String.eqb_spec "Tenor" voice) as [<-|H3].
  { split; [simpl; auto|]. split; [lia|]. exists Tenor.
    repeat split. now intros []. }
  destruct (String.eqb_spec "Bass" voice) as [<-|H4].
  { split; [simpl; auto|]. split; [lia|]. exists Bass.
    repeat split. now intros []. }
  split; [reflexivity|]. simpl. intuition.
Qed.

(** ** The selection of the chorales *)

Lemma subset_names_spec (xs ys : list string) :
  subset_names xs ys = true <-> forall x, In x xs -> In x ys.
Proof.
  unfold subset_names. rewrite forallb_forall. split; intros H x Hx.
  - apply H in Hx. apply existsb_exists in Hx as (y & Hy & E).
    apply String.eqb_eq in E. now subst.
  - apply existsb_exists. exists x. split; [now apply H|apply String.eqb_refl].
Qed.

(** X2.  The filter of [bach_chorales] compares sets: a chorale passes
    exactly when the names of its parts are the four voices, whatever the
    order of its parts and however often a name occurs; a part with
    another name, or a missing voice, makes it fail. *)
Theorem four_voices_as_sets (chorale : Chorale) :
  has_four_voices chorale = true <->
  forall name,
    In name (map fst (chorale_parts chorale)) <-> In name VoiceClass.All.
Proof.
  unfold has_four_voices. rewrite andb_true_iff, !subset_names_spec.
  change (map Voice_name keys) with VoiceClass.All.
  split.
  - intros [H1 H2] name. split; auto.
  - intros H. split; intros x Hx; now apply H.
Qed.

(** X3.  The chorales that [make_model] trains on are those of the corpus
    that have the four voices, are in 4/4 and, when a key is given, are in
    that mode.  A key that is the empty string filters nothing, as no key
    at all. *)
Theorem selected_spec (corpus : list Chorale) (key : option string)
  (chorale : Chorale) :
  In chorale (selected corpus key) <->
  In chorale corpus /\
  has_four_voices chorale = true /\
  time_signature chorale = "4/4"%string /\
  match key with
  | None => True
  | Some k => k = EmptyString \/ key_mode chorale = k
  end.
Proof.
  assert (H0 : In chorale
                 (filter_by_time_signature (bach_chorales corpus) "4/4")
               <-> In chorale corpus /\ has_four_voices chorale = true /\
                   time_signature chorale = "4/4"%string).
  { unfold filter_by_time_signature, bach_chorales.
    rewrite !filter_In, String.eqb_eq. tauto. }
  unfold selected. destruct key as [[|c k]|].
  - rewrite H0. intuition.
  - unfold filter_by_key. rewrite filter_In, H0, String.eqb_eq.
    intuition congruence.
  - rewrite H0. intuition.
Qed.

(** X4.  The selection looks at one chorale at a time: what is selected
    from two corpora put together is what is selected from the first,
    followed by what is selected from the second, in the order of the
    corpus. *)
Theorem selection_is_per_chorale (corpus1 corpus2 : list Chorale)
  (key : option string) :
  selected (corpus1 ++ corpus2) key
  = selected corpus1 key ++ selected corpus2 key.
Proof.
  unfold selected, filter_by_key, filter_by_time_signature, bach_chorales.
  destruct key as [[|c k]|]; now rewrite !filter_app.
Qed.

(** ** Voice streams *)

(** X5.  A part without chords loses nothing: its stream has one event
    for every note and rest, and the same total duration as the part. *)
Theorem chord_free_part_is_kept (part : list element) :
  (forall elem, In elem part -> is_chord elem = false) ->
  List.length (notes_and_durations_part part) = List.length part /\
  map snd (notes_and_durations_part part) = map element_duration part /\
  (duration_sum (notes_and_durations_part part) == notated_duration part)%Q.
Proof.
  induction part as [|elem part IH]; intros H.
  - repeat split; reflexivity.
  - destruct IH as (IH1 & IH2 & IH3); [intros; apply H; now right|].
    pose proof (H elem (or_introl eq_refl)) as Hc.
    destruct elem; try discriminate Hc;
      cbn [notes_and_durations_part flat_map notes_and_durations_elem try_name
           app List.length map snd element_duration duration_sum
           notated_duration];
      fold (notes_and_durations_part part);
      rewrite IH1, IH2, IH3; repeat split; reflexivity.
Qed.

Lemma chord_free_part_witness :
  List.length (notes_and_durations_part [ENote "C4" Scenario.one; ERest Scenario.two])
  = 2%nat.
Proof.
  apply (chord_free_part_is_kept [ENote "C4" Scenario.one; ERest Scenario.two]).
  intros elem [<-|[<-|[]]]; reflexivity.
Defined.

(** ** The voices that are behind *)

Lemma dec_compare_antisym (a b : Decimal) :
  dec_compare b a = CompOpp (dec_compare a b).
Proof.
  unfold dec_compare. rewrite (Z.min_comm (dexp b)). apply Z.compare_antisym.
Qed.

(** X6.  The voices that a turn advances.  [min_voices] is never empty; it
    lists, in the order Soprano, Alto, Tenor, Bass and without repetition,
    the voices whose counter equals the minimum, and the counter of every
    other voice is greater than the minimum. *)
Theorem min_voices_spec (c : dict Decimal) :
  min_voices c <> [] /\
  StronglySorted Z.lt (map VoiceOrder.order (min_voices c)) /\
  forall voice,
    (In voice (min_voices c) /\
     dec_compare (getitem c voice) (min_value c) = Eq) \/
    (~ In voice (min_voices c) /\
     dec_compare (min_value c) (getitem c voice) = Lt).
Proof.
  split; [apply min_voices_nonempty|]. split.
  - unfold min_voices, keys. cbn [filter].
    repeat match goal with
           | |- context [if ?b then _ else _] => destruct b
           end;
      cbn [map VoiceOrder.order];
      repeat (constructor; try lia).
  - intros voice. pose proof (in_min_voices c voice) as Hin.
    pose proof (min_value_le c voice) as Hle.
    unfold dec_eqb in Hin. unfold dec_ltb in Hle.
    rewrite (dec_compare_antisym (getitem c voice) (min_value c)).
    destruct (dec_compare (getitem c voice) (min_value c)).
    + left. split; [now apply Hin|reflexivity].
    + discriminate Hle.
    + right. split; [|reflexivity]. intros H. apply Hin in H. discriminate H.
Qed.
(** ** The Synchronizer, on any four streams *)

Lemma gen_loop_yields (P Q : gen_locals -> Prop) :
  (forall l l', P l -> gen_body l = Ok l' -> Q l') ->
  (forall l, Q l -> P l) ->
  forall fuel l g, P l -> gen_loop fuel l = Some g -> Forall Q (yields g).
Proof.
  intros Hstep HQP.
  induction fuel as [|fuel IH]; intros l g Hl H; [discriminate|].
  cbn [gen_loop] in H. destruct (gen_body l) as [l'|e] eqn:E.
  - destruct (gen_loop fuel l') as [g'|] eqn:E'; [|discriminate].
    injection H as <-. cbn [yields]. constructor; eauto.
  - injection H as <-. constructor.
Qed.

Lemma gen_loop_invariant (P : gen_locals -> Prop) :
  (forall l l', P l -> gen_body l = Ok l' -> P l') ->
  forall fuel l g, P l -> gen_loop fuel l = Some g -> Forall P (yields g).
Proof. intros Hstep. apply gen_loop_yields; auto. Qed.

(** The generator ends where the body raises: at the locals of the last
    yield (the initial ones when nothing was yielded). *)
Lemma gen_loop_end (fuel : nat) :
  forall l g, gen_loop fuel l = Some g ->
    gen_body (last (yields g) l) = Raise (raised g).
Proof.
  induction fuel as [|fuel IH]; intros l g H; [discriminate|].
  cbn [gen_loop] in H. destruct (gen_body l) as [l'|e] eqn:E.
  - destruct (gen_loop fuel l') as [g'|] eqn:E'; [|discriminate].
    injection H as <-. cbn [yields raised]. rewrite last_cons. now apply IH.
  - injection H as <-. exact E.
Qed.

Lemma gen_loop_length (fuel : nat) :
  forall l g, gen_loop fuel l = Some g ->
    (List.length (yields g) <= remaining (streams l))%nat.
Proof.
  induction fuel as [|fuel IH]; intros l g H; [discriminate|].
  cbn [gen_loop] in H. destruct (gen_body l) as [l'|e] eqn:E.
  - destruct (gen_loop fuel l') as [g'|] eqn:E'; [|discriminate].
    injection H as <-. cbn [yields List.length].
    apply gen_body_remaining in E. apply IH in E'. lia.
  - injection H as <-. cbn. lia.
Qed.

(** X7.  A turn of the Synchronizer that reaches its [yield] takes one
    event from the stream of every voice whose counter equals the minimum:
    the event becomes the entry of the voice and its duration is added to
    the counter.  The other voices keep their stream, their entry (which
    is yielded again as it was) and their counter. *)
Theorem synchronizer_turn (l l' : gen_locals) :
  gen_body l = Ok l' ->
  forall voice,
    if dec_eqb (getitem (counter l) voice) (min_value (counter l))
    then exists elem dur d,
        getitem (streams l) voice = (elem, dur) :: getitem (streams l') voice /\
        getitem (state l') voice = Some (elem, quarterLength dur) /\
        Decimal_of_qlen (quarterLength dur) = Ok d /\
        getitem (counter l') voice = dec_add (getitem (counter l) voice) d
    else getitem (streams l') voice = getitem (streams l) voice /\
         getitem (state l') voice = getitem (state l) voice /\
         getitem (counter l') voice = getitem (counter l) voice.
Proof.
  intros H voice. unfold gen_body in H.
  destruct (advance_spec _ (min_voices_NoDup _) _ _ H) as [Hin Hout].
  destruct (dec_eqb _ _) eqn:E.
  - apply in_min_voices in E.
    destruct (Hin voice E) as (elem & dur & rest & d & H1 & H2 & H3 & H4 & H5).
    exists elem, dur, d. rewrite H2. auto.
  - apply Hout. intros Hv. apply in_min_voices in Hv. congruence.
Qed.

Lemma synchronizer_turn_witness :
  let l := gen_init Scenario.Soprano_stream Scenario.Alto_stream
                    Scenario.Tenor_stream Scenario.Bass_stream in
  let l' := hd l (yields Scenario.run) in
  gen_body l = Ok l' /\
  forall voice,
    if dec_eqb (getitem (counter l) voice) (min_value (counter l))
    then exists elem dur d,
        getitem (streams l) voice = (elem, dur) :: getitem (streams l') voice /\
        getitem (state l') voice = Some (elem, quarterLength dur) /\
        Decimal_of_qlen (quarterLength dur) = Ok d /\
        getitem (counter l') voice = dec_add (getitem (counter l) voice) d
    else getitem (streams l') voice = getitem (streams l) voice /\
         getitem (state l') voice = getitem (state l) voice /\
         getitem (counter l') voice = getitem (counter l) voice.
Proof.
  intros l l'. split; [reflexivity|].
  apply (synchronizer_turn l l'). reflexivity.
Defined.

(** The turn, in the form the invariants below use it. *)
Lemma gen_body_turn (l l' : gen_locals) :
  gen_body l = Ok l' ->
  forall voice,
    if dec_eqb (getitem (counter l) voice) (min_value (counter l))
    then exists elem dur,
        getitem (streams l) voice = (elem, dur) :: getitem (streams l') voice /\
        getitem (state l') voice = Some (elem, quarterLength dur)
    else getitem (streams l') voice = getitem (streams l) voice /\
         getitem (state l') voice = getitem (state l) voice.
Proof.
  intros H voice. unfold gen_body in H.
  destruct (advance_spec _ (min_voices_NoDup _) _ _ H) as [Hin Hout].
  destruct (dec_eqb _ _) eqn:E.
  - apply in_min_voices in E.
    destruct (Hin voice E) as (elem & dur & rest & d & H1 & H2 & H3 & _).
    exists elem, dur. rewrite H2. auto.
  - destruct (Hout voice) as (H1 & H2 & _); [|auto].
    intros Hv. apply in_min_voices in Hv. congruence.
Qed.

(** What the voices have consumed is a prefix of their streams. *)
Lemma gen_body_suffix (S0 : dict (list Event)) (l l' : gen_locals) :
  (forall voice, exists pre,
     getitem S0 voice = pre ++ getitem (streams l) voice) ->
  gen_body l = Ok l' ->
  forall voice, exists pre,
    getitem S0 voice = pre ++ getitem (streams l') voice.
Proof.
  intros Hl H voice. pose proof (gen_body_turn l l' H voice) as Ht.
  destruct (Hl voice) as [pre Hpre].
  destruct (dec_eqb _ _).
  - destruct Ht as (elem & dur & H1 & _).
    exists (pre ++ [(elem, dur)]). rewrite <- app_assoc. cbn [app].
    rewrite Hpre, H1. reflexivity.
  - destruct Ht as (H1 & _). exists pre. now rewrite H1.
Qed.

Lemma gen_states_suffix (S A T B : list Event) (g : generated) :
  gen_states S A T B = Some g ->
  forall voice, exists pre,
    getitem (mkdict S A T B) voice
    = pre ++ getitem (streams (last (yields g) (gen_init S A T B))) voice.
Proof.
  intros H.
  set (P := fun l : gen_locals => forall voice, exists pre,
              getitem (mkdict S A T B) voice = pre ++ getitem (streams l) voice).
  assert (H0 : P (gen_init S A T B)) by (intros voice; now exists []).
  change (P (last (yields g) (gen_init S A T B))).
  apply last_Forall; [exact H0|].
  apply (gen_loop_invariant P) with (2 := H0) (3 := H).
  intros l l' Hl E. exact (gen_body_suffix _ l l' Hl E).
Qed.

(** X8.  Every joint state that the Synchronizer yields is fully
    populated, whatever the streams: the entry of every voice is the event
    that the voice has consumed last, so no entry is [None], and what the
    voice has consumed before it is a prefix of its stream. *)
Theorem yielded_entries_are_current (S A T B : list Event) :
  exists g,
    gen_states S A T B = Some g /\
    forall l, In l (yields g) ->
      forall voice, exists pre ev,
        getitem (mkdict S A T B) voice
        = pre ++ ev :: getitem (streams l) voice /\
        getitem (state l) voice = entry_of_event ev.
Proof.
  destruct (gen_states_total S A T B) as [g H]. exists g. split; [exact H|].
  set (Q := fun l : gen_locals =>
              forall voice, exists pre ev,
                getitem (mkdict S A T B) voice
                = pre ++ ev :: getitem (streams l) voice /\
                getitem (state l) voice = entry_of_event ev).
  assert (HQ : Forall Q (yields g)).
  { apply (gen_loop_yields (fun l => l = gen_init S A T B \/ Q l) Q)
      with (4 := H); [|now right|now left].
    intros l l' Hl E voice.
    pose proof (gen_body_turn l l' E voice) as Ht.
    destruct Hl as [->|Hl].
    - change (counter (gen_init S A T B)) with (dict_all Decimal_zero) in Ht.
      replace (dec_eqb _ _) with true in Ht by now destruct voice.
      destruct Ht as (elem & dur & H1 & H2).
      exists [], (elem, dur). split; [exact H1|exact H2].
    - destruct (Hl voice) as (pre & ev & H1 & H2).
      destruct (dec_eqb _ _).
      + destruct Ht as (elem & dur & H3 & H4).
        exists (pre ++ [ev]), (elem, dur). split; [|exact H4].
        rewrite <- app_assoc. cbn [app]. rewrite H1, H3. reflexivity.
      + destruct Ht as (H3 & H4). exists pre, ev.
        now rewrite H3, H4. }
  intros l Hin. rewrite Forall_forall in HQ. exact (HQ l Hin).
Qed.

(** How [advance] raises: an exhausted stream, or a Fraction as the
    duration of the next event, for one of the voices it was given. *)
Lemma advance_raise_reason (voices : list Voice) :
  NoDup voices ->
  forall l e, advance voices l = Raise e ->
    exists voice, In voice voices /\
      ((e = StopIteration /\ getitem (streams l) voice = []) \/
       (e = TypeError /\
        exists elem dur rest n d,
          getitem (streams l) voice = (elem, dur) :: rest /\
          quarterLength dur = QFraction n d)).
Proof.
  induction voices as [|v voices IH]; intros Hnd l e H; [discriminate|].
  inversion Hnd as [|? ? Hv Hnd']; subst.
  cbn [advance] in H.
  destruct (getitem (streams l) v) as [|[elem dur] rest] eqn:Es.
  - injection H as <-. exists v. split; [now left|]. left. auto.
  - destruct (quarterLength dur) as [f|n d] eqn:Eq; cbn [Decimal_of_qlen bind] in H.
    + apply IH in H as (voice & Hin & Hr); [|exact Hnd'].
      exists voice. split; [now right|].
      cbn [streams] in Hr.
      rewrite getitem_setitem_other in Hr by (intros ->; contradiction).
      exact Hr.
    + injection H as <-. exists v. split; [now left|]. right.
      split; [reflexivity|]. exists elem, dur, rest, n, d. auto.
Qed.

Lemma gen_states_end_reason (S A T B : list Event) (g : generated) :
  gen_states S A T B = Some g ->
  exists voice,
    In voice (min_voices (counter (last (yields g) (gen_init S A T B)))) /\
    ((raised g = StopIteration /\
      getitem (streams (last (yields g) (gen_init S A T B))) voice = []) \/
     (raised g = TypeError /\
      exists elem dur rest n d,
        getitem (streams (last (yields g) (gen_init S A T B))) voice
        = (elem, dur) :: rest /\
        quarterLength dur = QFraction n d)).
Proof.
  intros H. apply gen_loop_end in H. unfold gen_body in H.
  exact (advance_raise_reason _ (min_voices_NoDup _) _ _ H).
Qed.

(** X9.  The generator never returns: it ends by an exception, after
    finitely many states.  The exception is StopIteration, raised by
    [next] on the exhausted stream of a voice that is behind, or
    TypeError, raised by [Decimal] on the Fraction that is the duration of
    the next event of such a voice. *)
Theorem generator_ends_by_exception (S A T B : list Event) :
  exists g,
    gen_states S A T B = Some g /\
    exists voice,
      In voice (min_voices (counter (last (yields g) (gen_init S A T B)))) /\
      ((raised g = StopIteration /\
        getitem (streams (last (yields g) (gen_init S A T B))) voice = []) \/
       (raised g = TypeError /\
        exists elem dur rest n d,
          getitem (streams (last (yields g) (gen_init S A T B))) voice
          = (elem, dur) :: rest /\
          quarterLength dur = QFraction n d)).
Proof.
  destruct (gen_states_total S A T B) as [g H]. exists g. split; [exact H|].
  now apply gen_states_end_reason.
Qed.

Lemma float_stream_suffix (pre s : list Event) :
  float_stream (pre ++ s) = true -> float_stream s = true.
Proof.
  unfold float_stream. rewrite forallb_app, andb_true_iff. tauto.
Qed.

Lemma gen_states_float_raised (S A T B : list Event) (g : generated) :
  (forall voice, float_stream (getitem (mkdict S A T B) voice) = true) ->
  gen_states S A T B = Some g -> raised g = StopIteration.
Proof.
  intros Hf H.
  destruct (gen_states_end_reason S A T B g H)
    as (voice & _ & [[Hr _]|[_ (elem & dur & rest & n & d & Hs & Hq)]]);
    [exact Hr|].
  exfalso. destruct (gen_states_suffix S A T B g H voice) as [pre Hpre].
  specialize (Hf voice). rewrite Hpre, Hs in Hf.
  apply float_stream_suffix in Hf. cbn [float_stream forallb] in Hf.
  unfold float_event in Hf. cbn [snd] in Hf. rewrite Hq in Hf. discriminate.
Qed.

(** X10.  On streams whose durations are all floats the generator ends by
    StopIteration, never by TypeError. *)
Theorem float_streams_end_by_StopIteration (S A T B : list Event) :
  float_stream S = true -> float_stream A = true ->
  float_stream T = true -> float_stream B = true ->
  exists g, gen_states S A T B = Some g /\ raised g = StopIteration.
Proof.
  intros HS HA HT HB.
  destruct (gen_states_total S A T B) as [g H]. exists g. split; [exact H|].
  apply (gen_states_float_raised S A T B g); [|exact H].
  intros []; assumption.
Qed.

Lemma float_streams_witness :
  exists g,
    gen_states Rounding.Soprano_stream Rounding.other_stream
               Rounding.other_stream Rounding.other_stream = Some g /\
    raised g = StopIteration.
Proof.
  apply float_streams_end_by_StopIteration; reflexivity.
Defined.

(** X11.  A voice without events silences the piece: when one of the four
    streams is empty, the generator raises in its first turn and yields no
    state at all. *)
Theorem empty_stream_yields_nothing (S A T B : list Event) :
  (exists voice, getitem (mkdict S A T B) voice = []) ->
  exists e,
    gen_states S A T B = Some (mkgenerated [] e) /\
    (e = StopIteration \/ e = TypeError).
Proof.
  intros [voice Hv].
  destruct (advance_raises keys (gen_init S A T B) voice (in_keys voice) Hv)
    as (e & He & Hk).
  exists e. split; [|exact Hk].
  unfold gen_states. cbn [gen_loop]. unfold gen_body.
  change (min_voices (counter (gen_init S A T B))) with keys.
  now rewrite He.
Qed.

Lemma empty_stream_witness :
  exists e,
    gen_states Scenario.Soprano_stream Scenario.Alto_stream [] Scenario.Bass_stream
    = Some (mkgenerated [] e) /\
    (e = StopIteration \/ e = TypeError).
Proof.
  apply empty_stream_yields_nothing. exists Tenor. reflexivity.
Defined.

Lemma gen_loop_voice_length (fuel : nat) :
  forall l g, gen_loop fuel l = Some g ->
    forall voice,
      (List.length (getitem (streams l) voice)
       <= List.length (getitem (streams (last (yields g) l)) voice)
          + List.length (yields g))%nat.
Proof.
  induction fuel as [|fuel IH]; intros l g H voice; [discriminate|].
  cbn [gen_loop] in H. destruct (gen_body l) as [l'|e] eqn:E.
  - destruct (gen_loop fuel l') as [g'|] eqn:E'; [|discriminate].
    injection H as <-. cbn [yields List.length]. rewrite last_cons.
    specialize (IH l' g' E' voice).
    pose proof (gen_body_turn l l' E voice) as Ht.
    destruct (dec_eqb _ _).
    + destruct Ht as (elem & dur & -> & _). cbn [List.length]. lia.
    + destruct Ht as [<- _]. lia.
  - injection H as <-. cbn. lia.
Qed.

(** X12.  How many states a piece gives.  A state takes at most one event
    of a voice, so a voice has consumed no more events than there are
    states; and the first state takes an event of every voice and every
    later state at least one, so a piece of [n] events in all gives at
    most [n - 3] states. *)
Theorem yields_bounded_by_events (S A T B : list Event) :
  exists g,
    gen_states S A T B = Some g /\
    (forall voice,
       (List.length (getitem (mkdict S A T B) voice)
        <= List.length
             (getitem (streams (last (yields g) (gen_init S A T B))) voice)
           + List.length (yields g))%nat) /\
    (yields g = [] \/
     (List.length (yields g) + 3
      <= List.length S + List.length A + List.length T + List.length B)%nat).
Proof.
  destruct (gen_states_total S A T B) as [g H]. exists g. split; [exact H|].
  split; [exact (gen_loop_voice_length _ _ g H)|].
  unfold gen_states in H. cbn [gen_loop] in H.
  destruct (gen_body (gen_init S A T B)) as [l'|e] eqn:E.
  - destruct (gen_loop _ l') as [g'|] eqn:E'; [|discriminate].
    injection H as <-. right. cbn [yields List.length].
    apply gen_loop_length in E'.
    unfold gen_body in E.
    change (min_voices (counter (gen_init S A T B))) with keys in E.
    apply advance_remaining in E.
    change (remaining (streams (gen_init S A T B)))
      with (List.length S + List.length A + List.length T + List.length B)%nat
      in E.
    change (List.length keys) with 4%nat in E. lia.
  - injection H as <-. now left.
Qed.
(** ** The Expander after the Synchronizer, on any four streams *)

Lemma make_score_timelines (p : dict Part) :
  map fst (make_score p) = [1; 2; 3; 4] /\
  map (fun q => timeline (snd q)) (make_score p)
  = map (fun voice => timeline (getitem p voice)) keys.
Proof. split; reflexivity. Qed.

(** X13.  On streams as music21 gives them (rests and pitch names; the
    durations positive floats that are multiples of [2^-15], which
    [Duration] keeps as they are, or Fractions), whatever their totals,
    the Expander rebuilds what the Synchronizer has emitted: fed the
    tokens of the yielded states, [make_music] goes through, and the part
    of every voice holds, after its instrument, the events that the voice
    had consumed at the last yield, in their order.  (An event taken in
    the turn that raised is in no state and in no part.) *)
Theorem expander_rebuilds_emitted (S A T B : list Event) :
  music21_stream S = true -> music21_stream A = true ->
  music21_stream T = true -> music21_stream B = true ->
  exists g score,
    gen_states S A T B = Some g /\
    make_music (map str_state (joint_states g)) = Ok score /\
    map fst score = [1; 2; 3; 4] /\
    map (fun q => timeline (snd q)) score
    = map (fun voice =>
             emitted (getitem (mkdict S A T B) voice)
                     (getitem (streams (last (yields g) (gen_init S A T B)))
                              voice))
          keys.
Proof.
  intros HS HA HT HB.
  destruct (gen_states_total S A T B) as [g H].
  destruct (expander_follows S A T B g HS HA HT HB H) as (m & Hm & _ & Hf).
  exists g, (make_score (parts m)). split; [exact H|].
  split; [unfold make_music; now rewrite Hm|].
  destruct (make_score_timelines (parts m)) as [E1 E2].
  split; [exact E1|]. rewrite E2. apply map_ext. intros voice.
  destruct (Hf voice) as (pre & Hpre & Hpart).
  rewrite Hpart, timeline_notes, Hpre. symmetry. apply emitted_app.
Qed.

Lemma expander_rebuilds_witness :
  exists g score,
    gen_states (notes_and_durations Corpus.unequal Soprano)
               (notes_and_durations Corpus.unequal Alto)
               (notes_and_durations Corpus.unequal Tenor)
               (notes_and_durations Corpus.unequal Bass) = Some g /\
    make_music (map str_state (joint_states g)) = Ok score /\
    map fst score = [1; 2; 3; 4] /\
    map (fun q => timeline (snd q)) score
    = map (fun voice =>
             emitted (getitem (mkdict (notes_and_durations Corpus.unequal Soprano)
                                      (notes_and_durations Corpus.unequal Alto)
                                      (notes_and_durations Corpus.unequal Tenor)
                                      (notes_and_durations Corpus.unequal Bass))
                              voice)
                     (getitem (streams
                                 (last (yields g)
                                    (gen_init (notes_and_durations Corpus.unequal Soprano)
                                              (notes_and_durations Corpus.unequal Alto)
                                              (notes_and_durations Corpus.unequal Tenor)
                                              (notes_and_durations Corpus.unequal Bass))))
                              voice))
          keys.
Proof.
  apply expander_rebuilds_emitted; reflexivity.
Defined.

(** ** Tokens and states *)

Lemma pyval_of_entry_inj (e1 e2 : option (string * qlen)) :
  pyval_of_entry e1 = pyval_of_entry e2 -> e1 = e2.
Proof.
  destruct e1 as [[n1 [f1|a1 b1]]|], e2 as [[n2 [f2|a2 b2]]|];
    cbn [pyval_of_entry pyval_of_qlen]; intros H;
    try discriminate H; try reflexivity; injection H; intros; subst;
    reflexivity.
Qed.

(** X14.  The token tells the state: two joint states of names and floats
    (as every yielded state is) that have the same token are the same
    state, so the model never merges two different states. *)
Theorem tokens_identify_states (j1 j2 : JointState) :
  literal_state j1 = true -> literal_state j2 = true ->
  str_state j1 = str_state j2 -> j1 = j2.
Proof.
  intros H1 H2 E.
  apply make_tuple_str_state in H1. apply make_tuple_str_state in H2.
  rewrite E, H2 in H1. injection H1 as Hs Ha Ht Hb.
  apply pyval_of_entry_inj in Hs, Ha, Ht, Hb.
  apply dict_ext. intros []; auto.
Qed.

Lemma tokens_identify_witness :
  state (hd (gen_init [] [] [] []) (yields Scenario.run))
  = mkdict (Some ("C4"%string, QFloat (mkfloat 1 0)))
           (Some ("E4"%string, QFloat (mkfloat 1 1)))
           (Some ("G3"%string, QFloat (mkfloat 1 1)))
           (Some ("C3"%string, QFloat (mkfloat 1 1))).
Proof.
  apply tokens_identify_states; reflexivity.
Defined.

(** ** make_model, from the selection to the model *)

(** X15.  Where a StopIteration raised inside a generator is a
    RuntimeError (Python 3.7 and later), [make_model] writes a model only
    for an empty selection: as soon as one chorale is selected, the run
    ends by RuntimeError, or by the TypeError of a Fraction duration, at
    the first of them, and [Chain] is not reached. *)
Theorem make_model_aborts_on_first_chorale (ChainT : Type)
  (Chain : list (list string) -> Z -> result ChainT)
  (to_json : ChainT -> string)
  (corpus : list Chorale) (model_file : string) (state_size : Z)
  (key : option string) :
  selected corpus key <> [] ->
  exists e,
    make_model Chain to_json true corpus model_file state_size key
    = Some (Raise e) /\
    (e = RuntimeError \/ e = TypeError).
Proof.
  intros Hsel. unfold make_model.
  destruct (selected corpus key) as [|chorale chorales]; [congruence|].
  cbn [training_loop].
  destruct (gen_states_total (notes_and_durations chorale Soprano)
                             (notes_and_durations chorale Alto)
                             (notes_and_durations chorale Tenor)
                             (notes_and_durations chorale Bass)) as [g H].
  rewrite H.
  destruct (gen_states_end_reason _ _ _ _ g H)
    as (voice & _ & [[Hr _]|[Hr _]]);
    unfold comprehension; rewrite Hr.
  - exists RuntimeError. auto.
  - exists TypeError. auto.
Qed.

Lemma make_model_aborts_witness :
  exists e,
    make_model Corpus.Chain Corpus.to_json true [Corpus.waltz; Corpus.equal]
               "model.json" 2 (Some "major"%string)
    = Some (Raise e) /\
    (e = RuntimeError \/ e = TypeError).
Proof.
  apply make_model_aborts_on_first_chorale. discriminate.
Defined.

Lemma training_loop_legacy (chorales : list Chorale) :
  forall training,
    (forall chorale, In chorale chorales -> float_chorale chorale = true) ->
    training_loop false chorales training
    = Some (Ok (training ++ map chorale_tokens chorales)).
Proof.
  induction chorales as [|chorale chorales IH]; intros training Hf.
  - cbn. now rewrite app_nil_r.
  - cbn [training_loop map]. unfold chorale_tokens at 1.
    destruct (gen_states_total (notes_and_durations chorale Soprano)
                               (notes_and_durations chorale Alto)
                               (notes_and_durations chorale Tenor)
                               (notes_and_durations chorale Bass)) as [g H].
    rewrite H.
    assert (Hr : raised g = StopIteration).
    { refine (gen_states_float_raised _ _ _ _ g _ H).
      pose proof (Hf chorale (or_introl eq_refl)) as Hc.
      unfold float_chorale, keys in Hc. cbn [forallb] in Hc.
      rewrite !andb_true_iff in Hc. intros []; cbn [getitem]; tauto. }
    unfold comprehension. rewrite Hr.
    rewrite IH by (intros c Hc; apply Hf; now right).
    rewrite <- app_assoc. reflexivity.
Qed.

(** X16.  Where a StopIteration raised inside a generator ends it silently
    (before Python 3.7), and no duration is a Fraction, [make_model] hands
    [Chain] one sequence of tokens for every selected chorale, in the
    order of the corpus: the tokens of the states that the Synchronizer
    yields for it.  No chorale is left out and none is cut off by
    another. *)
Theorem make_model_trains_on_every_chorale (ChainT : Type)
  (Chain : list (list string) -> Z -> result ChainT)
  (to_json : ChainT -> string)
  (corpus : list Chorale) (model_file : string) (state_size : Z)
  (key : option string) :
  (forall chorale, In chorale (selected corpus key) ->
     float_chorale chorale = true) ->
  make_model Chain to_json false corpus model_file state_size key
  = Some (chain <- Chain (map chorale_tokens (selected corpus key)) state_size ;;
          Ok (model_file, to_json chain)).
Proof.
  intros Hf. unfold make_model.
  rewrite training_loop_legacy by exact Hf. reflexivity.
Qed.

Lemma make_model_trains_witness :
  make_model Corpus.Chain Corpus.to_json false
             [Corpus.waltz; Corpus.unequal; Corpus.equal]
             "model.json" 2 None
  = Some (Ok ("model.json"%string,
              Corpus.to_json
                [[Corpus.unequal_token];
                 [Scenario.first_token; Scenario.second_token]])).
Proof.
  refine (make_model_trains_on_every_chorale
            Corpus.Model Corpus.Chain Corpus.to_json
            [Corpus.waltz; Corpus.unequal; Corpus.equal] "model.json"%string
            2 None _).
  intros chorale [<-|[<-|[]]]; reflexivity.
Defined.
(** ** make_music, on any walk *)

Lemma make_note_not_instrument (pitch d : pyval) (n : part_element) :
  make_note pitch d = Ok n -> is_instrument n = false.
Proof.
  unfold make_note. destruct (make_Duration d) as [dur|e]; [|discriminate].
  cbn [bind]. destruct (is_rest pitch).
  - intros H. injection H as <-. reflexivity.
  - destruct pitch as [| | | |name| |]; try discriminate.
    destruct (pitch_name name); [|discriminate].
    intros H. injection H as <-. reflexivity.
Qed.

Lemma notes_count_append (p : dict Part) (voice : Voice) (n : part_element) :
  is_instrument n = false ->
  notes_count (setitem p voice (getitem p voice ++ [n])) = S (notes_count p).
Proof.
  intros Hn. unfold notes_count, keys. cbn [fold_right].
  destruct voice; cbn [getitem setitem at_soprano at_alto at_tenor at_bass];
    rewrite filter_app, length_app; cbn [filter]; rewrite Hn;
    cbn [negb List.length]; lia.
Qed.

Lemma append_notes_count (voices : list Voice) :
  forall m m', append_notes voices m = Ok m' ->
    notes_count (parts m') = (notes_count (parts m) + List.length voices)%nat.
Proof.
  induction voices as [|v voices IH]; intros m m' H.
  - injection H as <-. cbn. lia.
  - cbn [append_notes] in H.
    apply bind_Ok in H as ([pitch d] & _ & H).
    apply bind_Ok in H as (n & Hn & H).
    apply bind_Ok in H as (dec & _ & H).
    apply IH in H. cbn [parts] in H. rewrite H.
    rewrite notes_count_append by exact (make_note_not_instrument _ _ _ Hn).
    cbn [List.length]. lia.
Qed.

Lemma min_voices_length (c : dict Decimal) :
  (1 <= List.length (min_voices c) <= 4)%nat.
Proof.
  split.
  - pose proof (min_voices_nonempty c).
    destruct (min_voices c); [congruence|cbn; lia].
  - unfold min_voices. apply (filter_length_le _ keys).
Qed.

Lemma music_body_count (m m' : music_locals) (token : string) :
  music_body m token = Ok m' ->
  (notes_count (parts m) + 1 <= notes_count (parts m')
   <= notes_count (parts m) + 4)%nat.
Proof.
  unfold music_body, music_body_value. intros H.
  apply bind_Ok in H as (v & _ & H).
  apply bind_Ok in H as ([[[s a] t] b] & _ & H).
  apply append_notes_count in H. cbn [assign_state parts m_counter] in H.
  pose proof (min_voices_length (m_counter m)). lia.
Qed.

(** X17.  Every token of the walk adds at least one note or rest to the
    score and at most four, one per voice: after a walk of [n] tokens the
    four parts hold between [n] and [4 n] notes and rests. *)
Theorem walk_appends_one_to_four_notes (walk : list string) :
  forall m m', music_loop walk m = Ok m' ->
    (notes_count (parts m) + List.length walk <= notes_count (parts m')
     <= notes_count (parts m) + 4 * List.length walk)%nat.
Proof.
  induction walk as [|token walk IH]; intros m m' H.
  - injection H as <-. cbn. lia.
  - cbn [music_loop] in H. apply bind_Ok in H as (m1 & H1 & H).
    apply music_body_count in H1. apply IH in H. cbn [List.length]. lia.
Qed.

Lemma walk_appends_witness :
  (notes_count (parts music_init) + 2 <= notes_count (parts Scenario.after_second)
   <= notes_count (parts music_init) + 4 * 2)%nat.
Proof.
  apply (walk_appends_one_to_four_notes
           [Scenario.first_token; Scenario.second_token]
           music_init Scenario.after_second).
  vm_compute. reflexivity.
Defined.

Lemma append_notes_parts (voices : list Voice) :
  NoDup voices ->
  forall m m', append_notes voices m = Ok m' ->
    (forall voice, part_of_voice voice (getitem (parts m) voice)) ->
    forall voice, part_of_voice voice (getitem (parts m') voice).
Proof.
  intros Hnd m m' H Hm voice.
  destruct (in_dec Voice_eq_dec voice voices) as [Hin|Hout].
  - destruct (append_notes_appends voices Hnd m m' H voice Hin)
      as (pitch & d & n & dec & _ & Hn & _ & Hp & _).
    destruct (Hm voice) as (notes & E & Hnotes).
    exists (notes ++ [n]). rewrite Hp, E. split; [reflexivity|].
    rewrite forallb_app, Hnotes. cbn [forallb].
    now rewrite (make_note_not_instrument _ _ _ Hn).
  - destruct (append_notes_frame voices m m' H) as [_ Hfr].
    destruct (Hfr voice Hout) as [-> _]. apply Hm.
Qed.

Lemma music_loop_parts (walk : list string) :
  forall m m', music_loop walk m = Ok m' ->
    (forall voice, part_of_voice voice (getitem (parts m) voice)) ->
    forall voice, part_of_voice voice (getitem (parts m') voice).
Proof.
  induction walk as [|token walk IH]; intros m m' H Hm.
  - injection H as <-. exact Hm.
  - cbn [music_loop] in H. apply bind_Ok in H as (m1 & H1 & H).
    apply (IH m1 m' H). clear H IH.
    unfold music_body, music_body_value in H1.
    apply bind_Ok in H1 as (v & _ & H1).
    apply bind_Ok in H1 as ([[[s a] t] b] & _ & H1).
    apply (append_notes_parts _ (min_voices_NoDup _) _ _ H1). exact Hm.
Qed.

(** X18.  Whatever the walk, a score that [make_music] completes has
    four parts, inserted at 1, 2, 3 and 4 in the order Soprano, Alto,
    Tenor, Bass; each begins with the instrument of its voice and holds
    notes and rests after it, nothing else. *)
Theorem score_has_four_parts (walk : list string) (score : Score) :
  make_music walk = Ok score ->
  exists s a t b,
    score = [(1, s); (2, a); (3, t); (4, b)] /\
    part_of_voice Soprano s /\ part_of_voice Alto a /\
    part_of_voice Tenor t /\ part_of_voice Bass b.
Proof.
  unfold make_music. intros H. apply bind_Ok in H as (m & Hm & H).
  injection H as <-.
  assert (H0 : forall voice,
             part_of_voice voice (getitem (parts music_init) voice)).
  { intros []; exists []; split; reflexivity. }
  pose proof (music_loop_parts walk music_init m Hm H0) as Hp.
  exists (getitem (parts m) Soprano), (getitem (parts m) Alto),
         (getitem (parts m) Tenor), (getitem (parts m) Bass).
  split; [reflexivity|]. repeat split; apply Hp.
Qed.

Lemma score_has_four_parts_witness :
  exists s a t b,
    make_score (parts Scenario.after_second) = [(1, s); (2, a); (3, t); (4, b)] /\
    part_of_voice Soprano s /\ part_of_voice Alto a /\
    part_of_voice Tenor t /\ part_of_voice Bass b.
Proof.
  apply (score_has_four_parts [Scenario.first_token; Scenario.second_token]).
  vm_compute. reflexivity.
Defined.

(** X19.  The first token of a walk is read in full: the four counters are
    equal at the start, so every voice is behind, the entry of each of the
    four voices is unpacked into a pitch and a duration, and every part
    gets its first note or rest.  (A token with [None] for a voice cannot
    start a walk.) *)
Theorem first_token_fills_every_part (token : string) (m : music_locals) :
  music_body music_init token = Ok m ->
  exists s a t b,
    current_state m = mkdict s a t b /\
    forall voice,
      (exists pitch d,
         unpack2 (getitem (mkdict s a t b) voice) = Ok (pitch, d)) /\
      exists n, is_instrument n = false /\
                getitem (parts m) voice = [Instrument voice; n].
Proof.
  unfold music_body, music_body_value. intros H.
  apply bind_Ok in H as (v & _ & H).
  apply bind_Ok in H as ([[[s a] t] b] & _ & H).
  change (min_voices (m_counter (assign_state music_init s a t b)))
    with keys in H.
  exists s, a, t, b.
  destruct (append_notes_frame keys _ m H) as [Hcs _].
  split; [exact Hcs|]. intros voice.
  destruct (append_notes_appends keys keys_NoDup _ m H voice (in_keys voice))
    as (pitch & d & n & dec & H1 & H2 & H3 & H4 & _).
  cbn [assign_state current_state parts] in H1, H4.
  split.
  - exists pitch, d. exact H1.
  - exists n. split; [exact (make_note_not_instrument _ _ _ H2)|].
    rewrite H4. now destruct voice.
Qed.

Lemma first_token_witness :
  exists s a t b,
    current_state Scenario.after_first = mkdict s a t b /\
    forall voice,
      (exists pitch d,
         unpack2 (getitem (mkdict s a t b) voice) = Ok (pitch, d)) /\
      exists n, is_instrument n = false /\
                getitem (parts Scenario.after_first) voice
                = [Instrument voice; n].
Proof.
  apply (first_token_fills_every_part Scenario.first_token).
  vm_compute. reflexivity.
Defined.
(** ** The command line *)

(** X20.  The script runs a command in two cases only.  It calls
    [make_model] when the first argument is [make_model] and a file name
    and a state size follow, the size being what [int] makes of the third
    argument; the key is the fourth argument when there is one, [None]
    otherwise, and further arguments are ignored.  It calls [make_music]
    when the first argument is [make_music] and a file name follows,
    whatever comes after it. *)
Theorem main_runs_a_command (int : string -> result Z) (argv : list string) :
  (forall model_file state_size key,
     main int argv = Run_make_model model_file state_size key <->
     exists prog size rest,
       argv = prog :: "make_model"%string :: model_file :: size :: rest /\
       int size = Ok state_size /\
       key = hd_error rest) /\
  (forall model_file,
     main int argv = Run_make_music model_file <->
     exists prog rest,
       argv = prog :: "make_music"%string :: model_file :: rest).
Proof.
  unfold main. split.
  - intros model_file state_size key. split.
    + destruct argv as [|prog [|cmd [|file_name args]]]; cbn [tl];
        try discriminate.
      destruct (String.eqb_spec cmd "make_model") as [->|Hcmd].
      * destruct args as [|size rest]; cbn [nth_error]; [discriminate|].
        destruct (int size) as [n|e] eqn:E; [|discriminate].
        intros H. injection H as <- <- <-.
        exists prog, size, rest. split; [reflexivity|]. split; [exact E|].
        destruct rest; reflexivity.
      * destruct (String.eqb cmd "make_music"); discriminate.
    + intros (prog & size & rest & -> & E & ->). cbn [tl nth_error].
      rewrite String.eqb_refl, E. destruct rest; reflexivity.
  - intros model_file. split.
    + destruct argv as [|prog [|cmd [|file_name args]]]; cbn [tl];
        try discriminate.
      destruct (String.eqb_spec cmd "make_model") as [->|Hcmd].
      * destruct (nth_error args 0); [|discriminate].
        destruct (int s); discriminate.
      * destruct (String.eqb_spec cmd "make_music") as [->|Hcmd'];
          [|discriminate].
        intros H. injection H as <-. eauto.
    + intros (prog & rest & ->). reflexivity.
Qed.

(** X21.  How the script ends without running a command.  With fewer than
    two arguments after the name of the script the unpacking of
    [sys.argv[1:]] raises ValueError, whatever the arguments are; [sys.exit(1)] is reached only with two
    arguments or more, when the first is neither [make_model] nor
    [make_music]; and [make_model] with a file name and nothing else
    raises IndexError. *)
Theorem main_fails_before_a_command (int : string -> result Z)
  (argv : list string) :
  ((List.length argv < 3)%nat -> main int argv = Uncaught ValueError) /\
  (forall code,
     main int argv = SystemExit code <->
     code = 1 /\
     exists prog cmd model_file rest,
       argv = prog :: cmd :: model_file :: rest /\
       cmd <> "make_model"%string /\ cmd <> "make_music"%string) /\
  (main int argv = IndexError <->
   exists prog model_file, argv = [prog; "make_model"%string; model_file]).
Proof.
  unfold main. split; [|split].
  - destruct argv as [|prog [|cmd [|file_name args]]]; cbn [tl List.length];
      intros H; try reflexivity. lia.
  - intros code. split.
    + destruct argv as [|prog [|cmd [|file_name args]]]; cbn [tl];
        try discriminate.
      destruct (String.eqb_spec cmd "make_model") as [->|Hcmd].
      * destruct (nth_error args 0); [|discriminate].
        destruct (int s); discriminate.
      * destruct (String.eqb_spec cmd "make_music") as [->|Hcmd'];
          [discriminate|].
        intros H. injection H as <-. split; [reflexivity|].
        exists prog, cmd, file_name, args. auto.
    + intros (-> & prog & cmd & model_file & rest & -> & H1 & H2).
      cbn [tl].
      destruct (String.eqb_spec cmd "make_model"); [contradiction|].
      destruct (String.eqb_spec cmd "make_music"); [contradiction|].
      reflexivity.
  - split.
    + destruct argv as [|prog [|cmd [|file_name args]]]; cbn [tl];
        try discriminate.
      destruct (String.eqb_spec cmd "make_model") as [->|Hcmd].
      * destruct args as [|size rest]; cbn [nth_error]; [eauto|].
        destruct (int size); discriminate.
      * destruct (String.eqb cmd "make_music"); discriminate.
    + intros (prog & model_file & ->). reflexivity.
Qed.
(** ** Tokens that are not read back *)

(** The first digit of a positive int is not a zero. *)
Lemma digits_fixed_leading (fuel : nat) :
  forall c, 0 < c < 2 ^ Z.of_nat fuel ->
    exists ch s,
      digits_fixed (Z.to_nat (ndigits_aux fuel c)) c = String ch s /\
      Ascii.eqb ch "0" = false.
Proof.
  induction fuel as [|fuel IH]; intros c Hc; [simpl in Hc; lia|].
  cbn [ndigits_aux]. destruct (Z.leb_spec c 0); [lia|].
  pose proof (ndigits_aux_nonneg fuel (c / 10)) as Hk.
  replace (Z.to_nat (1 + ndigits_aux fuel (c / 10)))
    with (S (Z.to_nat (ndigits_aux fuel (c / 10)))) by lia.
  cbn [digits_fixed].
  destruct (Z.eq_dec (c / 10) 0) as [E|E].
  - rewrite E.
    replace (ndigits_aux fuel 0) with 0 by (destruct fuel; reflexivity).
    cbn [Z.to_nat digits_fixed append].
    exists (digit_char (c mod 10)), EmptyString. split; [reflexivity|].
    pose proof (Z.div_mod c 10 ltac:(lia)) as Hdm.
    pose proof (Z.mod_pos_bound c 10 ltac:(lia)) as Hm.
    assert (Hd : c mod 10 = 1 \/ c mod 10 = 2 \/ c mod 10 = 3 \/ c mod 10 = 4
                 \/ c mod 10 = 5 \/ c mod 10 = 6 \/ c mod 10 = 7
                 \/ c mod 10 = 8 \/ c mod 10 = 9) by lia.
    repeat (destruct Hd as [->|Hd]; [reflexivity|]). now rewrite Hd.
  - destruct (IH (c / 10)) as (ch & s & Eh & Hch).
    + rewrite Nat2Z.inj_succ, Z.pow_succ_r in Hc by lia.
      pose proof (Z.div_pos c 10 ltac:(lia) ltac:(lia)).
      split; [lia|]. apply Z.div_lt_upper_bound; lia.
    + rewrite Eh. cbn [append]. eauto.
Qed.

Lemma digits_of_leading (n : Z) :
  0 < n -> exists ch s, digits_of n = String ch s /\ Ascii.eqb ch "0" = false.
Proof.
  intros Hn. unfold digits_of. destruct (Z.leb_spec n 0); [lia|].
  unfold ndigits. rewrite Z.abs_eq by lia.
  apply digits_fixed_leading.
  rewrite Nat2Z.inj_succ, Z2Nat.id by apply Z.log2_nonneg.
  pose proof (Z.log2_spec n Hn). lia.
Qed.

Lemma not_zero_match (X : Type) (c : ascii) (s : string) (a b : X) :
  Ascii.eqb c "0" = false ->
  match String c s with
  | String "0" _ => a
  | _ => b
  end = b.
Proof.
  intros H. destruct c as [[] [] [] [] [] [] [] []]; try reflexivity.
  discriminate H.
Qed.

(** An int is read back, in front of a comma or a closing parenthesis. *)
Lemma read_number_int (n : Z) (c : ascii) (rest : string) :
  0 <= n -> c = ","%char \/ c = ")"%char ->
  read_number (digits_of n ++ String c rest) = Ok (PInt n, String c rest).
Proof.
  intros Hn Hc.
  assert (Hd : delimited (String c rest))
    by (destruct Hc as [->| ->]; split; reflexivity).
  assert (Hf : fraction_part (String c rest) = (0, 0%nat, String c rest, false))
    by (destruct Hc as [->| ->]; reflexivity).
  unfold read_number.
  destruct (read_digits_of n (String c rest) Hn) as (cnt & Hcnt & ->).
  rewrite read_digits_stop by now apply delimited_not_digit.
  rewrite Hf. cbv beta iota.
  replace (cnt =? 0)%nat with false by (symmetry; apply Nat.eqb_neq; lia).
  cbn [andb]. rewrite exponent_part_none by exact Hd.
  destruct (Z.eq_dec n 0) as [->|Hne]; [reflexivity|].
  destruct (digits_of_leading n ltac:(lia)) as (ch & s & -> & Hch).
  cbn [append]. now rewrite not_zero_match.
Qed.

Lemma read_int_digit (c : ascii) (s : string) :
  is_digit c = true ->
  read_int (String c s)
  = ('(v, rest) <- read_number (String c s) ;;
     match v with
     | PInt z => Ok (z, rest)
     | _ => Raise Unmodelled
     end).
Proof.
  intros H. destruct c as [[] [] [] [] [] [] [] []]; try discriminate H;
    reflexivity.
Qed.

Lemma read_int_repr (n : Z) (c : ascii) (rest : string) :
  c = ","%char \/ c = ")"%char ->
  read_int (repr_int n ++ String c rest) = Ok (n, String c rest).
Proof.
  intros Hc. unfold repr_int. destruct (Z.ltb_spec n 0) as [Hn|Hn].
  - rewrite append_assoc. cbn [append]. unfold read_int.
    rewrite read_number_int by (assumption || lia). cbn [bind].
    now rewrite Z.opp_involutive.
  - destruct (digits_of_head n Hn) as (ch & s & E & Hch).
    pose proof (read_number_int n c rest Hn Hc) as Hr.
    rewrite E in *. cbn [append] in *.
    rewrite read_int_digit, Hr by exact Hch. reflexivity.
Qed.

(** [Fraction(n, d)] is read as the call that it is. *)
Lemma reads_Fraction (n : Z) (d : positive) :
  reads (repr_Fraction n d) (PFraction n d) 1.
Proof.
  split.
  - eexists _, _. repeat split; reflexivity.
  - intros fuel rest _. unfold repr_Fraction.
    rewrite !append_assoc. cbn [Nat.add append].
    rewrite parse_value_S. cbn [skip_spaces].
    change (Ascii.eqb "F" " ") with false. cbv iota.
    change (Ascii.eqb "F" "(") with false.
    change (Ascii.eqb "F" "[") with false.
    change (Ascii.eqb "F" quote1 || Ascii.eqb "F" quote2) with false.
    change (Ascii.eqb "F" "-") with false.
    change (is_digit "F" || Ascii.eqb "F" ".") with false. cbv iota.
    cbn [starts_None starts_Fraction].
    rewrite read_int_repr by now left. cbn [bind].
    rewrite read_int_repr by now right. cbn [bind].
    unfold repr_int. reflexivity.
Qed.

Lemma reads_fraction_entry (name : string) (n : Z) (d : positive) :
  reads (repr (pyval_of_entry (Some (name, QFraction n d))))
        (pyval_of_entry (Some (name, QFraction n d))) 4.
Proof.
  apply (reads_tuple 1 [repr_str name; repr_Fraction n d]
                     [PStr name; PFraction n d]).
  - apply Forall2_cons; [apply reads_str|].
    apply Forall2_cons; [apply reads_Fraction|apply Forall2_nil].
  - simpl. lia.
Qed.

Lemma entry_reads (e : option (string * qlen)) :
  literal_entry e || fraction_entry e = true ->
  reads (repr (pyval_of_entry e)) (pyval_of_entry e) 4.
Proof.
  destruct e as [[name [f|n d]]|]; intros H.
  - apply literal_entry_reads. cbn in H |- *. now rewrite orb_false_r in H.
  - apply reads_fraction_entry.
  - now apply literal_entry_reads.
Qed.

Lemma has_call_fraction_entry (e : option (string * qlen)) :
  fraction_entry e = true -> has_call (pyval_of_entry e) = true.
Proof. destruct e as [[name [f|n d]]|]; [discriminate|reflexivity|discriminate]. Qed.

(** X22.  A joint state with a Fraction as a duration has a token that
    cannot be read back: [str] writes the Fraction as a call, and
    [make_tuple] raises ValueError on it, wherever it stands in the state.
    (The Synchronizer yields no such state: its [Decimal] raises before.) *)
Theorem fraction_token_is_not_read (j : JointState) :
  (forall voice,
     literal_entry (getitem j voice) || fraction_entry (getitem j voice) = true) ->
  (exists voice, fraction_entry (getitem j voice) = true) ->
  make_tuple (str_state j) = Raise ValueError /\
  forall m, music_body m (str_state j) = Raise ValueError.
Proof.
  intros Hall Hex.
  assert (H : make_tuple (str_state j) = Raise ValueError);
    [|split; [exact H|intros m; unfold music_body; now rewrite H]].
  unfold str_state, pyval_of_state, values, keys. cbn [map].
  set (es := [pyval_of_entry (getitem j Soprano); pyval_of_entry (getitem j Alto);
              pyval_of_entry (getitem j Tenor); pyval_of_entry (getitem j Bass)]).
  change (repr (PTuple es)) with ("(" ++ join ", " (map repr es) ++ ")")%string.
  assert (Hr : reads ("(" ++ join ", " (map repr es) ++ ")") (PTuple es) 9).
  { apply (reads_tuple 4 (map repr es) es); [|simpl; lia].
    unfold es. cbn [map].
    repeat (apply Forall2_cons; [apply entry_reads, Hall|]).
    apply Forall2_nil. }
  rewrite (make_tuple_reads _ _ 9 Hr).
  - replace (has_call (PTuple es)) with true; [reflexivity|].
    symmetry. cbn [has_call]. apply existsb_exists.
    destruct Hex as [voice Hv].
    exists (pyval_of_entry (getitem j voice)).
    split; [|now apply has_call_fraction_entry].
    unfold es. destruct voice; cbn; tauto.
  - unfold es. cbn [map join]. cbn [append String.length].
    rewrite !length_append. cbn [String.length]. lia.
Qed.

Lemma fraction_token_witness :
  make_tuple (str_state (mkdict (Some ("C4"%string, QFloat (mkfloat 1 0)))
                                (Some ("E4"%string, QFraction 1 3))
                                None None))
  = Raise ValueError.
Proof.
  apply fraction_token_is_not_read.
  - intros []; reflexivity.
  - exists Alto. reflexivity.
Defined.
(** ** States as vertical slices *)

Lemma Q_units_le (x y : Q) (p a b : Z) :
  0 < p ->
  (x * inject_Z p == inject_Z a)%Q -> (y * inject_Z p == inject_Z b)%Q ->
  a <= b -> (x <= y)%Q.
Proof.
  intros Hp Hx Hy Hab.
  assert (Hq : (0 < inject_Z p)%Q) by now rewrite <- (Zlt_Qlt 0).
  apply (Qmult_le_r x y (inject_Z p) Hq).
  rewrite Hx, Hy. now rewrite <- Zle_Qle.
Qed.

Lemma Q_units_lt (x y : Q) (p a b : Z) :
  0 < p ->
  (x * inject_Z p == inject_Z a)%Q -> (y * inject_Z p == inject_Z b)%Q ->
  a < b -> (x < y)%Q.
Proof.
  intros Hp Hx Hy Hab.
  assert (Hq : (0 < inject_Z p)%Q) by now rewrite <- (Zlt_Qlt 0).
  apply (Qmult_lt_r x y (inject_Z p) Hq).
  rewrite Hx, Hy. now rewrite <- Zlt_Qlt.
Qed.

Lemma stream_units_snoc (k : Z) (pre : list Event) (ev : Event) :
  stream_units k (pre ++ [ev]) = stream_units k pre + event_units k ev.
Proof. rewrite stream_units_app. cbn [stream_units]. lia. Qed.

Lemma app_cons_snoc (A : Type) (pre rest : list A) (x : A) :
  pre ++ x :: rest = (pre ++ [x]) ++ rest.
Proof. now rewrite <- app_assoc. Qed.

(** Consecutive locals of a run are related by what a turn establishes. *)
Lemma gen_loop_steps (P : gen_locals -> Prop)
  (R : gen_locals -> gen_locals -> Prop) :
  (forall l l', P l -> gen_body l = Ok l' -> P l' /\ R l l') ->
  forall fuel l g, P l -> gen_loop fuel l = Some g ->
    forall i a b,
      nth_error (l :: yields g) i = Some a ->
      nth_error (yields g) i = Some b -> R a b.
Proof.
  intros Hstep. induction fuel as [|fuel IH]; intros l g Hl H; [discriminate|].
  cbn [gen_loop] in H. destruct (gen_body l) as [l'|e] eqn:E.
  - destruct (gen_loop fuel l') as [g'|] eqn:E'; [|discriminate].
    injection H as <-. cbn [yields].
    destruct (Hstep l l' Hl E) as [Hl' HR].
    intros [|i] a b Ha Hb.
    + cbn in Ha, Hb. injection Ha as <-. injection Hb as <-. exact HR.
    + cbn [nth_error] in Ha, Hb. exact (IH l' g' Hl' E' i a b Ha Hb).
  - injection H as <-. intros [|i] a b _ Hb; discriminate Hb.
Qed.

(** A turn on exact streams, in units of [10^-k]: every voice has in the
    new state the event that covers the least counter of before, and the
    least counter has grown. *)
Lemma gen_body_slice (k : Z) (S A T B : list Event) (l l' : gen_locals) :
  0 <= k ->
  (forall voice, exact_stream k (getitem (mkdict S A T B) voice) = true) ->
  (forall voice, stream_units k (getitem (mkdict S A T B) voice) < 10 ^ prec) ->
  exact_locals k (mkdict S A T B) l ->
  (l = gen_init S A T B \/
   forall voice, exists pre ev,
     getitem (mkdict S A T B) voice = pre ++ ev :: getitem (streams l) voice /\
     getitem (state l) voice = entry_of_event ev /\
     stream_units k pre <= dec_units k (min_value (counter l))) ->
  gen_body l = Ok l' ->
  exact_locals k (mkdict S A T B) l' /\
  dec_units k (min_value (counter l)) < dec_units k (min_value (counter l')) /\
  forall voice, exists pre ev,
    getitem (mkdict S A T B) voice = pre ++ ev :: getitem (streams l') voice /\
    getitem (state l') voice = entry_of_event ev /\
    stream_units k pre <= dec_units k (min_value (counter l))
    < stream_units k pre + event_units k ev.
Proof.
  intros Hk Hex Htot Hl HJ E.
  set (S0 := mkdict S A T B) in *.
  assert (Hl' : exact_locals k S0 l').
  { unfold gen_body in E.
    exact (exact_locals_advance k S0 _ l l' Hk Hex Htot (min_voices_NoDup _) Hl E). }
  assert (Hexp : forall voice, - k <= dexp (getitem (counter l) voice)).
  { intros voice. destruct (Hl voice) as (pre & _ & H & _). exact H. }
  destruct (min_value_units k (counter l) Hexp) as [Hmexp Hmle].
  assert (HS : forall voice, exists pre ev,
             getitem S0 voice = pre ++ ev :: getitem (streams l') voice /\
             getitem (state l') voice = entry_of_event ev /\
             stream_units k pre <= dec_units k (min_value (counter l))
             < stream_units k pre + event_units k ev).
  { intros voice. pose proof (gen_body_turn l l' E voice) as Ht.
    destruct (Hl voice) as (pre' & Hpre' & _ & Hu).
    rewrite (dec_eqb_units k) in Ht by auto.
    destruct (Z.eqb_spec (dec_units k (getitem (counter l) voice))
                         (dec_units k (min_value (counter l)))) as [Heq|Hne].
    - destruct Ht as (elem & dur & H1 & H2).
      exists pre', (elem, dur). rewrite Hpre', H1. split; [reflexivity|].
      split; [exact H2|].
      assert (Hev : exact_event k (elem, dur) = true).
      { specialize (Hex voice). rewrite Hpre', H1 in Hex.
        apply exact_stream_app in Hex as [_ Hex].
        now apply exact_stream_cons in Hex as [Hex _]. }
      pose proof (event_units_pos k (elem, dur) Hk Hev). lia.
    - destruct Ht as (H1 & H2).
      destruct HJ as [->|HJ].
      { exfalso. apply Hne. now destruct voice. }
      destruct (HJ voice) as (pre & ev & Hpre & Hst & Hon).
      exists pre, ev. rewrite H1, H2. split; [exact Hpre|].
      split; [exact Hst|].
      assert (E' : pre' = pre ++ [ev]).
      { apply (app_inv_tail (getitem (streams l) voice)).
        rewrite <- Hpre', Hpre. apply app_cons_snoc. }
      rewrite E', stream_units_snoc in Hu.
      specialize (Hmle voice). lia. }
  split; [exact Hl'|]. split; [|exact HS].
  destruct (min_value_in (counter l')) as [v Hv]. rewrite Hv.
  destruct (HS v) as (pre & ev & Hpre & _ & _ & Hlt).
  destruct (Hl' v) as (pre' & Hpre' & _ & Hu).
  assert (E' : pre' = pre ++ [ev]).
  { apply (app_inv_tail (getitem (streams l') v)).
    rewrite <- Hpre', Hpre. apply app_cons_snoc. }
  rewrite Hu, E', stream_units_snoc. lia.
Qed.

Lemma gen_states_slices (k : Z) (S A T B : list Event) (g : generated) :
  0 <= k ->
  (forall voice, exact_stream k (getitem (mkdict S A T B) voice) = true) ->
  (forall voice, stream_units k (getitem (mkdict S A T B) voice) < 10 ^ prec) ->
  gen_states S A T B = Some g ->
  forall i l l',
    nth_error (gen_init S A T B :: yields g) i = Some l ->
    nth_error (yields g) i = Some l' ->
    (forall voice, - k <= dexp (getitem (counter l) voice)) /\
    (forall voice, - k <= dexp (getitem (counter l') voice)) /\
    dec_units k (min_value (counter l)) < dec_units k (min_value (counter l')) /\
    forall voice, exists pre ev,
      getitem (mkdict S A T B) voice = pre ++ ev :: getitem (streams l') voice /\
      getitem (state l') voice = entry_of_event ev /\
      stream_units k pre <= dec_units k (min_value (counter l))
      < stream_units k pre + event_units k ev.
Proof.
  intros Hk Hex Htot H.
  set (S0 := mkdict S A T B) in *.
  set (J := fun l : gen_locals =>
              l = gen_init S A T B \/
              forall voice, exists pre ev,
                getitem S0 voice = pre ++ ev :: getitem (streams l) voice /\
                getitem (state l) voice = entry_of_event ev /\
                stream_units k pre <= dec_units k (min_value (counter l))).
  apply (gen_loop_steps (fun l => exact_locals k S0 l /\ J l)) with (3 := H).
  - intros l l' [Hl HJ] E.
    destruct (gen_body_slice k S A T B l l' Hk Hex Htot Hl HJ E)
      as (Hl' & Hlt & HS).
    split; [split; [exact Hl'|]|].
    + right. intros voice. destruct (HS voice) as (pre & ev & H1 & H2 & H3).
      exists pre, ev. split; [exact H1|]. split; [exact H2|]. lia.
    + split; [|split; [|split; [exact Hlt|exact HS]]]; intros voice.
      * destruct (Hl voice) as (pre & _ & Hexp & _). exact Hexp.
      * destruct (Hl' voice) as (pre & _ & Hexp & _). exact Hexp.
  - split; [now apply exact_locals_init|now left].
Qed.

Lemma event_Q_units (k : Z) (ev : Event) :
  0 <= k -> exact_event k ev = true ->
  (qlen_Q (quarterLength (snd ev)) * inject_Z (10 ^ k)
   == inject_Z (event_units k ev))%Q.
Proof.
  intros Hk Hev. unfold event_units.
  destruct (exact_event_float k ev Hev) as (f & -> & _ & _ & Hf).
  cbn [qlen_Q]. now apply float_Q_units.
Qed.

Lemma exact_hypotheses (k : Z) (S A T B : list Event) :
  0 <= k <= prec ->
  exact_stream k S = true -> exact_stream k A = true ->
  exact_stream k T = true -> exact_stream k B = true ->
  (duration_sum S < inject_Z (10 ^ (prec - k)))%Q ->
  (duration_sum A < inject_Z (10 ^ (prec - k)))%Q ->
  (duration_sum T < inject_Z (10 ^ (prec - k)))%Q ->
  (duration_sum B < inject_Z (10 ^ (prec - k)))%Q ->
  (forall voice, exact_stream k (getitem (mkdict S A T B) voice) = true) /\
  (forall voice, stream_units k (getitem (mkdict S A T B) voice) < 10 ^ prec).
Proof.
  intros Hk HS HA HT HB LS LA LT LB.
  split; intros []; cbn [getitem at_soprano at_alto at_tenor at_bass];
    try assumption; now apply exact_total_units.
Qed.

(** X23.  Every state is a vertical slice of the piece.  For streams of
    positive float durations that are multiples of [2^-k], each of total
    duration below [10^(28-k)]: let [t] be the least counter when a turn
    starts (0 at the first turn).  In the state that the turn yields, the
    entry of every voice is the event of that voice that sounds at [t]:
    it begins at [t] or before, and it ends after [t]. *)
Theorem states_are_vertical_slices (k : Z) (S A T B : list Event) :
  0 <= k <= prec ->
  exact_stream k S = true -> exact_stream k A = true ->
  exact_stream k T = true -> exact_stream k B = true ->
  (duration_sum S < inject_Z (10 ^ (prec - k)))%Q ->
  (duration_sum A < inject_Z (10 ^ (prec - k)))%Q ->
  (duration_sum T < inject_Z (10 ^ (prec - k)))%Q ->
  (duration_sum B < inject_Z (10 ^ (prec - k)))%Q ->
  exists g,
    gen_states S A T B = Some g /\
    forall i l l',
      nth_error (gen_init S A T B :: yields g) i = Some l ->
      nth_error (yields g) i = Some l' ->
      forall voice, exists pre ev,
        getitem (mkdict S A T B) voice
        = pre ++ ev :: getitem (streams l') voice /\
        getitem (state l') voice = entry_of_event ev /\
        (duration_sum pre <= Decimal_Q (min_value (counter l)))%Q /\
        (Decimal_Q (min_value (counter l))
         < duration_sum pre + qlen_Q (quarterLength (snd ev)))%Q.
Proof.
  intros Hk HS HA HT HB LS LA LT LB.
  destruct (exact_hypotheses k S A T B Hk HS HA HT HB LS LA LT LB)
    as [Hex Htot].
  destruct (gen_states_total S A T B) as [g H]. exists g. split; [exact H|].
  intros i l l' Hi Hi' voice.
  destruct (gen_states_slices k S A T B g (proj1 Hk) Hex Htot H i l l' Hi Hi')
    as (Hexp & _ & _ & Hs).
  destruct (Hs voice) as (pre & ev & H1 & H2 & H3 & H4).
  exists pre, ev. split; [exact H1|]. split; [exact H2|].
  pose proof (pow10_pos k (proj1 Hk)) as Hp.
  destruct (min_value_units k (counter l) Hexp) as [Hmexp _].
  pose proof (Decimal_Q_units k (min_value (counter l)) (proj1 Hk) Hmexp) as Qt.
  specialize (Hex voice). rewrite H1 in Hex.
  apply exact_stream_app in Hex as [Hpre Hex].
  apply exact_stream_cons in Hex as [Hev _].
  pose proof (duration_sum_units k pre (proj1 Hk) Hpre) as Qpre.
  pose proof (event_Q_units k ev (proj1 Hk) Hev) as Qev.
  split.
  - exact (Q_units_le _ _ _ _ _ Hp Qpre Qt H3).
  - apply (Q_units_lt _ _ (10 ^ k) _ (stream_units k pre + event_units k ev) Hp Qt);
      [|exact H4].
    rewrite Qmult_plus_distr_l, Qpre, Qev, inject_Z_plus. reflexivity.
Qed.

Lemma vertical_slices_witness :
  exists g,
    gen_states Scenario.Soprano_stream Scenario.Alto_stream
               Scenario.Tenor_stream Scenario.Bass_stream = Some g /\
    forall i l l',
      nth_error (gen_init Scenario.Soprano_stream Scenario.Alto_stream
                          Scenario.Tenor_stream Scenario.Bass_stream
                 :: yields g) i = Some l ->
      nth_error (yields g) i = Some l' ->
      forall voice, exists pre ev,
        getitem (mkdict Scenario.Soprano_stream Scenario.Alto_stream
                        Scenario.Tenor_stream Scenario.Bass_stream) voice
        = pre ++ ev :: getitem (streams l') voice /\
        getitem (state l') voice = entry_of_event ev /\
        (duration_sum pre <= Decimal_Q (min_value (counter l)))%Q /\
        (Decimal_Q (min_value (counter l))
         < duration_sum pre + qlen_Q (quarterLength (snd ev)))%Q.
Proof.
  apply (states_are_vertical_slices 0); try reflexivity.
  unfold prec. lia.
Defined.

(** X24.  Time moves on.  Under the same conditions the least counter
    grows strictly from every turn to the next, so that no two states of a
    piece stand for the same moment. *)
Theorem time_advances (k : Z) (S A T B : list Event) :
  0 <= k <= prec ->
  exact_stream k S = true -> exact_stream k A = true ->
  exact_stream k T = true -> exact_stream k B = true ->
  (duration_sum S < inject_Z (10 ^ (prec - k)))%Q ->
  (duration_sum A < inject_Z (10 ^ (prec - k)))%Q ->
  (duration_sum T < inject_Z (10 ^ (prec - k)))%Q ->
  (duration_sum B < inject_Z (10 ^ (prec - k)))%Q ->
  exists g,
    gen_states S A T B = Some g /\
    forall i l l',
      nth_error (gen_init S A T B :: yields g) i = Some l ->
      nth_error (yields g) i = Some l' ->
      dec_ltb (min_value (counter l)) (min_value (counter l')) = true /\
      (Decimal_Q (min_value (counter l))
       < Decimal_Q (min_value (counter l')))%Q.
Proof.
  intros Hk HS HA HT HB LS LA LT LB.
  destruct (exact_hypotheses k S A T B Hk HS HA HT HB LS LA LT LB)
    as [Hex Htot].
  destruct (gen_states_total S A T B) as [g H]. exists g. split; [exact H|].
  intros i l l' Hi Hi'.
  destruct (gen_states_slices k S A T B g (proj1 Hk) Hex Htot H i l l' Hi Hi')
    as (Hexp & Hexp' & Hlt & _).
  destruct (min_value_units k (counter l) Hexp) as [Hm _].
  destruct (min_value_units k (counter l') Hexp') as [Hm' _].
  split.
  - rewrite (dec_ltb_units k) by assumption. now apply Z.ltb_lt.
  - exact (Q_units_lt _ _ _ _ _ (pow10_pos k (proj1 Hk))
             (Decimal_Q_units k _ (proj1 Hk) Hm)
             (Decimal_Q_units k _ (proj1 Hk) Hm') Hlt).
Qed.

Lemma time_advances_witness :
  exists g,
    gen_states Scenario.Soprano_stream Scenario.Alto_stream
               Scenario.Tenor_stream Scenario.Bass_stream = Some g /\
    forall i l l',
      nth_error (gen_init Scenario.Soprano_stream Scenario.Alto_stream
                          Scenario.Tenor_stream Scenario.Bass_stream
                 :: yields g) i = Some l ->
      nth_error (yields g) i = Some l' ->
      dec_ltb (min_value (counter l)) (min_value (counter l')) = true /\
      (Decimal_Q (min_value (counter l))
       < Decimal_Q (min_value (counter l')))%Q.
Proof.
  apply (time_advances 0); try reflexivity.
  unfold prec. lia.
Defined.
